(** * rfid-content-types: a shallow embedding of the tag content resolver

    The development follows the most complete revision of the resolver
    (the one that defines [isValidNumber], [surfaceClone] and the
    [attemptCount] ceiling).  Each module embeds one group of source
    functions; the theorems come after all definitions.

    Conventions used throughout:
    - JavaScript strings are [string]s of 8-bit code units;
    - JavaScript numbers that the code manipulates are integers and are
      modelled by [Z]; [NaN] and [-Infinity] are added where the code can
      produce them;
    - the module is ECMAScript module code, hence strict-mode code. *)

From Stdlib Require Import ZArith Lia Bool Ascii String List Relations.
From stdpp Require Import base list strings pretty gmap.

#[local] Open Scope string_scope.
#[local] Open Scope Z_scope.

(** ** Identifier decoding: [getTagNumbers] *)

Module TagNumbers.

(** Result of [parseInt]: [NaN] or an integer. *)
Inductive jsnum := NaN | Num (z : Z).

Definition code (c : ascii) : Z := Z.of_N (N_of_ascii c).

(** Value of one hexadecimal digit, if [c] is one. *)
Definition hex_digit (c : ascii) : option Z :=
  let n := code c in
  if (48 <=? n) && (n <=? 57) then Some (n - 48)
  else if (97 <=? n) && (n <=? 102) then Some (n - 87)
  else if (65 <=? n) && (n <=? 70) then Some (n - 55)
  else None.

(** White space skipped by [parseInt] (code units below 256). *)
Definition is_white_space (c : ascii) : bool :=
  let n := code c in
  ((9 <=? n) && (n <=? 13)) || (n =? 32) || (n =? 160).

(** Characters that the regular expression [.] does not match. *)
Definition is_line_terminator (c : ascii) : bool :=
  let n := code c in (n =? 10) || (n =? 13).

Fixpoint trim_start (s : string) : string :=
  match s with
  | String c s' => if is_white_space c then trim_start s' else s
  | EmptyString => EmptyString
  end.

Definition strip_sign (s : string) : Z * string :=
  match s with
  | String c s' =>
      if (code c =? 45) then (-1, s')
      else if (code c =? 43) then (1, s')
      else (1, s)
  | EmptyString => (1, s)
  end.

(** With radix 16 a leading [0x] or [0X] is dropped. *)
Definition strip_0x (s : string) : string :=
  match s with
  | String c0 (String c1 s') =>
      if (code c0 =? 48) && ((code c1 =? 120) || (code c1 =? 88)) then s' else s
  | _ => s
  end.

(** Longest prefix of hexadecimal digits, read as a number; [None] when
    the prefix is empty. *)
Fixpoint hex_digits (acc : option Z) (s : string) : option Z :=
  match s with
  | String c s' =>
      match hex_digit c with
      | Some d => hex_digits (Some (16 * default 0 acc + d)) s'
      | None => acc
      end
  | EmptyString => acc
  end.

(** [parseInt(s, 16)].  The chunks handed to it have at most eight
    characters, so the value is below [2^32] and exact. *)
Definition parseInt16 (s : string) : jsnum :=
  let '(sgn, s1) := strip_sign (trim_start s) in
  match hex_digits None (strip_0x s1) with
  | None => NaN
  | Some v => Num (sgn * v)
  end.

(** [s.match(/.{1,8}/g)]: the successive greedy matches of one to eight
    characters other than line terminators.  [cur] is the match being
    built and [n] its length. *)
Fixpoint match_dot8 (cur : string) (n : nat) (s : string) : list string :=
  match s with
  | EmptyString => match n with O => [] | S _ => [cur] end
  | String c s' =>
      if is_line_terminator c then
        match n with O => [] | S _ => [cur] end ++ match_dot8 EmptyString 0 s'
      else if (n =? 8)%nat then cur :: match_dot8 (String c EmptyString) 1 s'
      else match_dot8 (cur ++ String c EmptyString) (S n) s'
  end.

(** [isValidNumber] on the result of the destructuring
    [[v1, v2] = ... || []]: [None] is [undefined]. *)
Definition isValidNumber (v : option jsnum) : bool :=
  match v with
  | Some (Num _) => true
  | Some NaN => false
  | None => false
  end.

(** [s.slice(k)] and [s.slice(0, k)] for a non-negative [k]. *)
Fixpoint drop_chars (k : nat) (s : string) : string :=
  match k, s with
  | S k', String _ s' => drop_chars k' s'
  | _, _ => s
  end.

Fixpoint take_chars (k : nat) (s : string) : string :=
  match k, s with
  | S k', String c s' => String c (take_chars k' s')
  | _, _ => EmptyString
  end.

Definition getTagNumbers (tagEpc : string) : option (Z * Z) :=
  let tagEpc :=
    if (32 <=? String.length tagEpc)%nat then drop_chars 8 tagEpc else tagEpc in
  let nums := map parseInt16 (match_dot8 EmptyString 0 tagEpc) in
  let v1 := nums !! 0%nat in
  let v2 := nums !! 1%nat in
  if negb (isValidNumber v1) || negb (isValidNumber v2) then None
  else
    match v1, v2 with
    | Some (Num a), Some (Num b) => Some (a, b)
    | _, _ => None
    end.

(** Value of a string of hexadecimal digits. *)
Fixpoint hex_value (acc : Z) (s : string) : Z :=
  match s with
  | EmptyString => acc
  | String c s' => hex_value (16 * acc + default 0 (hex_digit c)) s'
  end.

Definition is_hex_string (s : string) : bool :=
  forallb (fun c => bool_decide (is_Some (hex_digit c))) (list_ascii_of_string s).

(** The decoding in the words of the data model: the last sixteen
    characters (the first sixteen when the string is shorter), split
    into two chunks of eight characters, each read as hexadecimal;
    no pair when a chunk is not a number. *)
Definition last16 (s : string) : string :=
  if (16 <=? String.length s)%nat then drop_chars (String.length s - 16) s
  else take_chars 16 s.

Definition decode_last16 (s : string) : option (Z * Z) :=
  let w := last16 s in
  match parseInt16 (take_chars 8 w), parseInt16 (take_chars 8 (drop_chars 8 w)) with
  | Num a, Num b => Some (a, b)
  | _, _ => None
  end.

(** The window the code reads: the first sixteen characters of what is
    left after dropping eight from an identifier of thirty-two or more. *)
Definition window (s : string) : string :=
  take_chars 16 (if (32 <=? String.length s)%nat then drop_chars 8 s else s).

End TagNumbers.

(** ** JavaScript values and the object store *)

Module JS.

Abbreviation addr := nat (only parsing).

(** Values.  Objects and arrays are references into the store, so that
    identity, sharing and self-reference are those of the program. *)
Inductive value :=
| VUndefined
| VNull
| VBool (b : bool)
| VNumber (n : Z)
| VString (s : string)
| VObject (a : addr)
| VFunction (name : string).

#[global] Instance value_eq_dec : EqDecision value.
Proof. solve_decision. Defined.

(** An object is a plain object or an array; both carry own enumerable
    properties in insertion order.  Inherited members are not modelled:
    the records the resolver reads are decoded JSON. *)
Inductive obj :=
| Obj (props : list (string * value))
| Arr (elems : list value) (props : list (string * value)).

Abbreviation heap := (list obj).

Definition props_of (o : obj) : list (string * value) :=
  match o with Obj ps => ps | Arr _ ps => ps end.

(** The object at an address; a reference outside the store reads as an
    empty object (stores built by a program have no such reference). *)
Definition deref (h : heap) (a : addr) : obj := default (Obj []) (h !! a).

Fixpoint assoc (k : string) (ps : list (string * value)) : option value :=
  match ps with
  | [] => None
  | (k', v) :: ps' => if String.eqb k k' then Some v else assoc k ps'
  end.

(** [o[k] = v] on own properties: overwrite in place or append. *)
Fixpoint assoc_set (k : string) (v : value) (ps : list (string * value))
  : list (string * value) :=
  match ps with
  | [] => [(k, v)]
  | (k', v') :: ps' =>
      if String.eqb k k' then (k, v) :: ps' else (k', v') :: assoc_set k v ps'
  end.

Definition set_prop (k : string) (v : value) (o : obj) : obj :=
  match o with
  | Obj ps => Obj (assoc_set k v ps)
  | Arr es ps => Arr es (assoc_set k v ps)
  end.

Definition truthy (v : value) : bool :=
  match v with
  | VUndefined | VNull => false
  | VBool b => b
  | VNumber n => negb (n =? 0)
  | VString s => negb (String.eqb s EmptyString)
  | VObject _ | VFunction _ => true
  end.

Definition is_digit (c : ascii) : bool :=
  let n := TagNumbers.code c in (48 <=? n) && (n <=? 57).

(** Decimal value of a string of digits. *)
Fixpoint digits_value (acc : N) (s : string) : N :=
  match s with
  | EmptyString => acc
  | String c s' => digits_value (10 * acc + (N_of_ascii c - 48))%N s'
  end.

Fixpoint all_digits (s : string) : bool :=
  match s with
  | EmptyString => true
  | String c s' => is_digit c && all_digits s'
  end.

(** A property key that is an array index: digits in canonical form. *)
Definition array_index (k : string) : option nat :=
  match k with
  | EmptyString => None
  | String c s' =>
      if all_digits k && (negb (TagNumbers.code c =? 48) || String.eqb s' EmptyString)
      then Some (N.to_nat (digits_value 0 k))
      else None
  end.

(** *** [Number::toString]

    The numbers of the model are the integers.  Up to [2^53] every digit
    is printed.  From there on a number prints as the shortest decimal
    that reads back as the same double (the closest one, if there are
    several), followed by zeros when it has at most 21 digits and in
    exponent form otherwise. *)

Fixpoint zeros (n : nat) : string :=
  match n with
  | O => EmptyString
  | S n' => String "0" (zeros n')
  end.

(** The digits of a numeral without its trailing zeros. *)
Fixpoint strip_zeros (s : string) : string :=
  match s with
  | EmptyString => EmptyString
  | String c s' =>
      let t := strip_zeros s' in
      if (TagNumbers.code c =? 48) && String.eqb t EmptyString then EmptyString
      else String c t
  end.

(** [shortest fuel k x] is [(s, p)], where [s * 10^p] is the decimal
    with the least number of digits, at least [k], that rounds to the
    double [x]: the reals that round to [x] lie half a unit in the last
    place around it (a quarter below a power of two), the bounds being
    included when the significand of [x] is even.  All bounds are taken
    four times, to stay in the integers. *)
Fixpoint shortest (fuel : nat) (k : Z) (x : Z) : Z * Z :=
  match fuel with
  | O => (x, 0)
  | S fuel' =>
      let ulp := 2 ^ (Z.log2 x - 52) in
      let low := 4 * x - (if x =? 2 ^ Z.log2 x then ulp else 2 * ulp) in
      let high := 4 * x + 2 * ulp in
      let inside v :=
        if Z.even (x / ulp) then (low <=? 4 * v) && (4 * v <=? high)
        else (low <? 4 * v) && (4 * v <? high) in
      let p := Z.of_nat (String.length (pretty x)) - k in
      let s1 := x / 10 ^ p in
      let s2 := s1 + 1 in
      let v1 := s1 * 10 ^ p in
      let v2 := s2 * 10 ^ p in
      match inside v1, inside v2 with
      | true, true =>
          if (x - v1 <? v2 - x) || ((x - v1 =? v2 - x) && Z.even s1)
          then (s1, p) else (s2, p)
      | true, false => (s1, p)
      | false, true => (s2, p)
      | false, false => shortest fuel' (k + 1) x
      end
  end.

Definition print_magnitude (x : Z) : string :=
  if x <? 2 ^ 53 then pretty x
  else
    let '(s, p) := shortest 17 1 x in
    let digits := strip_zeros (pretty s) in
    let n := (String.length (pretty s) + Z.to_nat p)%nat in
    if (n <=? 21)%nat then (digits ++ zeros (n - String.length digits))%string
    else
      match digits with
      | String d rest =>
          String d ((if String.eqb rest EmptyString then EmptyString
                     else String "." rest)
                    ++ "e+" ++ pretty (Z.of_nat (n - 1)))%string
      | EmptyString => EmptyString
      end.

Definition number_to_string (n : Z) : string :=
  if n <? 0 then String "-" (print_magnitude (- n)) else print_magnitude n.

(** Outcome of an operation that may raise. *)
Inductive result (A : Type) :=
| Ok (x : A)
| Throw.
Arguments Ok {A} x.
Arguments Throw {A}.

(** Property read [v[k]].  Reading a property of [undefined] or [null]
    raises a [TypeError]. *)
Definition get (h : heap) (v : value) (k : string) : result value :=
  match v with
  | VUndefined | VNull => Throw
  | VObject a =>
      match deref h a with
      | Obj ps => Ok (default VUndefined (assoc k ps))
      | Arr es ps =>
          match array_index k with
          | Some i => Ok (default VUndefined (es !! i))
          | None =>
              if String.eqb k "length" then Ok (VNumber (Z.of_nat (length es)))
              else Ok (default VUndefined (assoc k ps))
          end
      end
  | VString s =>
      match array_index k with
      | Some i =>
          Ok (match String.get i s with
              | Some c => VString (String c EmptyString)
              | None => VUndefined
              end)
      | None =>
          if String.eqb k "length" then Ok (VNumber (Z.of_nat (String.length s)))
          else Ok VUndefined
      end
  | VBool _ | VNumber _ | VFunction _ => Ok VUndefined
  end.

(** [s.split(".")] *)
Fixpoint split_dot (cur : string) (s : string) : list string :=
  match s with
  | EmptyString => [cur]
  | String c s' =>
      if (TagNumbers.code c =? 46) then cur :: split_dot EmptyString s'
      else split_dot (cur ++ String c EmptyString) s'
  end.

(** A path argument: a dotted string or an array of segments. *)
Inductive path :=
| PathStr (s : string)
| PathArr (segs : list string).

(** [ToString] on the values the code prints.  How an object or a
    function prints is given by the runtime, [print_opaque]. *)
Definition to_string (print_opaque : heap -> value -> string) (h : heap) (v : value)
  : string :=
  match v with
  | VUndefined => "undefined"
  | VNull => "null"
  | VBool true => "true"
  | VBool false => "false"
  | VNumber n => number_to_string n
  | VString s => s
  | VObject _ | VFunction _ => print_opaque h v
  end.

(** The printing of plain objects, for the examples. *)
Definition print_plain (h : heap) (v : value) : string := "[object Object]".

End JS.

(** ** Path Selector: [recursiveSelect] *)

Module Select.
Import JS.

Definition non_empty (s : string) : bool := negb (String.eqb s EmptyString).

Fixpoint select_segments (h : heap) (selector : list string) (obj : value) : value :=
  match selector with
  | [] => obj
  | k :: rest =>
      match get h obj k with
      | Ok v => select_segments h rest v
      | Throw => VUndefined
      end
  end.

Definition recursiveSelect (h : heap) (selector : path) (obj : value) : value :=
  match selector with
  | PathStr s => select_segments h (filter (fun k => non_empty k = true) (split_dot EmptyString s)) obj
  | PathArr segs => select_segments h segs obj
  end.

End Select.

(** ** Text Mapper: [processTextMapper] *)

Module TextMapper.
Import JS Select.

(** One entry of a text mapper: a literal or a conditional fragment. *)
Inductive rule :=
| Literal (s : string)
| Cond (values : list string) (matchedString notMatchingString : string).

Definition unknownReplacement : string := "<unknown>".

(** State of the scan for [/\{([0-9]+)\}/g]: outside a candidate, or
    after an opening brace and the digits read so far. *)
Inductive scan :=
| Outside
| InBrace (digits : string).

Definition flush (st : scan) : string :=
  match st with
  | Outside => EmptyString
  | InBrace ds => String "{" ds
  end.

Definition is_open (c : ascii) : bool := TagNumbers.code c =? 123.
Definition is_close (c : ascii) : bool := TagNumbers.code c =? 125.

(** [s.replaceAll(/\{([0-9]+)\}/g, (_, digits) => f digits)] *)
Fixpoint replace_placeholders (f : string -> string) (st : scan) (s : string) : string :=
  match s with
  | EmptyString => flush st
  | String c s' =>
      let outside :=
        if is_open c then replace_placeholders f (InBrace EmptyString) s'
        else String c (replace_placeholders f Outside s') in
      match st with
      | Outside => outside
      | InBrace ds =>
          if is_digit c then replace_placeholders f (InBrace (ds ++ String c EmptyString)) s'
          else if is_close c && non_empty ds then (f ds ++ replace_placeholders f Outside s')%string
          else (flush st ++ outside)%string
      end
  end.

(** The replacement callback: [matchedValues[index] || "<unknown>"],
    converted to a string. *)
Definition placeholder (pr : heap -> value -> string) (h : heap)
    (matchedValues : list value) (indexMatch : string) : string :=
  let index := N.to_nat (digits_value 0 indexMatch) in
  let v := default VUndefined (matchedValues !! index) in
  if truthy v then to_string pr h v else unknownReplacement.

Definition render (pr : heap -> value -> string) (h : heap) (target : value)
    (item : rule) : string :=
  match item with
  | Literal s => s
  | Cond values matchedString notMatchingString =>
      let matchedValues :=
        filter (fun t => t <> VUndefined)
               (map (fun vMapper => recursiveSelect h (PathStr vMapper) target) values) in
      if (length matchedValues =? length values)%nat
      then replace_placeholders (placeholder pr h matchedValues) Outside matchedString
      else notMatchingString
  end.

(** [list.join(" ")] *)
Fixpoint join (sep : string) (l : list string) : string :=
  match l with
  | [] => EmptyString
  | [s] => s
  | s :: l' => (s ++ sep ++ join sep l')%string
  end.

Definition processTextMapper (pr : heap -> value -> string) (h : heap)
    (textMapper : option (list rule)) (target : value) : string :=
  join " " (map (render pr h target) (default [] textMapper)).

End TextMapper.

(** ** The lock of [lockMethod] *)

Module Lock.
#[local] Open Scope list_scope.

(** The default [maxPending] of [AsyncLock]: the number of calls that
    may wait for one key. *)
Definition maxPending : nat := 1000.

(** A method under the lock, for one key: the state [inner] that the
    method works on, the calls that wait for the key ([None] when the
    key is free, [Some q] when a call holds it and the calls [q] wait,
    in order of arrival), and the calls rejected so far. *)
Record locked (A S : Type) := Locked {
  waiting : option (list A);
  inner : S;
  rejected : list A;
}.
Arguments Locked {A S}.
Arguments waiting {A S}.
Arguments inner {A S}.
Arguments rejected {A S}.

Section Lock.
Context {A S : Type}.
(** The method that is wrapped.  Its body is synchronous: it runs as a
    whole, at one reading of the clock, and the call that holds the key
    completes within the same turn of the event loop.  The timers of the
    lock (the time a call may wait, the time a call may run) are
    therefore never due before the waiting calls have run. *)
Variable method : Z -> A -> S -> S.

(** A call of the method returned by [lockMethod].  On a free key the
    method runs at once.  When [maxPending] calls wait already, the call
    is rejected and the method never runs for it.  Otherwise the call
    waits for its turn. *)
Definition lockMethod (now : Z) (args : A) (l : locked A S) : locked A S :=
  match waiting l with
  | None => Locked (Some []) (method now args (inner l)) (rejected l)
  | Some q =>
      if (maxPending <=? List.length q)%nat
      then Locked (Some q) (inner l) (rejected l ++ [args])
      else Locked (Some (q ++ [args])) (inner l) (rejected l)
  end.

(** The call that holds the key completes: the method runs for the
    first waiting call, or the key is released. *)
Definition handover (now : Z) (l : locked A S) : locked A S :=
  match waiting l with
  | None => l
  | Some [] => Locked None (inner l) (rejected l)
  | Some (args :: q) => Locked (Some q) (method now args (inner l)) (rejected l)
  end.

End Lock.

End Lock.

(** ** Request Batcher: [createBatcher] *)

Module Batcher.

(** One invocation of the user-supplied bulk callback [cb]: when it was
    made, the snapshot of the queue it received, and the completion
    callbacks that are called once it settles. *)
Record call (T C : Type) := Call {
  at_time : Z;
  props : list T;
  waiters : list C;
}.
Arguments Call {T C}.
Arguments at_time {T C}.
Arguments props {T C}.
Arguments waiters {T C}.

(** The variables of the closure, and the invocations made so far.
    [timeout] is the handle of the last timer created (its due time); it
    is never reset, so it stays truthy once a timer has been created.
    [live] tells whether that timer is still scheduled.  [lastUpdated]
    is [None] for [-Infinity]. *)
Record state (T C : Type) := State {
  timeout : option Z;
  live : bool;
  batched : list T;
  lastUpdated : option Z;
  pendingCallbacks : list C;
  calls : list (call T C);
}.
Arguments State {T C}.
Arguments timeout {T C}.
Arguments live {T C}.
Arguments batched {T C}.
Arguments lastUpdated {T C}.
Arguments pendingCallbacks {T C}.
Arguments calls {T C}.

(** The operations that run on the variables of the closure: the method
    of a call of [set] that holds the lock, [setNow] and
    [clearTimeoutHandler]. *)
Inductive op (T C : Type) :=
| OpSet (item : option T) (cb : option C)
| OpSetNow (item : option T)
| OpClearTimeoutHandler.
Arguments OpSet {T C}.
Arguments OpSetNow {T C}.
Arguments OpClearTimeoutHandler {T C}.

Section Batcher.
Context {T C : Type}.
(** Truthiness of an item: [set] only queues [props] when truthy. *)
Variable truthyT : T -> bool.
Variable periodInMs : Z.

Definition timeoutPeriod : Z := periodInMs + 7.

Definition createBatcher : state T C :=
  State None false [] None [] [].

(** [now - lastUpdated >= k] and [now - lastUpdated > k]. *)
Definition elapsed_ge (now : Z) (last : option Z) (k : Z) : bool :=
  match last with None => true | Some l => k <=? now - l end.

Definition elapsed_gt (now : Z) (last : option Z) (k : Z) : bool :=
  match last with None => true | Some l => k <? now - l end.

(** [callBatcher(batched.splice(0), pendingCallbacks.splice(0))] *)
Definition callBatcher (now : Z) (s : state T C) : state T C :=
  State (timeout s) (live s) [] (Some now) []
        (calls s ++ [Call now (batched s) (pendingCallbacks s)]).

Definition push_item (item : option T) (q : list T) : list T :=
  match item with
  | Some x => if truthyT x then q ++ [x] else q
  | None => q
  end.

Definition push_cb (cb : option C) (q : list C) : list C :=
  match cb with Some c => q ++ [c] | None => q end.

(** The flush decision of [set]. *)
Definition flush_now (now : Z) (s : state T C) : bool :=
  (bool_decide (is_Some (timeout s)) && elapsed_ge now (lastUpdated s) timeoutPeriod)
  || elapsed_gt now (lastUpdated s) (timeoutPeriod * 10).

(** The method that [lockMethod] wraps into [set]. *)
Definition set_method (now : Z) (item : option T) (cb : option C) (s : state T C)
  : state T C :=
  let s1 := State (timeout s) (live s) (push_item item (batched s))
                  (lastUpdated s) (push_cb cb (pendingCallbacks s)) (calls s) in
  if flush_now now s1 then callBatcher now s1
  else State (Some (now + timeoutPeriod)) true (batched s1) (lastUpdated s1)
             (pendingCallbacks s1) (calls s1).

(** [setNow]: the bulk callback runs at once on the queue; neither
    [lastUpdated] nor the completion callbacks are touched. *)
Definition setNow (now : Z) (item : option T) (s : state T C) : state T C :=
  State (timeout s) (live s) [] (lastUpdated s) (pendingCallbacks s)
        (calls s ++ [Call now (push_item item (batched s)) []]).

Definition clearTimeoutHandler (s : state T C) : state T C :=
  State (timeout s) false (batched s) (lastUpdated s) (pendingCallbacks s) (calls s).

(** Expiry of the scheduled timer. *)
Definition fire (s : state T C) : state T C :=
  match timeout s with
  | Some due =>
      if live s
      then callBatcher due
             (State (timeout s) false (batched s) (lastUpdated s)
                    (pendingCallbacks s) (calls s))
      else s
  | None => s
  end.

(** Let time pass up to [now]: a timer that is due expires first. *)
Definition advance (now : Z) (s : state T C) : state T C :=
  match timeout s with
  | Some due => if live s && (due <=? now) then fire s else s
  | None => s
  end.

Definition step (now : Z) (o : op T C) (s : state T C) : state T C :=
  let s := advance now s in
  match o with
  | OpSet item cb => set_method now item cb s
  | OpSetNow item => setNow now item s
  | OpClearTimeoutHandler => clearTimeoutHandler s
  end.

(** A schedule: operations with the time at which each runs. *)
Fixpoint run (sched : list (Z * op T C)) (s : state T C) : state T C :=
  match sched with
  | [] => s
  | (now, o) :: rest => run rest (step now o s)
  end.

(** No further operation arrives: a scheduled timer expires. *)
Definition settle (s : state T C) : state T C := fire s.

(** *** The batcher with the lock of [set]

    The key of the lock is the [id] of the batcher; the batcher is taken
    to be the only user of its key. *)

Definition locked_batcher : Type := Lock.locked (option T * option C) (state T C).

Definition locked_method (now : Z) (args : option T * option C) (s : state T C)
  : state T C :=
  set_method now args.1 args.2 s.

(** [set]: the method under the lock of key [id]. *)
Definition set (now : Z) (item : option T) (cb : option C) (b : locked_batcher)
  : locked_batcher :=
  Lock.lockMethod locked_method now (item, cb) b.

Definition on_inner (f : state T C -> state T C) (b : locked_batcher) : locked_batcher :=
  Lock.Locked (Lock.waiting b) (f (Lock.inner b)) (Lock.rejected b).

(** What happens to a batcher: one of its members is called, or the
    call of [set] that holds the lock completes. *)
Inductive event :=
| Invoke (o : op T C)
| Complete.

(** Timers expire between the turns of the event loop, when no call
    holds the lock. *)
Definition locked_step (now : Z) (e : event) (b : locked_batcher) : locked_batcher :=
  match e with
  | Invoke o =>
      let b :=
        match Lock.waiting b with
        | None => on_inner (advance now) b
        | Some _ => b
        end in
      match o with
      | OpSet item cb => set now item cb b
      | OpSetNow item => on_inner (setNow now item) b
      | OpClearTimeoutHandler => on_inner clearTimeoutHandler b
      end
  | Complete => Lock.handover locked_method now b
  end.

Fixpoint locked_run (sched : list (Z * event)) (b : locked_batcher) : locked_batcher :=
  match sched with
  | [] => b
  | (now, e) :: rest => locked_run rest (locked_step now e b)
  end.

(** A new batcher: nothing queued, the lock free. *)
Definition new_batcher : locked_batcher := Lock.Locked None createBatcher [].

(** One turn of the event loop in which [set] is called once per item of
    [calls], followed by the completion of these calls (a completion on
    a free lock does nothing). *)
Definition turn (now : Z) (calls : list (T * option C)) : list (Z * event) :=
  map (fun c => (now, Invoke (OpSet (Some c.1) c.2))) calls
  ++ replicate (List.length calls) (now, Complete).

Definition turns (groups : list (Z * list (T * option C))) : list (Z * event) :=
  flat_map (fun g => turn g.1 g.2) groups.

End Batcher.

End Batcher.

(** ** Cyclic-safe recursive lookup: [__recursiveLookup], [recursiveLookup] *)

Module Lookup.
Import JS.
#[local] Open Scope list_scope.

(** The value looked for is a string or a number. *)
Inductive key :=
| KNum (n : Z)
| KStr (s : string).

(** The property key that a looked-for value denotes in [target[value]]. *)
Definition key_to_property (k : key) : string :=
  match k with
  | KNum n => number_to_string n
  | KStr s => s
  end.

(** [{ depth, result }] *)
Record found := Found { depth : nat; result : value }.

(** A call returns normally or raises; both leave a store behind. *)
Inductive outcome (A : Type) :=
| Done (h : heap) (x : A)
| Raised (h : heap).
Arguments Done {A} h x.
Arguments Raised {A} h.

(** The object made by [{ ...obj }], respectively [[...obj]]: the own
    properties of an object, the elements of an array. *)
Definition copy_of (o : obj) : obj :=
match o with
| Arr es _ => Arr es []
| Obj ps => Obj ps
end.

(** [surfaceClone]: a fresh shallow copy of an object or an array; any
    other value is returned as it is. *)
Definition surfaceClone (h : heap) (v : value) : heap * value :=
match v with
| VObject a => (h ++ [copy_of (deref h a)], VObject (length h))
| _ => (h, v)
end.

(** [v[k] = x] in strict mode: a [TypeError] ([None]) on a primitive.
    Function objects are not kept in the store. *)
Definition assign (h : heap) (v : value) (k : string) (x : value) : option heap :=
  match v with
  | VObject a => Some (alter (set_prop k x) a h)
  | VFunction _ => Some h
  | _ => None
  end.

(** [v?.__parent__] *)
Definition parent_of (h : heap) (v : value) : value :=
  match v with
  | VUndefined | VNull => VUndefined
  | _ => match get h v "__parent__" with Ok x => x | Throw => VUndefined end
  end.

(** [lastParent = lastParent?.__parent__], [n] times. *)
Fixpoint follow_parent (h : heap) (n : nat) (v : value) : value :=
  match n with
  | O => v
  | S n' => follow_parent h n' (parent_of h v)
  end.

(** [setParent] of the frame at level [root] with target [target]. *)
Definition setParent (h : heap) (root : nat) (target : value) (m : found)
  : option heap :=
  if negb (truthy (result m)) then Some h
  else
    let lastParent := follow_parent h (depth m - root - 2) (result m) in
    if truthy lastParent && negb (bool_decide (lastParent = target)) then
      let '(h1, c) := surfaceClone h target in
      assign h1 lastParent "__parent__" c
    else Some h.

(** The loop over the elements of an array: the first element on which
    [visit] finds a match ends it. *)
Fixpoint first_match (visit : heap -> value -> option (outcome found))
    (items : list value) (h : heap) : option (outcome (option found)) :=
  match items with
  | [] => Some (Done h None)
  | item :: rest =>
      match visit h item with
      | None => None
      | Some (Raised h') => Some (Raised h')
      | Some (Done h' m) =>
          if truthy (result m) then Some (Done h' (Some m))
          else first_match visit rest h'
      end
  end.

Section Lookup.
(** [ToNumber] on strings, used by [==] between a string and a number;
    [None] when the string is not an integer numeral. *)
Variable string_to_number : string -> option Z.

(** [target == lookingForValue] for a string or number [target]. *)
Definition loose_eq (target : value) (k : key) : bool :=
  match target, k with
  | VNumber a, KNum b => a =? b
  | VString a, KStr b => String.eqb a b
  | VNumber a, KStr b => bool_decide (string_to_number b = Some a)
  | VString a, KNum b => bool_decide (string_to_number a = Some b)
  | _, _ => false
  end.

Definition is_string_or_number (v : value) : bool :=
  match v with VNumber _ | VString _ => true | _ => false end.

(** [__recursiveLookup], with the pattern already split.  [fuel] bounds
    the depth of the recursion; [None] is returned when it runs out. *)
Fixpoint lookup (fuel : nat) (h : heap) (lookupMap : list string)
    (lookingForValue : key) (target parent : value) (root : nat)
    (seen : list value) : option (outcome found) :=
  match fuel with
  | O => None
  | S fuel =>
      if bool_decide (target ∈ seen) then Some (Done h (Found root VNull))
      else
        let seen := seen ++ [target] in
        match target with
        | VUndefined | VNull => Some (Done h (Found root VNull))
        | VObject a =>
            match deref h a with
            | Arr elems _ =>
                if negb (bool_decide (head lookupMap = Some "[]"))
                then Some (Done h (Found root VNull))
                else
                  match first_match
                          (fun h item =>
                             lookup fuel h (tail lookupMap) lookingForValue item
                                    target (S root) seen)
                          elems h with
                  | None => None
                  | Some (Raised h') => Some (Raised h')
                  | Some (Done h' None) => Some (Done h' (Found root VNull))
                  | Some (Done h' (Some m)) =>
                      match setParent h' root target m with
                      | Some h'' => Some (Done h'' m)
                      | None => Some (Raised h')
                      end
                  end
            | Obj _ =>
                let k :=
                  match head lookupMap with
                  | Some seg =>
                      if String.eqb seg "[value]" then key_to_property lookingForValue
                      else seg
                  | None => "undefined"
                  end in
                let child :=
                  match get h target k with Ok v => v | Throw => VUndefined end in
                match lookup fuel h (tail lookupMap) lookingForValue child
                             target (S root) seen with
                | None => None
                | Some (Raised h') => Some (Raised h')
                | Some (Done h' m) =>
                    match setParent h' root target m with
                    | Some h'' => Some (Done h'' m)
                    | None => Some (Raised h')
                    end
                end
            end
        | VBool _ | VNumber _ | VString _ | VFunction _ =>
            match lookupMap with
            | [] =>
                if is_string_or_number target && loose_eq target lookingForValue
                then
                  let '(h1, res) :=
                    surfaceClone h (if truthy parent then parent else target) in
                  match assign h1 res "toJson" (VFunction "toJson") with
                  | Some h2 => Some (Done h2 (Found root res))
                  | None => Some (Raised h1)
                  end
                else Some (Done h (Found root VNull))
            | _ :: _ => Some (Done h (Found root VNull))
            end
        end
  end.

(** A string pattern is split at the dots, without dropping empty
    segments. *)
Definition segments (lookupMap : path) : list string :=
  match lookupMap with
  | PathStr s => split_dot EmptyString s
  | PathArr segs => segs
  end.

(** Fuel that always suffices: the depth of the recursion is at most the
    length of the pattern plus the number of objects in the store. *)
Definition enough_fuel (h : heap) (lookupMap : list string) : nat :=
  length lookupMap + length h + 2.

(** [recursiveLookup]: an exception is caught and turned into a miss. *)
Definition recursiveLookup (h : heap) (lookupMap : path) (lookingForValue : key)
    (target : value) : heap * found :=
  let segs := segments lookupMap in
  match lookup (enough_fuel h segs) h segs lookingForValue target VUndefined 0 [] with
  | Some (Done h' m) => (h', m)
  | Some (Raised h') => (h', Found 0 VNull)
  | None => (h, Found 0 VNull)
  end.

End Lookup.

(** Conversion of decimal integer numerals, for the examples. *)
Definition decimal_to_number (s : string) : option Z :=
  match s with
  | EmptyString => Some 0
  | String c s' =>
      if (TagNumbers.code c =? 45) && all_digits s' && negb (String.eqb s' EmptyString)
      then Some (- Z.of_N (digits_value 0 s'))
      else if all_digits s then Some (Z.of_N (digits_value 0 s))
      else None
  end.

End Lookup.

(** ** Deferred Content Resolver: [processDeferredBatched] *)

Module Deferred.
Import JS Select Lookup TextMapper.
#[local] Open Scope list_scope.

(** A reading of type ["batched"]. *)
Record reading := Reading {
  fetchUrlPath : string;
  bodyKeyForValuesList : string;
  fetchMapper : option string;
  batchUniqueMatchMapper : option string;
  valueMapper : option string;
  textMapper : option (list rule);
}.

(** [mapper || []] *)
Definition mapper_or_empty (mapper : option string) : path :=
  match mapper with
  | Some s => if String.eqb s EmptyString then PathArr [] else PathStr s
  | None => PathArr []
  end.

(** One entry of [cachedBatchedItems]: the address of the [cache] array
    and the [processedValues] list, with the store they live in. *)
Record state := State {
  store : heap;
  cache : addr;
  processedValues : list Z;
}.

(** The entry made on the first request for an endpoint. *)
Definition new_entry (h : heap) : state :=
  State (h ++ [Arr [] []]) (length h) [].

Definition elems_of (o : obj) : list value :=
  match o with Arr es _ => es | Obj _ => [] end.

(** [!list.find(p)]: nothing satisfies [p], or the element found is
    falsy. *)
Definition not_found_number (p : Z -> bool) (l : list Z) : bool :=
  match List.find p l with
  | Some x => x =? 0
  | None => true
  end.

Definition not_found_value (p : value -> bool) (l : list value) : bool :=
  match List.find p l with
  | Some x => negb (truthy x)
  | None => true
  end.

(** [if (props)] on a number: what the batcher of an endpoint queues. *)
Definition truthy_number (v : Z) : bool := truthy (VNumber v).

(** The loop that builds [filteredValues]. *)
Fixpoint filter_values (processed filtered values : list Z) : list Z :=
  match values with
  | [] => filtered
  | v :: rest =>
      if not_found_number (fun cv => cv =? v) processed
         && not_found_number (fun fv => fv =? v) filtered
      then filter_values processed (filtered ++ [v]) rest
      else filter_values processed filtered rest
  end.

(** [cache.push(item)] *)
Definition push (c : addr) (item : value) (h : heap) : heap :=
  alter (fun o => match o with
                  | Arr es ps => Arr (es ++ [item]) ps
                  | Obj ps => Obj ps
                  end) c h.

Definition is_array (h : heap) (v : value) : bool :=
  match v with
  | VObject a => match deref h a with Arr _ _ => true | Obj _ => false end
  | _ => false
  end.

Section Deferred.
(** [==] on two selected keys, as the language defines it. *)
Variable loosely_equal : value -> value -> bool.
Variable string_to_number : string -> option Z.
Variable print_opaque : heap -> value -> string.
(** The request client: [post url bodyKey values] decodes the response
    into the store and returns its [data], or fails. *)
Variable post : string -> string -> list Z -> heap -> option (heap * value).

(** The merge of the records of a response into the cache. *)
Fixpoint merge_into_cache (uniqueMapper : path) (c : addr) (items : list value)
    (h : heap) : heap :=
  match items with
  | [] => h
  | item :: rest =>
      let notFoundCachedItem :=
        not_found_value
          (fun ci => loosely_equal (recursiveSelect h uniqueMapper item)
                                   (recursiveSelect h uniqueMapper ci))
          (elems_of (deref h c)) in
      merge_into_cache uniqueMapper c rest
        (if notFoundCachedItem then push c item h else h)
  end.

(** The bulk callback given to [createBatcher]; [None] when the
    remote call fails. *)
Definition bulk (r : reading) (values : option (list Z)) (s : state) : option state :=
  match values with
  | None => Some s
  | Some values =>
      let filteredValues := filter_values (processedValues s) [] values in
      match filteredValues with
      | [] => Some s
      | _ :: _ =>
          match post (fetchUrlPath r) (bodyKeyForValuesList r) filteredValues
                     (store s) with
          | None => None
          | Some (h1, data) =>
              let result := recursiveSelect h1 (mapper_or_empty (fetchMapper r)) data in
              if truthy result && is_array h1 result then
                match result with
                | VObject a =>
                    Some (State
                            (merge_into_cache
                               (mapper_or_empty (batchUniqueMatchMapper r))
                               (cache s) (elems_of (deref h1 a)) h1)
                            (cache s) (processedValues s))
                | _ => Some (State h1 (cache s) (processedValues s))
                end
              else Some (State h1 (cache s) (processedValues s))
          end
      end
  end.

(** What a request for [contentValue] does before any waiting. *)
Inductive answer :=
| Hit (text : string) (value : JS.value)
| Enqueue
| ConfirmedMiss.

Definition lookForValueInCache (r : reading) (contentValue : Z) (s : state)
  : state * option (string * value) :=
  let '(h', m) :=
    recursiveLookup string_to_number (store s) (mapper_or_empty (valueMapper r))
      (KNum contentValue) (VObject (cache s)) in
  let s' := State h' (cache s) (processedValues s) in
  if truthy (result m)
  then (s', Some (processTextMapper print_opaque h' (textMapper r) (result m), result m))
  else (s', None).

Definition processDeferredBatched (r : reading) (contentValue : Z) (s : state)
  : state * answer :=
  match lookForValueInCache r contentValue s with
  | (s', Some (text, value)) => (s', Hit text value)
  | (s', None) =>
      if not_found_number (fun v => v =? contentValue) (processedValues s')
      then (s', Enqueue)
      else (s', ConfirmedMiss)
  end.

End Deferred.

(** [==] on undefined, null, numbers, strings and references to the
    same object, for the examples. *)
Definition simple_equal (a b : value) : bool :=
  match a, b with
  | (VUndefined | VNull), (VUndefined | VNull) => true
  | VNumber x, VNumber y => x =? y
  | VString x, VString y => String.eqb x y
  | VObject x, VObject y => (x =? y)%nat
  | _, _ => false
  end.

End Deferred.

(** ** Content-Type Dispatch Engine: [findTagInfo] *)

Module Dispatch.
Import JS Select Lookup TextMapper.
#[local] Open Scope list_scope.

(** *** Content-type definitions *)

Record base := Base {
  contentTypeId : Z;
  display : string;
  name : string;
}.

Record enumValue := EnumValue { enum_text : string; enum_value : Z }.

Inductive deferredReading :=
| Batched (r : Deferred.reading)
| Single (urlPath bodyKey : string) (valueMapper : option string)
         (textMapper : option (list rule)).

Inductive contentType :=
| Fixed (b : base) (value : Z) (textFormatter : string)
| Manual (b : base) (textFormatter : string)
| Enum (b : base) (values : list enumValue)
| DeferredType (b : base) (reading : deferredReading)
| FetchedList (b : base) (textMapper : option (list rule))
              (valueMapper : option string) (data : value)
| Legacy (content_type_id : Z) (name display : string).

Definition is_legacy (ct : contentType) : bool :=
  match ct with Legacy _ _ _ => true | _ => false end.

(** The predicate given to [tagContentTypes.find]. *)
Definition matches (id : Z) (ct : contentType) : bool :=
  match ct with
  | Legacy content_type_id _ _ => content_type_id =? id
  | Fixed b _ _ | Manual b _ | Enum b _ | DeferredType b _ | FetchedList b _ _ _ =>
      contentTypeId b =? id
  end.

(** *** Result records *)

Inductive payload :=
| IsDeferred (fetch : bool)
| IsEnum (value : enumValue)
| IsFetchedList (value : JS.value) (display : string)
| IsFixed
| IsManual.

Record tagInfo := TagInfo {
  text : string;
  info_contentTypeId : Z;
  info_contentValue : Z;
  info_contentType : contentType;
  info_payload : payload;
}.

(** A result with its optional [fetchExtraInfo] member. *)
Record tagInfoWithExtraFetcher := WithExtra {
  info : tagInfo;
  fetchExtraInfo : bool;
}.

(** *** The memo maps and the batchers of the module *)

Inductive extrasEntry :=
| ExtrasFound (value : JS.value)
| ExtrasNotFound.

Inductive virtualEntry :=
| VirtualFound (contentId contentValue : Z)
| VirtualNotFound.

Record globals := Globals {
  store : heap;
  extrasLookupBatcher : bool;
  virtualLookupBatcher : bool;
  extrasProcessedTags : gmap string extrasEntry;
  virtuallyProcessedTags : gmap string virtualEntry;
}.

Definition with_store (h : heap) (g : globals) : globals :=
  Globals h (extrasLookupBatcher g) (virtualLookupBatcher g)
          (extrasProcessedTags g) (virtuallyProcessedTags g).

Definition with_extras (m : gmap string extrasEntry) (g : globals) : globals :=
  Globals (store g) (extrasLookupBatcher g) (virtualLookupBatcher g)
          m (virtuallyProcessedTags g).

(** [FindTagProps]; [apiClient] tells whether a client was given. *)
Record findTagProps := Props {
  tagEpc : string;
  extrasFetchUrl : option string;
  extrasBodyKey : option string;
  extrasEpcKey : option string;
  extrasFetchMapper : option string;
  virtualEpcsFetchUrl : option string;
  virtualEpcsBodyKey : option string;
  tagContentTypes : list contentType;
  apiClient : bool;
}.

Definition given (o : option string) : bool :=
  match o with
  | Some s => negb (String.eqb s EmptyString)
  | None => false
  end.

(** *** The variants *)

Fixpoint starts_with (pat s : string) : bool :=
  match pat, s with
  | EmptyString, _ => true
  | String p pat', String c s' => Ascii.eqb p c && starts_with pat' s'
  | String _ _, EmptyString => false
  end.

(** [GetSubstitution] for a string pattern.  The match [matched] has no
    captures, so that of the patterns of a replacement only [$$], [$&],
    [$`] and [$'] are expanded; [before] and [after] are the parts of
    the receiver around the match. *)
Fixpoint get_substitution (matched before after rep : string) : string :=
  match rep with
  | EmptyString => EmptyString
  | String c rep' =>
      if TagNumbers.code c =? 36 then
        match rep' with
        | String d rep'' =>
            if TagNumbers.code d =? 36
            then String c (get_substitution matched before after rep'')
            else if TagNumbers.code d =? 38
            then (matched ++ get_substitution matched before after rep'')%string
            else if TagNumbers.code d =? 96
            then (before ++ get_substitution matched before after rep'')%string
            else if TagNumbers.code d =? 39
            then (after ++ get_substitution matched before after rep'')%string
            else String c (get_substitution matched before after rep')
        | EmptyString => String c EmptyString
        end
      else String c (get_substitution matched before after rep')
  end.

(** [s.replaceAll(pat, rep)] for a non-empty literal [pat].  [skip]
    counts the characters of a match still to drop, and [before] holds
    the characters of the receiver already passed. *)
Fixpoint replace_all (pat rep : string) (skip : nat) (before s : string) : string :=
  match s with
  | EmptyString => EmptyString
  | String c s' =>
      let passed := (before ++ String c EmptyString)%string in
      match skip with
      | S k => replace_all pat rep k passed s'
      | O =>
          if starts_with pat s
          then (get_substitution pat before
                  (TagNumbers.drop_chars (String.length pat) s) rep
                ++ replace_all pat rep (String.length pat - 1) passed s')%string
          else String c (replace_all pat rep 0 passed s')
      end
  end.

Definition format_text (textFormatter epc : string) (id value : Z) : string :=
  replace_all "[TagContentValue]" (number_to_string value) 0 EmptyString
    (replace_all "[TagContentTypeId]" (number_to_string id) 0 EmptyString
       (replace_all "[TagEpc]" epc 0 EmptyString textFormatter)).

Definition getFixedTagInfo (epc : string) (ct : contentType) (textFormatter : string)
    (id value : Z) : tagInfo :=
  TagInfo (format_text textFormatter epc id value) id value ct IsFixed.

Definition getManualTagInfo (epc : string) (ct : contentType) (textFormatter : string)
    (id value : Z) : tagInfo :=
  TagInfo (format_text textFormatter epc id value) id value ct IsManual.

Definition getEnumTagInfo (ct : contentType) (values : list enumValue) (id value : Z)
  : option tagInfo :=
  match List.find (fun ev => enum_value ev =? value) values with
  | Some foundValue => Some (TagInfo (enum_text foundValue) id value ct (IsEnum foundValue))
  | None => None
  end.

Definition getDeferredTagInfo (client : bool) (ct : contentType) (b : base)
    (id value : Z) : tagInfo :=
  TagInfo ("the tag of type " ++ display b ++ ", with value "
             ++ number_to_string value ++ " stored on tag")%string
          id value ct (IsDeferred client).

Section Dispatch.
Variable string_to_number : string -> option Z.
Variable print_opaque : heap -> value -> string.

Definition getFetchedListTagInfo (h : heap) (ct : contentType) (b : base)
    (textMapper : option (list rule)) (valueMapper : option string) (data : value)
    (id value : Z) : heap * option tagInfo :=
  let '(h', m) :=
    recursiveLookup string_to_number h (Deferred.mapper_or_empty valueMapper)
      (KNum value) data in
  if truthy (result m) then
    let t := processTextMapper print_opaque h' textMapper (result m) in
    (h', Some (TagInfo (if String.eqb t EmptyString then "unknown" else t)
                       id value ct (IsFetchedList (result m) (display b))))
  else (h', None).

Definition getTagInfoFromValuesWithoutExtraFetcher (p : findTagProps)
    (contentId contentValue : Z) (g : globals) : globals * option tagInfo :=
  match List.find (matches contentId) (tagContentTypes p) with
  | None => (g, None)
  | Some ct =>
      match ct with
      | DeferredType b _ =>
          (g, Some (getDeferredTagInfo (apiClient p) ct b contentId contentValue))
      | Enum b values => (g, getEnumTagInfo ct values contentId contentValue)
      | FetchedList b textMapper valueMapper data =>
          let '(h', r) :=
            getFetchedListTagInfo (store g) ct b textMapper valueMapper data
              contentId contentValue in
          (with_store h' g, r)
      | Fixed b _ textFormatter =>
          (g, Some (getFixedTagInfo (tagEpc p) ct textFormatter contentId contentValue))
      | Manual b textFormatter =>
          (g, Some (getManualTagInfo (tagEpc p) ct textFormatter contentId contentValue))
      | Legacy _ _ _ => (g, None)
      end
  end.

Definition getTagInfoFromValues (p : findTagProps) (contentId contentValue : Z)
    (g : globals) : globals * option tagInfoWithExtraFetcher :=
  match getTagInfoFromValuesWithoutExtraFetcher p contentId contentValue g with
  | (g', None) => (g', None)
  | (g', Some result) =>
      (g', Some (WithExtra result (apiClient p && extrasLookupBatcher g')))
  end.

(** *** [findTagInfo] *)

Inductive found :=
| Null
| Info (i : tagInfoWithExtraFetcher)
| MaybeVirtual.

Definition of_option (r : option tagInfoWithExtraFetcher) : found :=
  match r with Some i => Info i | None => Null end.

Definition maybeVirtual (p : findTagProps) (g : globals) : globals * found :=
  if apiClient p && given (virtualEpcsBodyKey p) && given (virtualEpcsFetchUrl p) then
    let g := Globals (store g) (extrasLookupBatcher g) true
                     (extrasProcessedTags g) (virtuallyProcessedTags g) in
    match virtuallyProcessedTags g !! tagEpc p with
    | None => (g, MaybeVirtual)
    | Some VirtualNotFound => (g, Null)
    | Some (VirtualFound contentId contentValue) =>
        let '(g', r) := getTagInfoFromValues p contentId contentValue g in
        (g', of_option r)
    end
  else (g, Null).

(** The extras batcher is created on the first call that carries the
    whole extras configuration. *)
Definition ensure_extras_batcher (p : findTagProps) (g : globals) : globals :=
  if apiClient p && given (extrasFetchUrl p) && given (extrasBodyKey p)
     && given (extrasFetchMapper p) && given (extrasEpcKey p)
     && negb (extrasLookupBatcher g)
  then Globals (store g) true (virtualLookupBatcher g)
               (extrasProcessedTags g) (virtuallyProcessedTags g)
  else g.

Definition findTagInfo (p : findTagProps) (g : globals) : globals * found :=
  if String.eqb (tagEpc p) EmptyString then (g, Null)
  else
    let numbers := TagNumbers.getTagNumbers (tagEpc p) in
    let g := ensure_extras_batcher p g in
    match numbers with
    | Some (contentTypeId, contentValue) =>
        match List.find (matches contentTypeId) (tagContentTypes p) with
        | Some _ =>
            match getTagInfoFromValues p contentTypeId contentValue g with
            | (g', None) => maybeVirtual p g'
            | (g', Some result) => (g', Info result)
            end
        | None => maybeVirtual p g
        end
    | None => (g, Null)
    end.

End Dispatch.

End Dispatch.

(** ** The asynchronous members: [fetchExtraInfo] and [fetch] *)

Module Fetchers.
Import JS Select Dispatch.
#[local] Open Scope list_scope.

(** What is thrown, or what a promise is rejected with: an [Error]
    object or any value. *)
Inductive thrown :=
| ErrorObject (message : string)
| Value (v : value).

Definition truthy_thrown (e : thrown) : bool :=
  match e with
  | ErrorObject _ => true
  | Value v => truthy v
  end.

(** The state in which a promise ends. *)
Inductive settled (A : Type) :=
| Resolved (x : A)
| Rejected (e : thrown)
| Pending.
Arguments Resolved {A} x.
Arguments Rejected {A} e.
Arguments Pending {A}.

(** What [batcher.set(item, cb)] leads to for the caller: the flush that
    takes the item runs, leaves the module state [g] and calls [cb]
    with the error the bulk callback threw, if any ([callBatcher] and
    [callPendingCallbacks]); or the lock is not acquired in time and
    [set] rejects without having registered [cb]. *)
Inductive completion :=
| Completed (error : option thrown) (g : globals)
| LockTimeout.

(** [if (error)] in a completion callback. *)
Definition is_error (error : option thrown) : bool :=
  match error with
  | Some e => truthy_thrown e
  | None => false
  end.

(** Outcome of a remote call. *)
Inductive response :=
| ApiOk (h : heap) (data : value)
| ApiFail (e : thrown).

(** *** The bulk callback of the extras batcher *)

Definition not_found_string (p : string -> bool) (l : list string) : bool :=
  match List.find p l with
  | Some x => String.eqb x EmptyString
  | None => true
  end.

Fixpoint filter_epcs (memo : gmap string extrasEntry) (filtered epcs : list string)
  : list string :=
  match epcs with
  | [] => filtered
  | epc :: rest =>
      if bool_decide (memo !! epc = None)
         && not_found_string (fun e => String.eqb epc e) filtered
      then filter_epcs memo (filtered ++ [epc]) rest
      else filter_epcs memo filtered rest
  end.

(** Own enumerable properties copied by [{...record}]. *)
Definition spread (h : heap) (record : value) : list (string * value) :=
  match record with
  | VObject a =>
      match deref h a with
      | Obj ps => ps
      | Arr es ps => imap (fun i v => (pretty i, v)) es ++ ps
      end
  | VString s =>
      imap (fun i c => (pretty i, VString (String c EmptyString)))
           (list_ascii_of_string s)
  | _ => []
  end.

Section Fetchers.
Variable string_to_number : string -> option Z.
Variable print_opaque : heap -> value -> string.
(** [apiClient.post(url, { [bodyKey]: epcs }, options)] *)
Variable post : string -> string -> list string -> heap -> response.

(** The callback of [reduce]: [map[record[key]] = {...record, epc}]. *)
Fixpoint collect (extrasEpcKey : string) (records : list value) (h : heap)
    (tagsExtras : list (string * value))
  : option (heap * list (string * value)) :=
  match records with
  | [] => Some (h, tagsExtras)
  | record :: rest =>
      match get h record extrasEpcKey with
      | Throw => None
      | Ok k =>
          let copy := Obj (assoc_set "epc" k (spread h record)) in
          collect extrasEpcKey rest (h ++ [copy])
            (assoc_set (to_string print_opaque h k) (VObject (length h)) tagsExtras)
      end
  end.

Definition mark_not_found (tagsExtras : list (string * value)) (epcs : list string)
    (memo : gmap string extrasEntry) : gmap string extrasEntry :=
  foldl (fun m epc =>
           if truthy (default VUndefined (assoc epc tagsExtras)) then m
           else <[epc := ExtrasNotFound]> m) memo epcs.

Definition mark_found (tagsExtras : list (string * value))
    (memo : gmap string extrasEntry) : gmap string extrasEntry :=
  foldl (fun m kv => <[kv.1 := ExtrasFound kv.2]> m) memo tagsExtras.

(** The bulk callback; the second component is what it throws. *)
Definition extras_bulk (p : findTagProps) (epcs : list string) (g : globals)
  : globals * option thrown :=
  match epcs with
  | [] => (g, None)
  | _ :: _ =>
      let filteredEpcs := filter_epcs (extrasProcessedTags g) [] epcs in
      match post (default EmptyString (extrasFetchUrl p))
                 (default EmptyString (extrasBodyKey p)) filteredEpcs (store g) with
      | ApiFail e => (g, Some e)
      | ApiOk h1 data =>
          let g1 := with_store h1 g in
          match recursiveSelect h1 (PathStr (default EmptyString (extrasFetchMapper p)))
                                data with
          | VObject a =>
              match deref h1 a with
              | Arr records _ =>
                  match collect (default EmptyString (extrasEpcKey p)) records h1 [] with
                  | None => (g1, Some (ErrorObject "TypeError"))
                  | Some (h2, tagsExtras) =>
                      (with_extras
                         (mark_found tagsExtras
                            (mark_not_found tagsExtras filteredEpcs
                               (extrasProcessedTags g)))
                         (with_store h2 g), None)
                  end
              | Obj _ => (g1, Some (ErrorObject "TypeError"))
              end
          | _ => (g1, Some (ErrorObject "TypeError"))
          end
      end
  end.

(** [set] on the extras batcher, when the flush that takes the item
    runs on the snapshot [batch]. *)
Definition extras_flush (p : findTagProps) (batch : list string) (g : globals)
  : completion :=
  let '(g', error) := extras_bulk p batch g in Completed error g'.

(** *** [fetchExtraInfo] *)

Definition read_extras (p : findTagProps) (g : globals) : option value :=
  match extrasProcessedTags g !! tagEpc p with
  | Some (ExtrasFound v) => Some v
  | Some ExtrasNotFound | None => None
  end.

Definition fetchExtraInfo (set : globals -> completion) (p : findTagProps)
    (g : globals) : globals * settled (option value) :=
  match extrasProcessedTags g !! tagEpc p with
  | Some _ => (g, Resolved (read_extras p g))
  | None =>
      match set g with
      | LockTimeout => (g, Pending)
      | Completed error g' =>
          match error with
          | Some e =>
              if truthy_thrown e then (g', Rejected e)
              else (g', Resolved (read_extras p g'))
          | None => (g', Resolved (read_extras p g'))
          end
      end
  end.

(** *** [fetch] of a [maybeVirtual] result *)

Definition ceiling : Z := 5.

(** The answer read from the memo of virtual tags, if it is populated
    for the identifier. *)
Definition answer_from_memo (p : findTagProps) (g : globals)
  : option (globals * settled (option tagInfoWithExtraFetcher)) :=
  match virtuallyProcessedTags g !! tagEpc p with
  | Some VirtualNotFound => Some (g, Resolved None)
  | Some (VirtualFound contentId contentValue) =>
      let '(g', r) :=
        getTagInfoFromValues string_to_number print_opaque p contentId contentValue g in
      Some (g', Resolved r)
  | None => None
  end.

(** [set n g] is what the [n]-th call of [set] on the virtual batcher
    leads to.  [fuel] bounds the retries; the last component counts
    the calls of [set] made. *)
Fixpoint fetch_from (fuel : nat) (set : nat -> globals -> completion)
    (p : findTagProps) (attemptCount : Z) (g : globals) (calls : nat)
  : option (globals * settled (option tagInfoWithExtraFetcher) * nat) :=
  match fuel with
  | O => None
  | S fuel =>
      if ceiling <=? attemptCount
      then Some (g, Rejected (ErrorObject ("failed to fetch tag info " ++ tagEpc p)), calls)
      else
        match answer_from_memo p g with
        | Some r => Some (r, calls)
        | None =>
            match set calls g with
            | LockTimeout => Some (g, Pending, S calls)
            | Completed error g' =>
                match error with
                | Some e =>
                    if truthy_thrown e then Some (g', Rejected e, S calls)
                    else
                      match answer_from_memo p g' with
                      | Some r => Some (r, S calls)
                      | None => fetch_from fuel set p (attemptCount + 1) g' (S calls)
                      end
                | None =>
                    match answer_from_memo p g' with
                    | Some r => Some (r, S calls)
                    | None => fetch_from fuel set p (attemptCount + 1) g' (S calls)
                    end
                end
            end
        end
  end.

(** Fuel that always suffices: one unit per attempt below the ceiling, and
    one for the attempt that fails. *)
Definition fetch (set : nat -> globals -> completion) (p : findTagProps)
    (attemptCount : Z) (g : globals)
  : option (globals * settled (option tagInfoWithExtraFetcher) * nat) :=
  fetch_from (S (Z.to_nat (ceiling - attemptCount))) set p attemptCount g 0.

End Fetchers.

End Fetchers.

(** ** Predicates used in the statements *)

Module Predicates.
Import JS.

Definition hex_char (c : ascii) : Prop := is_Some (TagNumbers.hex_digit c).

Fixpoint all_hex (s : string) : Prop :=
  match s with
  | EmptyString => True
  | String c s' => hex_char c /\ all_hex s'
  end.

(** Text without an opening brace. *)
Fixpoint no_open (s : string) : Prop :=
  match s with
  | EmptyString => True
  | String c s' => TextMapper.is_open c = false /\ no_open s'
  end.

(** The path [p] resolves to a defined value on [target]. *)
Definition resolved (h : heap) (target : value) (p : string) : Prop :=
  Select.recursiveSelect h (PathStr p) target <> VUndefined.

End Predicates.

(** ** Predicates on the batcher *)

Module BatcherPredicates.
Import Batcher.

(** At least, respectively more than, [k] milliseconds have elapsed at
    [now] since the last flush; always so before the first flush. *)
Definition at_least (now : Z) (last : option Z) (k : Z) : Prop :=
  match last with None => True | Some l => k <= now - l end.

Definition more_than (now : Z) (last : option Z) (k : Z) : Prop :=
  match last with None => True | Some l => k < now - l end.

(** The condition under which [set] flushes at once. *)
Definition flush_condition {T C} (periodInMs now : Z) (s : state T C) : Prop :=
  (is_Some (timeout s) /\ at_least now (lastUpdated s) (periodInMs + 7))
  \/ more_than now (lastUpdated s) ((periodInMs + 7) * 10).

(** The truthy items of a burst and its completion callbacks, in order
    of arrival. *)
Definition items_of {T C} (truthyT : T -> bool) (arrivals : list (Z * T * option C))
  : list T :=
  filter (fun x => truthyT x = true) (map (fun a => a.1.2) arrivals).

Definition waiters_of {T C} (arrivals : list (Z * T * option C)) : list C :=
  omap (fun a => a.2) arrivals.

(** The calls of a sequence of turns for which the method of [set] runs,
    with the time of their turn: the first [maxPending + 1] calls of each
    turn.  The other calls are rejected. *)
Definition admitted {T C} (groups : list (Z * list (T * option C)))
  : list (Z * T * option C) :=
  flat_map (fun g => map (fun c => (g.1, c.1, c.2)) (take (S Lock.maxPending) g.2)) groups.

Definition turned_away {T C} (groups : list (Z * list (T * option C)))
  : list (option T * option C) :=
  flat_map (fun g => map (fun c => (Some c.1, c.2)) (drop (S Lock.maxPending) g.2)) groups.

End BatcherPredicates.

(** ** Predicates on the object store *)

Module Graph.
Import JS.

(** The objects a value, respectively an object, refers to. *)
Definition ref_of (v : value) : option addr :=
  match v with VObject a => Some a | _ => None end.

Definition refs_of (o : obj) : list addr :=
  match o with
  | Obj ps => omap (fun p => ref_of p.2) ps
  | Arr es ps => (omap ref_of es ++ omap (fun p => ref_of p.2) ps)%list
  end.

(** [b] is held by a property or an element of the object at [a]. *)
Definition edge (h : heap) (a b : addr) : Prop :=
  exists o, h !! a = Some o /\ b ∈ refs_of o.

(** No object of the store can reach itself: serializing any of them
    meets no cyclic reference. *)
Definition acyclic (h : heap) : Prop :=
  forall a, ~ clos_trans addr (edge h) a a.

(** Every reference held in the store points into the store. *)
Definition closed (h : heap) : Prop :=
  forall a b, edge h a b -> (b < length h)%nat.

(** Addresses of the store that are not in the visited list. *)
Definition unseen (h : heap) (seen : list value) : nat :=
  length (filter (fun a => VObject a ∉ seen) (seq 0 (length h))).

End Graph.

(** ** Predicates on the result of a lookup *)

Module Record.
Import JS.

(** The values held by the properties and the elements of an object. *)
Definition values_of (o : obj) : list value :=
  match o with
  | Obj ps => snd <$> ps
  | Arr es ps => (es ++ (snd <$> ps))%list
  end.

Definition synthetic (k : string) : Prop := k = "toJson" \/ k = "__parent__".

(** [o'] is a shallow copy of [o] to which only the synthetic members
    [toJson] and [__parent__] were added or redefined: the same
    properties for an object, the same elements for an array. *)
Definition clone_of (o o' : obj) : Prop :=
  match o, o' with
  | Obj ps, Obj ps' => forall k, ~ synthetic k -> assoc k ps' = assoc k ps
  | Arr es _, Arr es' ps' => es' = es /\ forall k, ~ synthetic k -> assoc k ps' = None
  | _, _ => False
  end.

(** Serializing the object at [a] meets a cyclic reference: [a] reaches
    an object that reaches itself. *)
Definition reaches_cycle (h : heap) (a : addr) : Prop :=
  exists b, clos_refl_trans addr (Graph.edge h) a b
            /\ clos_trans addr (Graph.edge h) b b.

End Record.

(** ** The invariant of a successful visit *)

Module Hit.
Import JS Lookup Graph Record.
#[local] Open Scope list_scope.
#[local] Open Scope nat_scope.

(** Number of [__parent__] links hanging from the result when the frame
    at level [root] returns a match found at level [depth]. *)
Definition chain_bound (root depth : nat) : nat :=
  if depth =? root then 0 else (depth - root - 1) `max` 1.

(** What holds when a visit started on store [h] at level [root]
    returns the match [m] and the store [h']: the result is a fresh
    object [res]; [h] is untouched; every fresh object refers to
    objects of [h] or to objects made after it; the [__parent__] chain
    of the result consists of fresh objects; and [res] is a copy of an
    object of [h] that holds a leaf equal to the looked-for value. *)
Record hit_inv (string_to_number : string -> option Z) (k : key)
    (h h' : heap) (root : nat) (m : found) (res : addr) : Prop := {
  inv_result : result m = VObject res;
  inv_prefix : exists new, h' = h ++ new;
  inv_fresh : forall a b, length h <= a -> edge h' a b -> b < length h \/ a < b;
  inv_depth : root <= depth m;
  inv_chain : forall j, j <= chain_bound root (depth m) ->
    exists c, follow_parent h' j (VObject res) = VObject c /\ length h <= c < length h';
  inv_record : exists p o o' leaf,
    h !! p = Some o /\ h' !! res = Some o' /\ clone_of o o' /\
    assoc "toJson" (props_of o') = Some (VFunction "toJson") /\
    leaf ∈ values_of o /\ is_string_or_number leaf = true /\
    loose_eq string_to_number leaf k = true;
}.

End Hit.

(** ** Predicates on the cache of an endpoint *)

Module CachePredicates.
Import JS Select.

(** The store in which the array at [c] holds the elements [es]. *)
Definition set_elems (c : addr) (es : list value) (h : heap) : heap :=
  alter (fun o => match o with
                  | Arr _ ps => Arr es ps
                  | Obj ps => Obj ps
                  end) c h.

(** The unique key of [x] does not depend on what the cache array
    holds (a record does not refer to the cache it is stored in). *)
Definition key_stable (h : heap) (c : addr) (uniqueMapper : path) (x : value) : Prop :=
  forall es, recursiveSelect (set_elems c es h) uniqueMapper x
             = recursiveSelect h uniqueMapper x.

(** No two entries of [records] are equal under the unique key. *)
Definition unique_keys (loosely_equal : value -> value -> bool) (h : heap)
    (uniqueMapper : path) (records : list value) : Prop :=
  forall i j ri rj,
    i <> j -> records !! i = Some ri -> records !! j = Some rj ->
    loosely_equal (recursiveSelect h uniqueMapper ri)
                  (recursiveSelect h uniqueMapper rj) = false.

(** The merge on the list of cached records, for a fixed key function. *)
Fixpoint merge_list (loosely_equal : value -> value -> bool) (key : value -> value)
    (cache items : list value) : list value :=
match items with
| [] => cache
| item :: rest =>
    merge_list loosely_equal key
      (if Deferred.not_found_value (fun ci => loosely_equal (key item) (key ci)) cache
       then (cache ++ [item])%list else cache)
      rest
end.

Definition unique_list (loosely_equal : value -> value -> bool) (key : value -> value)
    (records : list value) : Prop :=
forall i j ri rj,
  i <> j -> records !! i = Some ri -> records !! j = Some rj ->
  loosely_equal (key ri) (key rj) = false.

(** The elements of the cache array of an entry. *)
Definition cached (h : heap) (c : addr) : list value :=
  Deferred.elems_of (deref h c).

(** The flush of [values] on the entry [s] asks the remote side, which
    answers with the list of records [items], decoded into the store
    [h1]. *)
Definition answered (post : string -> string -> list Z -> heap -> option (heap * value))
    (r : Deferred.reading) (values : list Z) (s : Deferred.state)
    (h1 : heap) (items : list value) : Prop :=
  let filteredValues := Deferred.filter_values (Deferred.processedValues s) [] values in
  exists data a ps,
    filteredValues <> []
    /\ post (Deferred.fetchUrlPath r) (Deferred.bodyKeyForValuesList r) filteredValues
            (Deferred.store s) = Some (h1, data)
    /\ recursiveSelect h1 (Deferred.mapper_or_empty (Deferred.fetchMapper r)) data
       = VObject a
    /\ h1 !! a = Some (Arr items ps).

End CachePredicates.

(** ** Predicates on the resolvers *)

Module ResolverPredicates.
Import Dispatch Fetchers.

(** A batcher whose flushes complete without error and never populate
    the memo of virtual tags for [epc]. *)
Definition never_populates (set : nat -> globals -> completion) (epc : string) : Prop :=
  forall n g,
    virtuallyProcessedTags g !! epc = None ->
    exists g', set n g = Completed None g' /\ virtuallyProcessedTags g' !! epc = None.

(** Every definition that matches [id] is of the legacy variant, and
    there is one. *)
Definition only_legacy (id : Z) (cts : list contentType) : Prop :=
  (exists ct, ct ∈ cts /\ matches id ct = true)
  /\ forall ct, ct ∈ cts -> matches id ct = true -> is_legacy ct = true.

End ResolverPredicates.

(** ** Data of the worked examples *)

Module ExampleData.
Import JS Dispatch.

Definition people : heap :=
  [Arr [VObject 1%nat; VObject 2%nat] [];
   Obj [("id", VNumber 7); ("name", VString "seven")];
   Obj [("id", VNumber 8); ("name", VString "eight")]].

Definition definitions : list contentType :=
  [Enum (Base 1 "Color" "color") [EnumValue "red" 1; EnumValue "blue" 2];
   Fixed (Base 2 "Fixed" "fixed") 0 "epc=[TagEpc], value=[TagContentValue]";
   Legacy 5 "old" "Old"].

Definition request (epc : string) : findTagProps :=
  Props epc None None None None None None definitions false.

End ExampleData.

(** ** Identifier validation: [validEpc] *)

Module ValidEpc.
Import JS.

(** Word characters, between which and any other character [\b] holds:
    letters, digits and the underscore. *)
Definition is_word (c : ascii) : bool :=
  let n := TagNumbers.code c in
  ((48 <=? n) && (n <=? 57)) || ((65 <=? n) && (n <=? 90))
  || ((97 <=? n) && (n <=? 122)) || (n =? 95).

Definition word_at (s : string) : bool :=
  match s with
  | String c _ => is_word c
  | EmptyString => false
  end.

(** [s.match(/^[0-9abcdefABCDEF]+$/)] is not [null]. *)
Definition matches_hex (s : string) : bool :=
  negb (String.eqb s EmptyString) && TagNumbers.is_hex_string s.

(** [s.match(/\berror\b|\s|\n/)] is not [null]: some position starts the
    word [error], or holds a white space character.  [prev] tells whether
    the character before [s] is a word character. *)
Fixpoint matches_error (prev : bool) (s : string) : bool :=
  match s with
  | EmptyString => false
  | String c s' =>
      (negb prev && Dispatch.starts_with "error" s
         && negb (word_at (TagNumbers.drop_chars 5 s)))
      || TagNumbers.is_white_space c
      || (TagNumbers.code c =? 10)
      || matches_error (is_word c) s'
  end.

(** [validEpc]: the value of the [&&] chain, which is [false] for a
    value that is not a string, [null] when the first match fails and a
    boolean otherwise. *)
Definition validEpc (epc : value) : value :=
  match epc with
  | VString s =>
      if matches_hex s then VBool (negb (matches_error false s)) else VNull
  | _ => VBool false
  end.

End ValidEpc.

(** ** The encoding of a pair of numbers on a tag *)

Module Encoding.

(** The hexadecimal digit of a value below sixteen, in lower case. *)
Definition hex_char_of (d : Z) : ascii :=
  ascii_of_N (Z.to_N (if d <? 10 then 48 + d else 87 + d)).

(** [n] hexadecimal digits of [z], most significant first. *)
Fixpoint hex_fixed (n : nat) (z : Z) : string :=
  match n with
  | O => EmptyString
  | S n' => (hex_fixed n' (z / 16) ++ String (hex_char_of (z mod 16)) EmptyString)%string
  end.

End Encoding.

(** ** What goes into a batcher and what comes out *)

Module BatcherLedger.
Import Batcher.
#[local] Open Scope list_scope.

Section Ledger.
Context {T C : Type}.
Variable truthyT : T -> bool.

(** The items passed to the bulk callback so far, and those passed or
    still queued; likewise for the completion callbacks. *)
Definition items_delivered (s : state T C) : list T := concat (map props (calls s)).

Definition items_out (s : state T C) : list T := items_delivered s ++ batched s.

Definition callbacks_delivered (s : state T C) : list C := concat (map waiters (calls s)).

Definition callbacks_out (s : state T C) : list C :=
  callbacks_delivered s ++ pendingCallbacks s.

(** A scheduled timer has a handle, and without a scheduled timer
    nothing is queued. *)
Definition idle_is_empty (s : state T C) : Prop :=
  (live s = true -> is_Some (timeout s))
  /\ (live s = false -> batched s = [] /\ pendingCallbacks s = []).

(** Everything queued or passed to the bulk callback is truthy. *)
Definition only_truthy (s : state T C) : Prop :=
  Forall (fun x => truthyT x = true) (batched s)
  /\ Forall (fun c => Forall (fun x => truthyT x = true) (props c)) (calls s).

(** *** With the lock of [set] *)

(** The truthy items, respectively the completion callbacks, of calls
    of [set]. *)
Definition items_in (calls : list (option T * option C)) : list T :=
  flat_map (fun c => push_item truthyT c.1 []) calls.

Definition callbacks_in (calls : list (option T * option C)) : list C :=
  flat_map (fun c => push_cb c.2 []) calls.

(** What the calls of a schedule hand to the batcher, in order. *)
Definition handed_items_of (sched : list (Z * event (T := T) (C := C))) : list T :=
  flat_map (fun e => match e.2 with
                     | Invoke (OpSet item _) | Invoke (OpSetNow item) =>
                         push_item truthyT item []
                     | Invoke OpClearTimeoutHandler | Complete => []
                     end) sched.

Definition handed_callbacks_of (sched : list (Z * event (T := T) (C := C))) : list C :=
  flat_map (fun e => match e.2 with
                     | Invoke (OpSet _ cb) => push_cb cb []
                     | _ => []
                     end) sched.

(** What the batcher holds: passed to the bulk callback, queued, or in
    the hands of a call of [set] that waits for the lock. *)
Definition items_held (b : locked_batcher) : list T :=
  items_out (Lock.inner b) ++ items_in (default [] (Lock.waiting b)).

Definition callbacks_held (b : locked_batcher) : list C :=
  callbacks_out (Lock.inner b) ++ callbacks_in (default [] (Lock.waiting b)).

Definition is_set (e : event (T := T) (C := C)) : bool :=
  match e with Invoke (OpSet _ _) => true | _ => false end.

Definition is_setNow (e : event (T := T) (C := C)) : bool :=
  match e with Invoke (OpSetNow _) => true | _ => false end.

Definition is_clearing (e : event (T := T) (C := C)) : bool :=
  match e with Invoke OpClearTimeoutHandler => true | _ => false end.

(** The number of calls of [set] in a schedule. *)
Definition sets (sched : list (Z * event (T := T) (C := C))) : nat :=
  length (filter (fun e => is_set e.2 = true) sched).

End Ledger.

End BatcherLedger.

(** ** Lists of flat records *)

Module FlatRecords.
Import JS Lookup.

(** [item[key]], read as the lookup reads it. *)
Definition field (h : heap) (key : string) (item : value) : value :=
  match get h item key with Ok v => v | Throw => VUndefined end.

(** A plain object of the store whose member [key] is not itself an
    object or an array. *)
Definition flat_record (h : heap) (key : string) (item : value) : Prop :=
  exists a ps, item = VObject a /\ h !! a = Some (Obj ps)
               /\ Graph.ref_of (field h key item) = None.

(** The member [key] of the record is a string or a number equal, by
    [==], to the looked-for value. *)
Definition holds (string_to_number : string -> option Z) (h : heap) (key : string)
    (k : Lookup.key) (item : value) : bool :=
  is_string_or_number (field h key item)
  && loose_eq string_to_number (field h key item) k.

(** The copy that a lookup returns for the record with members [ps]. *)
Definition returned_copy (ps : list (string * value)) (parent : addr) : obj :=
  Obj (assoc_set "__parent__" (VObject parent)
         (assoc_set "toJson" (VFunction "toJson") ps)).

End FlatRecords.

(** ** A test for stores without dangling references *)

Module StoreCheck.
Import JS.

Definition closedb (h : heap) : bool :=
  forallb (fun o => forallb (fun b => b <? length h)%nat (Graph.refs_of o)) h.

End StoreCheck.

(** ** Text formatters as sequences of pieces *)

Module Template.
Import JS.

(** A piece of a text formatter: literal text or one of the three
    placeholders. *)
Inductive piece :=
| Text (s : string)
| TagEpc
| TagContentTypeId
| TagContentValue.

Definition source (p : piece) : string :=
  match p with
  | Text s => s
  | TagEpc => "[TagEpc]"
  | TagContentTypeId => "[TagContentTypeId]"
  | TagContentValue => "[TagContentValue]"
  end.

(** What a piece stands for on a tag. *)
Definition filled (epc : string) (id value : Z) (p : piece) : string :=
  match p with
  | Text s => s
  | TagEpc => epc
  | TagContentTypeId => number_to_string id
  | TagContentValue => number_to_string value
  end.

Fixpoint concat (l : list string) : string :=
  match l with
  | [] => EmptyString
  | s :: l' => (s ++ concat l')%string
  end.

(** Text whose characters all satisfy [P]. *)
Fixpoint every (P : ascii -> Prop) (s : string) : Prop :=
  match s with
  | EmptyString => True
  | String c s' => P c /\ every P s'
  end.

(** Text without an opening bracket. *)
Definition plain (s : string) : Prop := every (fun c => TagNumbers.code c <> 91) s.

(** Text without a dollar sign: as a replacement it stands for itself. *)
Definition literal (s : string) : Prop := every (fun c => TagNumbers.code c <> 36) s.

(** The characters of a printed number. *)
Definition numeral_char (c : ascii) : Prop :=
  is_digit c = true \/ c = "-"%char \/ c = "."%char \/ c = "e"%char \/ c = "+"%char.

Definition plain_text (p : piece) : Prop :=
  match p with Text s => plain s | _ => True end.

(** The piece [p], once the placeholder [t] has been replaced by [rep]. *)
Definition replaced (t : piece) (rep : string) (p : piece) : piece :=
  match t, p with
  | TagEpc, TagEpc | TagContentTypeId, TagContentTypeId
  | TagContentValue, TagContentValue => Text rep
  | _, _ => p
  end.

End Template.

(** ** Predicates on result records *)

Module ResultPredicates.
Import JS Dispatch.

(** The definition of the result is the first definition of the list
    with the content-type id of the result. *)
Definition from_definitions (p : findTagProps) (i : tagInfo) : Prop :=
  List.find (matches (info_contentTypeId i)) (tagContentTypes p)
  = Some (info_contentType i).

(** The members of the result are those of the variant of its
    definition. *)
Definition agrees (client : bool) (i : tagInfo) : Prop :=
  match info_contentType i, info_payload i with
  | Fixed _ _ _, IsFixed => True
  | Manual _ _, IsManual => True
  | Enum _ values, IsEnum ev =>
      List.find (fun ev => enum_value ev =? info_contentValue i) values = Some ev
      /\ text i = enum_text ev
  | DeferredType _ _, IsDeferred fetch => fetch = client
  | FetchedList b _ _ _, IsFetchedList _ d => d = display b
  | _, _ => False
  end.

(** The numbers of the result are those decoded from the identifier, or
    those that the memo of virtual tags holds for it. *)
Definition numbers_of (p : findTagProps) (g : globals) (i : tagInfo) : Prop :=
  TagNumbers.getTagNumbers (tagEpc p) = Some (info_contentTypeId i, info_contentValue i)
  \/ (apiClient p = true
      /\ virtuallyProcessedTags g !! tagEpc p
         = Some (VirtualFound (info_contentTypeId i) (info_contentValue i))).

(** Everything but the store is the same in both states. *)
Definition same_module_state (g g' : globals) : Prop :=
  extrasLookupBatcher g' = extrasLookupBatcher g
  /\ virtualLookupBatcher g' = virtualLookupBatcher g
  /\ extrasProcessedTags g' = extrasProcessedTags g
  /\ virtuallyProcessedTags g' = virtuallyProcessedTags g.

End ResultPredicates.

(** ** The bulk callback of the virtual batcher, and the cache resets *)

Module VirtualLookup.
Import JS Dispatch Fetchers.
#[local] Open Scope list_scope.

(** The response of the virtual endpoint, taken to have its declared
    type: [data.results] maps identifiers to a pair
    [(content_id, content_value)]. *)
Inductive response :=
| VirtualOk (results : gmap string (Z * Z))
| VirtualFail (e : thrown).

(** A property key that is an array index: canonical digits below
    [2^32 - 1]. *)
Definition index_key (k : string) : option N :=
  match k with
  | EmptyString => None
  | String c s' =>
      if all_digits k && (negb (TagNumbers.code c =? 48) || String.eqb s' EmptyString)
      then let n := digits_value 0 k in
           if (n <? 4294967295)%N then Some n else None
      else None
  end.

Fixpoint insert_index (x : N * string) (l : list (N * string)) : list (N * string) :=
  match l with
  | [] => [x]
  | y :: l' => if (x.1 <=? y.1)%N then x :: l else y :: insert_index x l'
  end.

(** [Object.keys] of an object whose keys were created in the order
    [inserted]: array indices first, in ascending order, then the other
    keys in the order of their creation. *)
Definition own_keys (inserted : list string) : list string :=
  (snd <$> foldr insert_index []
             (omap (fun k => (fun n => (n, k)) <$> index_key k) inserted))
  ++ filter (fun k => index_key k = None) inserted.

(** The loop that builds [filteredEpcs]; [filtered] lists its keys in
    the order of their creation. *)
Fixpoint filter_new (memo : gmap string virtualEntry) (filtered epcs : list string)
  : list string :=
  match epcs with
  | [] => filtered
  | epc :: rest =>
      if bool_decide (epc ∉ filtered) && bool_decide (memo !! epc = None)
      then filter_new memo (filtered ++ [epc]) rest
      else filter_new memo filtered rest
  end.

Definition with_virtual (m : gmap string virtualEntry) (g : globals) : globals :=
  Globals (store g) (extrasLookupBatcher g) (virtualLookupBatcher g)
          (extrasProcessedTags g) m.

Definition mark_found (results : gmap string (Z * Z)) (memo : gmap string virtualEntry)
  : gmap string virtualEntry :=
  foldl (fun m kv => <[kv.1 := VirtualFound kv.2.1 kv.2.2]> m) memo (map_to_list results).

Definition mark_not_found (epcs : list string) (memo : gmap string virtualEntry)
  : gmap string virtualEntry :=
  foldl (fun m epc => <[epc := VirtualNotFound]> m) memo epcs.

Section VirtualLookup.
(** [apiClient.post(url, { [bodyKey]: epcs }, options)] *)
Variable post : string -> string -> list string -> response.

(** The bulk callback; the second component is what it throws. *)
Definition virtual_bulk (p : findTagProps) (epcs : list string) (g : globals)
  : globals * option thrown :=
  match epcs with
  | [] => (g, None)
  | _ :: _ =>
      match filter_new (virtuallyProcessedTags g) [] epcs with
      | [] => (g, None)
      | (_ :: _) as filteredEpcs =>
          match post (default EmptyString (virtualEpcsFetchUrl p))
                     (default EmptyString (virtualEpcsBodyKey p))
                     (own_keys filteredEpcs) with
          | VirtualFail e => (g, Some e)
          | VirtualOk results =>
              let notFoundEpcs :=
                filter (fun epc => results !! epc = None) epcs in
              (with_virtual
                 (mark_not_found notFoundEpcs
                    (mark_found results (virtuallyProcessedTags g))) g,
               None)
          end
      end
  end.

(** [set] on the virtual batcher, when the flush that takes the item
    runs on the snapshot [batch]. *)
Definition virtual_flush (p : findTagProps) (batch : list string) (g : globals)
  : completion :=
  let '(g', error) := virtual_bulk p batch g in Completed error g'.

End VirtualLookup.

End VirtualLookup.

Module Caches.
Import JS Dispatch.
#[local] Open Scope list_scope.

Definition clearVirtualTagsCache (g : globals) : globals :=
  Globals (store g) (extrasLookupBatcher g) (virtualLookupBatcher g)
          (extrasProcessedTags g) ∅.

Definition clearExtrasTagsCache (g : globals) : globals :=
  Globals (store g) (extrasLookupBatcher g) (virtualLookupBatcher g)
          ∅ (virtuallyProcessedTags g).

(** One entry of [cachedBatchedItems] gets a new, empty [cache] array
    and an empty [processedValues]. *)
Definition clear_entry (s : Deferred.state) : Deferred.state :=
  Deferred.State (Deferred.store s ++ [Arr [] []]) (length (Deferred.store s)) [].

Definition clearCachedBatchedItems (entries : list Deferred.state) : list Deferred.state :=
  clear_entry <$> entries.

Definition clearAllCache (m : globals * list Deferred.state)
  : globals * list Deferred.state :=
  (clearExtrasTagsCache (clearVirtualTagsCache m.1), clearCachedBatchedItems m.2).

End Caches.

(** ** Deep copies: [deepClone] *)

Module DeepClone.
Import JS.
#[local] Open Scope list_scope.

(** [obj.hasOwnProperty(key)] for an enumerated own key.  The inherited
    method answers [true]; an own member of that name shadows it, and
    the call of such a member raises: in a decoded record it is no
    function, and the functions of the store are not called in this
    model. *)
Definition has_own_property (h : heap) (src : addr) : result bool :=
  match assoc "hasOwnProperty" (props_of (deref h src)) with
  | None => Ok true
  | Some _ => Throw
  end.

(** The keys that [for (const key in obj)] enumerates after the
    elements of an array, or on a plain object. *)
Definition member_keys (o : obj) : list string :=
  VirtualLookup.own_keys (fst <$> props_of o).

(** The loop over the elements of an array: [arrClone[index] = deepClone(item, seen)],
    the indices being enumerated in ascending order. *)
Fixpoint clone_items
    (rec : heap -> gmap nat nat -> value -> option (result (heap * gmap nat nat * value)))
    (c : addr) (items : list value) (h : heap) (seen : gmap nat nat)
  : option (result (heap * gmap nat nat)) :=
  match items with
  | [] => Some (Ok (h, seen))
  | item :: rest =>
      match rec h seen item with
      | None => None
      | Some Throw => Some Throw
      | Some (Ok (h1, seen1, v)) => clone_items rec c rest (Deferred.push c v h1) seen1
      end
  end.

(** The loop over the other keys: [clone[key] = deepClone(obj[key], seen)],
    guarded by [hasOwnProperty] on a plain object. *)
Fixpoint clone_members
    (rec : heap -> gmap nat nat -> value -> option (result (heap * gmap nat nat * value)))
    (guarded : bool) (src c : addr) (keys : list string) (h : heap) (seen : gmap nat nat)
  : option (result (heap * gmap nat nat)) :=
  match keys with
  | [] => Some (Ok (h, seen))
  | key :: rest =>
      match (if guarded then has_own_property h src else Ok true) with
      | Throw => Some Throw
      | Ok false => clone_members rec guarded src c rest h seen
      | Ok true =>
          match get h (VObject src) key with
          | Throw => Some Throw
          | Ok x =>
              match rec h seen x with
              | None => None
              | Some Throw => Some Throw
              | Some (Ok (h1, seen1, v)) =>
                  clone_members rec guarded src c rest
                    (alter (set_prop key v) c h1) seen1
              end
          end
      end
  end.

(** [deepClone(obj, seen)].  [fuel] bounds the depth of the recursion;
    [None] is returned when it runs out. *)
Fixpoint deepClone (fuel : nat) (h : heap) (seen : gmap nat nat) (obj : value)
  : option (result (heap * gmap nat nat * value)) :=
  match fuel with
  | O => None
  | S fuel =>
      match obj with
      | VObject a =>
          match seen !! a with
          | Some c => Some (Ok (h, seen, VObject c))
          | None =>
              let c := length h in
              match deref h a with
              | Arr es _ =>
                  match clone_items (deepClone fuel) c es
                          (h ++ [Arr [] []]) (<[a := c]> seen) with
                  | None => None
                  | Some Throw => Some Throw
                  | Some (Ok (h1, seen1)) =>
                      match clone_members (deepClone fuel) false a c
                              (member_keys (deref h a)) h1 seen1 with
                      | None => None
                      | Some Throw => Some Throw
                      | Some (Ok (h2, seen2)) => Some (Ok (h2, seen2, VObject c))
                      end
                  end
              | Obj _ =>
                  match clone_members (deepClone fuel) true a c
                          (member_keys (deref h a)) (h ++ [Obj []]) (<[a := c]> seen) with
                  | None => None
                  | Some Throw => Some Throw
                  | Some (Ok (h2, seen2)) => Some (Ok (h2, seen2, VObject c))
                  end
              end
          end
      | _ => Some (Ok (h, seen, obj))
      end
  end.

(** A call with a new [Map]; the depth of the recursion is at most the
    number of objects of the store. *)
Definition deepClone_new (h : heap) (obj : value)
  : option (result (heap * gmap nat nat * value)) :=
  deepClone (S (length h)) h ∅ obj.

End DeepClone.

(** ** Predicates on deep copies *)

Module ClonePredicates.
Import JS.

(** The value [v'] stands in the copy for the value [v]. *)
Definition image (seen : gmap nat nat) (v v' : value) : Prop :=
  match v with
  | VObject a => exists c, seen !! a = Some c /\ v' = VObject c
  | _ => v' = v
  end.

Definition members_copied (seen : gmap nat nat) (ps ps' : list (string * value)) : Prop :=
  forall k,
    match assoc k ps, assoc k ps' with
    | Some x, Some x' => image seen x x'
    | None, None => True
    | _, _ => False
    end.

(** [o'] has the members and the elements of [o], each replaced by its
    image. *)
Definition copy_under (seen : gmap nat nat) (o o' : obj) : Prop :=
  match o, o' with
  | Obj ps, Obj ps' => members_copied seen ps ps'
  | Arr es ps, Arr es' ps' => Forall2 (image seen) es es' /\ members_copied seen ps ps'
  | _, _ => False
  end.

(** A store of decoded records: no dangling reference, no member named
    [hasOwnProperty], and no array with a named member that is an index
    or [length]. *)
Definition plain_store (h : heap) : Prop :=
  Graph.closed h
  /\ forall a o, h !! a = Some o ->
       assoc "hasOwnProperty" (props_of o) = None
       /\ match o with
          | Arr _ ps => forall k, k ∈ fst <$> ps -> array_index k = None /\ k <> "length"
          | Obj _ => True
          end.

(** The same, as a check that can be run on a given store. *)
Definition plain_objectb (o : obj) : bool :=
  bool_decide (assoc "hasOwnProperty" (props_of o) = None)
  && match o with
     | Arr _ ps =>
         forallb (fun k => bool_decide (array_index k = None)
                           && negb (String.eqb k "length")) (fst <$> ps)
     | Obj _ => true
     end.

Definition plain_storeb (h : heap) : bool :=
  StoreCheck.closedb h && forallb plain_objectb h.

(** A record and its list of items that refer to each other. *)
Definition cyclic_store : heap :=
  [Obj [("name", VString "box"); ("items", VObject 1%nat); ("self", VObject 0%nat)];
   Arr [VObject 0%nat; VNumber 4] [("owner", VObject 0%nat)]].

(** Objects of the store [h0] that have no clone yet. *)
Definition unseen (h0 : heap) (seen : gmap nat nat) : nat :=
  length (filter (fun a => seen !! a = None) (seq 0 (length h0))).

End ClonePredicates.

(** ** The invariant of a deep copy *)

Module CloneInvariant.
Import JS ClonePredicates.
#[local] Open Scope nat_scope.

(** The [Map] sends objects of the store [h0] to objects made since,
    and no two objects to the same one. *)
Definition seen_ok (h0 h : heap) (seen : gmap nat nat) : Prop :=
  (forall a c, seen !! a = Some c -> a < length h0 /\ length h0 <= c < length h)
  /\ (forall a1 a2 c, seen !! a1 = Some c -> seen !! a2 = Some c -> a1 = a2).

(** The store [h] still holds the objects of [h0]. *)
Definition keeps (h0 h : heap) : Prop :=
  length h0 <= length h /\ forall a, a < length h0 -> h !! a = h0 !! a.

(** The clone [c] of the object [a] is finished. *)
Definition complete (h0 h' : heap) (seen' : gmap nat nat) (a c : nat) : Prop :=
  exists o o', h0 !! a = Some o /\ h' !! c = Some o' /\ copy_under seen' o o'.

(** What a call started on [(h, seen)] leaves: the objects of [h] are
    as they were, the [Map] has grown, and the clones it has added are
    finished objects made by the call. *)
Definition grows (h0 h : heap) (seen : gmap nat nat) (h' : heap) (seen' : gmap nat nat)
  : Prop :=
  (forall x, x < length h -> h' !! x = h !! x)
  /\ length h <= length h'
  /\ seen ⊆ seen'
  /\ seen_ok h0 h' seen'
  /\ (forall a c, seen' !! a = Some c -> seen !! a = None ->
        length h <= c /\ complete h0 h' seen' a c).

(** A value of the store [h0]. *)
Definition value_ok (h0 : heap) (v : value) : Prop :=
  match v with VObject a => a < length h0 | _ => True end.

(** The members cloned so far, for the keys [done]. *)
Definition members_done (seen : gmap nat nat) (ps : list (string * value))
    (done : list string) (ps' : list (string * value)) : Prop :=
  forall k,
    (k ∈ done -> exists x', assoc k ps' = Some x'
                            /\ image seen (default VUndefined (assoc k ps)) x')
    /\ (k ∉ done -> assoc k ps' = None).

(** The state of the loops that fill the clone at address [length h]:
    the objects of [h] are as they were, and the clones added since the
    loop started are finished. *)
Definition loop_inv (h0 h : heap) (seen0 : gmap nat nat) (hc : heap) (sc : gmap nat nat)
  : Prop :=
  (forall x, x < length h -> hc !! x = h !! x)
  /\ length h < length hc
  /\ seen0 ⊆ sc
  /\ seen_ok h0 hc sc
  /\ (forall a c, sc !! a = Some c -> seen0 !! a = None ->
        length h < c /\ complete h0 hc sc a c).

(** What the loops need of the recursive calls. *)
Definition call_ok (h0 : heap)
    (rec : heap -> gmap nat nat -> value -> option (result (heap * gmap nat nat * value)))
    (bound : nat) : Prop :=
  forall h seen v,
    keeps h0 h -> seen_ok h0 h seen -> value_ok h0 v -> unseen h0 seen <= bound ->
    exists h' seen' v',
      rec h seen v = Some (Ok (h', seen', v'))
      /\ grows h0 h seen h' seen' /\ image seen' v v'.

Definition with_props (o : obj) (ps : list (string * value)) : obj :=
  match o with
  | Obj _ => Obj ps
  | Arr es _ => Arr es ps
  end.

(** A key under which [get] reads a named member. *)
Definition member_key (o : obj) (k : string) : Prop :=
  match o with
  | Arr _ _ => array_index k = None /\ k <> "length"
  | Obj _ => True
  end.

End CloneInvariant.

(** * Theorems *)

(** ** Identifier decoding *)

Section TagNumbersFacts.
Import TagNumbers Predicates.

Lemma is_hex_string_all_hex s : is_hex_string s = true -> all_hex s.
Proof.
  unfold is_hex_string. induction s as [|c s IH]; simpl; [done|].
  rewrite andb_true_iff. intros [Hc Hs]. split; [|by apply IH].
  by apply bool_decide_eq_true_1 in Hc.
Qed.

Lemma hex_char_cases c :
  hex_char c ->
  is_line_terminator c = false /\ is_white_space c = false /\
  (code c =? 45) = false /\ (code c =? 43) = false /\
  (code c =? 120) = false /\ (code c =? 88) = false.
Proof.
  intros [d Hd].
  destruct c as [[] [] [] [] [] [] [] []]; vm_compute in Hd |- *;
    first [discriminate | repeat split].
Qed.

Lemma all_hex_drop k s : all_hex s -> all_hex (drop_chars k s).
Proof.
  revert s. induction k as [|k IH]; intros [|c s]; simpl; auto.
  intros [_ H]. by apply IH.
Qed.

Lemma all_hex_take k s : all_hex s -> all_hex (take_chars k s).
Proof.
  revert s. induction k as [|k IH]; intros [|c s]; simpl; auto.
  intros [Hc H]. split; [done|by apply IH].
Qed.

Lemma length_drop_chars k s :
  String.length (drop_chars k s) = (String.length s - k)%nat.
Proof.
  revert s. induction k as [|k IH]; intros [|c s]; simpl; auto; lia.
Qed.

Lemma length_take_chars k s :
  String.length (take_chars k s) = (k `min` String.length s)%nat.
Proof. revert s. induction k as [|k IH]; intros [|c s]; simpl; auto. Qed.

Lemma take_chars_all k s : (String.length s <= k)%nat -> take_chars k s = s.
Proof.
  revert s. induction k as [|k IH]; intros [|c s]; simpl; auto; try lia.
  intros H. f_equal. apply IH. lia.
Qed.

Lemma append_cons d (s t : string) :
  (String d s ++ t)%string = String d (s ++ t)%string.
Proof. reflexivity. Qed.

Lemma append_empty_l (s : string) : (EmptyString ++ s)%string = s.
Proof. reflexivity. Qed.

Lemma append_empty_r (s : string) : (s ++ EmptyString)%string = s.
Proof. induction s as [|d s IH]; [done|]. by rewrite append_cons, IH. Qed.

Lemma append_assoc_char cur c s :
  ((cur ++ String c EmptyString) ++ s = cur ++ String c s)%string.
Proof.
  induction cur as [|d cur IH]; [done|].
  rewrite !append_cons. by rewrite IH.
Qed.

(** A run of at most eight characters is one match. *)
Lemma match_dot8_short s : forall cur n,
  all_hex s -> (n + String.length s <= 8)%nat ->
  match_dot8 cur n s =
    match (n + String.length s)%nat with O => [] | S _ => [(cur ++ s)%string] end.
Proof.
  induction s as [|c s IH]; intros cur n Hs Hlen; simpl in *.
  - rewrite Nat.add_0_r. destruct n; [done|].
    by rewrite append_empty_r.
  - destruct Hs as [Hc Hs]. destruct (hex_char_cases c Hc) as (-> & _).
    destruct (Nat.eqb_spec n 8); [lia|].
    rewrite IH by (auto; lia). simpl.
    replace (n + S (String.length s))%nat with (S (n + String.length s)) by lia.
    by rewrite append_assoc_char.
Qed.

(** A longer run yields its first eight characters, and matching goes on
    with the rest. *)
Lemma match_dot8_long s : forall cur n,
  all_hex s -> (n <= 8)%nat -> (8 < n + String.length s)%nat ->
  match_dot8 cur n s =
    (cur ++ take_chars (8 - n) s)%string
      :: match_dot8 EmptyString 0 (drop_chars (8 - n) s).
Proof.
  induction s as [|c s IH]; intros cur n Hs Hn Hlen; simpl in *; [lia|].
  destruct Hs as [Hc Hs]. destruct (hex_char_cases c Hc) as (Hlt & _).
  rewrite Hlt. destruct (Nat.eqb_spec n 8) as [->|Hne].
  - simpl. by rewrite append_empty_r, Hlt.
  - rewrite IH by (auto; lia).
    replace (8 - n)%nat with (S (8 - S n)) by lia. simpl.
    by rewrite append_assoc_char.
Qed.

Lemma hex_digits_all_hex s : forall a,
  all_hex s -> hex_digits (Some a) s = Some (hex_value a s).
Proof.
  induction s as [|c s IH]; intros a Hs; simpl in *; [done|].
  destruct Hs as [[d Hd] Hs]. rewrite Hd. simpl. by apply IH.
Qed.

(** On a non-empty string of hexadecimal digits [parseInt] reads all of it. *)
Lemma parseInt16_hex s :
  all_hex s -> s <> EmptyString -> parseInt16 s = Num (hex_value 0 s).
Proof.
  destruct s as [|c s]; [done|]. intros [Hc Hs] _.
  destruct (hex_char_cases c Hc) as (_ & Hws & Hm & Hp & _).
  unfold parseInt16. simpl trim_start. rewrite Hws.
  unfold strip_sign. rewrite Hm, Hp.
  assert (strip_0x (String c s) = String c s) as ->.
  { destruct s as [|c1 s]; [done|]. simpl.
    destruct Hs as [Hc1 _]. destruct (hex_char_cases c1 Hc1) as (_&_&_&_&Hx&HX).
    rewrite Hx, HX. simpl. by rewrite andb_false_r. }
  simpl. destruct Hc as [d Hd]. rewrite Hd. simpl.
  rewrite hex_digits_all_hex by done. f_equal. lia.
Qed.

(** The first two matches on a string of hexadecimal digits. *)
Lemma match_dot8_first_two w :
  all_hex w -> (8 < String.length w)%nat ->
  exists rest,
    match_dot8 EmptyString 0 w
    = take_chars 8 w :: take_chars 8 (drop_chars 8 w) :: rest.
Proof.
  intros Hw Hlen.
  rewrite match_dot8_long by (auto; lia).
  change (8 - 0)%nat with 8%nat. rewrite append_empty_l.
  pose proof (all_hex_drop 8 w Hw) as Hd.
  pose proof (length_drop_chars 8 w) as Hl.
  generalize dependent (drop_chars 8 w). intros r Hd Hl.
  destruct (le_lt_dec (String.length r) 8) as [Hle|Hgt].
  - rewrite match_dot8_short by (auto; lia).
    rewrite Nat.add_0_l, append_empty_l.
    destruct (String.length r) eqn:E; [lia|].
    exists []. rewrite (take_chars_all 8 r) by lia. done.
  - rewrite match_dot8_long by (auto; lia).
    change (8 - 0)%nat with 8%nat. rewrite append_empty_l. eauto.
Qed.

Lemma nonempty_of_length s : (0 < String.length s)%nat -> s <> EmptyString.
Proof. intros H. destruct s; simpl in H; [lia|done]. Qed.

Lemma getTagNumbers_on_hex w :
  all_hex w ->
  (let nums := map parseInt16 (match_dot8 EmptyString 0 w) in
   (nums !! 0%nat, nums !! 1%nat))
  = if (String.length w <=? 8)%nat
    then (match w with EmptyString => None | _ => Some (Num (hex_value 0 w)) end, None)
    else (Some (Num (hex_value 0 (take_chars 8 w))),
          Some (Num (hex_value 0 (take_chars 8 (drop_chars 8 w))))).
Proof.
  intros Hw. cbv zeta. destruct (Nat.leb_spec (String.length w) 8) as [Hle|Hgt].
  - rewrite match_dot8_short by (auto; lia).
    rewrite Nat.add_0_l, append_empty_l.
    destruct w as [|c w]; [done|]. cbn [String.length map lookup list_lookup].
    rewrite parseInt16_hex; done.
  - destruct (match_dot8_first_two w Hw Hgt) as [rest ->].
    cbn [map lookup list_lookup].
    rewrite !parseInt16_hex; auto using all_hex_take, all_hex_drop.
    + apply nonempty_of_length. rewrite length_take_chars, length_drop_chars. lia.
    + apply nonempty_of_length. rewrite length_take_chars. lia.
Qed.

Lemma take_chars_take a b s :
  (a <= b)%nat -> take_chars a (take_chars b s) = take_chars a s.
Proof.
  revert b s. induction a as [|a IH]; intros [|b] [|c s] H; simpl; auto; try lia.
  f_equal. apply IH. lia.
Qed.

Lemma drop_chars_take a b s :
  drop_chars a (take_chars (a + b) s) = take_chars b (drop_chars a s).
Proof.
  revert s. induction a as [|a IH]; intros [|c s]; simpl; auto.
  by destruct b.
Qed.

End TagNumbersFacts.

(** C3, as the code has it: on a string of hexadecimal digits
    [getTagNumbers] first drops eight characters when the string has
    thirty-two or more, then reads the first sixteen characters of what is
    left (all of it when shorter): the first eight and the following (up
    to) eight characters are parsed as hexadecimal into
    [(contentTypeId, contentValue)].  The result is a function of the
    input, and it is [null] (never an exception) exactly when that window
    has at most eight characters, so that the second chunk is missing. *)
Theorem getTagNumbers_reads_window (s : string) :
  TagNumbers.is_hex_string s = true ->
  TagNumbers.getTagNumbers s =
    (let w := TagNumbers.window s in
     if (String.length w <=? 8)%nat then None
     else Some (TagNumbers.hex_value 0 (TagNumbers.take_chars 8 w),
                TagNumbers.hex_value 0 (TagNumbers.drop_chars 8 w))).
Proof.
  intros Hs%is_hex_string_all_hex.
  unfold TagNumbers.getTagNumbers, TagNumbers.window.
  set (w0 := if (32 <=? String.length s)%nat then TagNumbers.drop_chars 8 s else s).
  assert (Predicates.all_hex w0) as Hw0.
  { unfold w0. destruct (32 <=? String.length s)%nat; auto using all_hex_drop. }
  pose proof (getTagNumbers_on_hex w0 Hw0) as H. cbv zeta in H |- *.
  rewrite length_take_chars.
  rewrite (take_chars_take 8 16) by lia.
  rewrite (drop_chars_take 8 8).
  destruct (Nat.leb_spec (String.length w0) 8) as [Hle|Hgt].
  - replace (16 `min` String.length w0 <=? 8)%nat with true
      by (symmetry; apply Nat.leb_le; lia).
    injection H as -> ->. by destruct w0.
  - replace (16 `min` String.length w0 <=? 8)%nat with false
      by (symmetry; apply Nat.leb_gt; lia).
    injection H as -> ->. done.
Qed.

Lemma getTagNumbers_reads_window_witness :
  TagNumbers.is_hex_string "3000000000000001000000020000abcd" = true /\
  TagNumbers.getTagNumbers "3000000000000001000000020000abcd" = Some (1, 2).
Proof.
  split; [reflexivity|].
  exact (eq_trans
           (getTagNumbers_reads_window "3000000000000001000000020000abcd" eq_refl)
           eq_refl).
Defined.

(** C3 as stated fails: on a 24-character identifier the code reads the
    first sixteen characters, not the last sixteen. *)
Lemma getTagNumbers_not_last16 :
  TagNumbers.getTagNumbers "000000010000000200000003" = Some (1, 2) /\
  TagNumbers.decode_last16 "000000010000000200000003" = Some (2, 3) /\
  TagNumbers.getTagNumbers "000000010000000200000003"
    <> TagNumbers.decode_last16 "000000010000000200000003".
Proof. split; [reflexivity|split; [reflexivity|discriminate]]. Qed.

(** ** Text Mapper *)

Section TextMapperFacts.
Import JS Select TextMapper Predicates.

Lemma length_filter_all {A} (P : A -> Prop) `{!forall x, Decision (P x)} (l : list A) :
  length (filter P l) = length l <-> Forall P l.
Proof.
  split.
  - induction l as [|x l IH]; [constructor|].
    rewrite filter_cons. destruct (decide (P x)) as [Hx|Hx]; simpl.
    + intros [= Hlen]. constructor; auto.
    + intros Hlen. pose proof (length_filter P l). lia.
  - induction 1 as [|x l Hx Hl IH]; [done|].
    rewrite filter_cons. destruct (decide (P x)); [simpl; congruence|done].
Qed.

Lemma filter_all {A} (P : A -> Prop) `{!forall x, Decision (P x)} (l : list A) :
  Forall P l -> filter P l = l.
Proof.
  induction 1 as [|x l Hx Hl IH]; [done|].
  rewrite filter_cons. destruct (decide (P x)); [congruence|done].
Qed.

Lemma is_digit_not_brace c : is_digit c = true -> is_open c = false /\ is_close c = false.
Proof.
  unfold is_digit, is_open, is_close. generalize (TagNumbers.code c). intros n H.
  apply andb_true_iff in H as [H1%Z.leb_le H2%Z.leb_le].
  split; apply Z.eqb_neq; lia.
Qed.

Lemma append_app_assoc (a b c : string) : ((a ++ b) ++ c = a ++ (b ++ c))%string.
Proof.
  induction a as [|x a IH]; [done|]. rewrite !append_cons. by rewrite IH.
Qed.

Lemma replace_digits f ds : forall acc rest,
  all_digits ds = true -> non_empty (acc ++ ds) = true ->
  replace_placeholders f (InBrace acc) (ds ++ String "}" rest)
  = (f (acc ++ ds) ++ replace_placeholders f Outside rest)%string.
Proof.
  induction ds as [|c ds IH]; intros acc rest Hd Hne.
  - rewrite append_empty_r in *. rewrite append_empty_l. simpl.
    change (is_close "}") with true. by rewrite Hne.
  - simpl in Hd. apply andb_true_iff in Hd as [Hc Hd].
    rewrite append_cons. simpl. rewrite Hc.
    rewrite IH; rewrite ?append_assoc_char; auto.
Qed.

(** A placeholder after brace-free text is replaced by the callback's
    result, and the scan goes on after it. *)
Lemma replace_hole f lit ds rest :
  no_open lit -> all_digits ds = true -> ds <> EmptyString ->
  replace_placeholders f Outside (lit ++ String "{" (ds ++ String "}" rest))
  = (lit ++ f ds ++ replace_placeholders f Outside rest)%string.
Proof.
  intros Hlit Hd Hne. induction lit as [|c lit IH].
  - rewrite !append_empty_l. simpl. change (is_open "{") with true. cbv iota.
    rewrite replace_digits; auto.
    rewrite append_empty_l. by destruct ds.
  - destruct Hlit as [Hc Hlit]. rewrite !append_cons. simpl. rewrite Hc.
    by rewrite IH.
Qed.

(** Text without an opening brace is copied. *)
Lemma replace_no_open f lit :
  no_open lit -> replace_placeholders f Outside lit = lit.
Proof.
  induction lit as [|c lit IH]; [done|]. intros [Hc Hlit].
  simpl. rewrite Hc. by rewrite IH.
Qed.

Lemma render_matched pr h target values m nm :
  Forall (resolved h target) values ->
  render pr h target (Cond values m nm)
  = replace_placeholders
      (placeholder pr h (map (fun p => recursiveSelect h (PathStr p) target) values))
      Outside m.
Proof.
  intros Hall. unfold render.
  assert (Forall (fun t => t <> VUndefined)
            (map (fun p => recursiveSelect h (PathStr p) target) values)) as H.
  { apply Forall_map. exact Hall. }
  rewrite (filter_all _ _ H). rewrite length_map, Nat.eqb_refl. done.
Qed.

Lemma render_fallback pr h target values m nm :
  ~ Forall (resolved h target) values ->
  render pr h target (Cond values m nm) = nm.
Proof.
  intros Hall. unfold render.
  destruct (Nat.eqb_spec
    (length (filter (fun t => t <> VUndefined)
               (map (fun p => recursiveSelect h (PathStr p) target) values)))
    (length values)) as [E|E]; [|done].
  exfalso. apply Hall.
  rewrite <- (length_map (fun p => recursiveSelect h (PathStr p) target)) in E.
  apply length_filter_all in E. clear Hall.
  induction values as [|p values IH]; [constructor|].
  simpl in E. inversion E; subst. constructor; [assumption|by apply IH].
Qed.

Lemma placeholder_spec pr h vs ds :
  placeholder pr h vs ds =
    match vs !! N.to_nat (digits_value 0 ds) with
    | Some v => if truthy v then to_string pr h v else unknownReplacement
    | None => unknownReplacement
    end.
Proof. unfold placeholder. by destruct (vs !! _). Qed.

End TextMapperFacts.

(** C9, as the code has it: [processTextMapper] joins the rendered
    fragments with single spaces; a literal fragment is copied; a
    conditional fragment whose paths all resolve to a defined value has
    each placeholder [{i}] of its template replaced by the [i]-th resolved
    value, or by the marker [<unknown>] when [i] is out of range or that
    value is falsy (0, the empty string, [null], [false]); a conditional
    fragment with an unresolved path renders its fallback.  Since the
    literal of the example rules starts with a space, they yield
    ["John  yeahhhhh"] and ["missing  yeahhhhh"], with two spaces. *)
Theorem processTextMapper_renders
    (pr : JS.heap -> JS.value -> string) (h : JS.heap) (target : JS.value) :
  (forall rules,
      TextMapper.processTextMapper pr h (Some rules) target
      = TextMapper.join " " (map (TextMapper.render pr h target) rules)) /\
  (forall s, TextMapper.render pr h target (TextMapper.Literal s) = s) /\
  (forall values m nm,
      Forall (Predicates.resolved h target) values ->
      TextMapper.render pr h target (TextMapper.Cond values m nm)
      = TextMapper.replace_placeholders
          (TextMapper.placeholder pr h
             (map (fun p => Select.recursiveSelect h (JS.PathStr p) target) values))
          TextMapper.Outside m) /\
  (forall values m nm,
      ~ Forall (Predicates.resolved h target) values ->
      TextMapper.render pr h target (TextMapper.Cond values m nm) = nm) /\
  (forall f lit ds rest,
      Predicates.no_open lit -> JS.all_digits ds = true -> ds <> EmptyString ->
      TextMapper.replace_placeholders f TextMapper.Outside
        (lit ++ String "{" (ds ++ String "}" rest))
      = (lit ++ f ds ++ TextMapper.replace_placeholders f TextMapper.Outside rest)%string) /\
  (forall f lit,
      Predicates.no_open lit ->
      TextMapper.replace_placeholders f TextMapper.Outside lit = lit) /\
  (forall vs ds,
      TextMapper.placeholder pr h vs ds
      = match vs !! N.to_nat (JS.digits_value 0 ds) with
        | Some v => if JS.truthy v then JS.to_string pr h v
                    else TextMapper.unknownReplacement
        | None => TextMapper.unknownReplacement
        end) /\
  TextMapper.processTextMapper pr [JS.Obj [("name", JS.VString "John")]]
    (Some [TextMapper.Cond ["name"] "{0}" "missing"; TextMapper.Literal " yeahhhhh"])
    (JS.VObject 0%nat)
  = "John  yeahhhhh" /\
  TextMapper.processTextMapper pr [JS.Obj []]
    (Some [TextMapper.Cond ["name"] "{0}" "missing"; TextMapper.Literal " yeahhhhh"])
    (JS.VObject 0%nat)
  = "missing  yeahhhhh".
Proof.
  repeat apply conj.
  - reflexivity.
  - reflexivity.
  - intros. by apply render_matched.
  - intros. by apply render_fallback.
  - intros. by apply replace_hole.
  - intros. by apply replace_no_open.
  - intros. apply placeholder_spec.
  - reflexivity.
  - reflexivity.
Qed.

Lemma processTextMapper_renders_witness :
  TextMapper.render JS.print_plain
    [JS.Obj [("age", JS.VNumber 26); ("name", JS.VString "John")]] (JS.VObject 0%nat)
    (TextMapper.Cond ["name"; "age"] "{0} is {1}" "missing")
  = "John is 26".
Proof.
  pose proof (processTextMapper_renders JS.print_plain
    [JS.Obj [("age", JS.VNumber 26); ("name", JS.VString "John")]] (JS.VObject 0%nat))
    as (_ & _ & Hm & _).
  rewrite Hm.
  - reflexivity.
  - repeat constructor; discriminate.
Defined.

(** C9 as stated fails twice: the example outputs have two spaces, and a
    resolved value that is falsy renders as the unknown-value marker
    although its index is in range. *)
Lemma processTextMapper_example_differs :
  TextMapper.processTextMapper JS.print_plain [JS.Obj [("name", JS.VString "John")]]
    (Some [TextMapper.Cond ["name"] "{0}" "missing"; TextMapper.Literal " yeahhhhh"])
    (JS.VObject 0%nat)
  <> "John yeahhhhh" /\
  TextMapper.processTextMapper JS.print_plain [JS.Obj []]
    (Some [TextMapper.Cond ["name"] "{0}" "missing"; TextMapper.Literal " yeahhhhh"])
    (JS.VObject 0%nat)
  <> "missing yeahhhhh" /\
  TextMapper.processTextMapper JS.print_plain [JS.Obj [("age", JS.VNumber 0)]]
    (Some [TextMapper.Cond ["age"] "{0}" "missing"]) (JS.VObject 0%nat)
  = "<unknown>".
Proof. split; [|split]; [intros H; vm_compute in H; discriminate..|reflexivity]. Qed.

(** ** Request Batcher *)

Section BatcherFacts.
Import Batcher BatcherPredicates.
Context {T C : Type}.
Variable truthyT : T -> bool.
Variable periodInMs : Z.

#[local] Open Scope list_scope.

#[local] Abbreviation P := (timeoutPeriod periodInMs).

(** Inside the window that follows a flush, [set] only restarts the
    timer. *)
Lemma set_in_window (s : state T C) l now item cb :
  lastUpdated s = Some l -> l <= now < l + P ->
  set_method truthyT periodInMs now item cb s
  = State (Some (now + P)) true (push_item truthyT item (batched s)) (Some l)
          (push_cb cb (pendingCallbacks s)) (calls s).
Proof.
  intros Hl Hnow. unfold set_method, flush_now. simpl. rewrite Hl. simpl.
  replace (P <=? now - l) with false by (symmetry; apply Z.leb_gt; lia).
  replace (P * 10 <? now - l) with false by (symmetry; apply Z.ltb_ge; lia).
  by rewrite andb_false_r.
Qed.

Lemma advance_not_due (s : state T C) now :
  live s = false \/ (exists d, timeout s = Some d /\ now < d) ->
  advance now s = s.
Proof.
  unfold advance. intros [Hl|(d & -> & Hd)].
  - rewrite Hl. by destruct (timeout s).
  - replace (d <=? now) with false by (symmetry; apply Z.leb_gt; lia).
    by rewrite andb_false_r.
Qed.

Lemma push_item_filter (x : T) q :
  push_item truthyT (Some x) q = q ++ filter (fun x => truthyT x = true) [x].
Proof.
  simpl. rewrite filter_cons, filter_nil.
  destruct (truthyT x); simpl; [done|]. by rewrite app_nil_r.
Qed.

Lemma push_cb_omap (a : Z * T * option C) q :
  push_cb a.2 q = q ++ omap (fun a => a.2) [a].
Proof. simpl. destruct a.2; simpl; [done|]. by rewrite app_nil_r. Qed.

Lemma flush_now_spec (s : state T C) now :
  flush_now periodInMs now s = true <-> flush_condition periodInMs now s.
Proof.
  unfold flush_now, flush_condition, elapsed_ge, elapsed_gt, at_least, more_than.
  fold P. rewrite orb_true_iff, andb_true_iff, bool_decide_eq_true.
  destruct (lastUpdated s) as [l|]; [|tauto].
  by rewrite Z.leb_le, Z.ltb_lt.
Qed.

Lemma locked_run_app sched1 sched2 (b : locked_batcher (T := T) (C := C)) :
  locked_run truthyT periodInMs (sched1 ++ sched2) b
  = locked_run truthyT periodInMs sched2 (locked_run truthyT periodInMs sched1 b).
Proof.
  revert b. induction sched1 as [|[now e] sched1 IH]; intros b; [done|].
  cbn [app locked_run]. apply IH.
Qed.

Lemma complete_free n now (s : state T C) rej :
  locked_run truthyT periodInMs (replicate n (now, Complete)) (Lock.Locked None s rej)
  = Lock.Locked None s rej.
Proof. induction n as [|n IH]; [done|]. cbn [replicate locked_run]. exact IH. Qed.

(** While a call holds the lock, further calls of [set] wait, up to
    [maxPending] of them; the others are rejected. *)
Lemma invoke_waiting now (cs : list (T * option C)) : forall q (s : state T C) rej,
  locked_run truthyT periodInMs
    (map (fun c => (now, Invoke (OpSet (Some c.1) c.2))) cs) (Lock.Locked (Some q) s rej)
  = Lock.Locked
      (Some (q ++ map (fun c => (Some c.1, c.2)) (take (Lock.maxPending - length q) cs)))
      s
      (rej ++ map (fun c => (Some c.1, c.2)) (drop (Lock.maxPending - length q) cs)).
Proof.
  induction cs as [|c cs IH]; intros q s rej.
  - by rewrite take_nil, drop_nil, !app_nil_r.
  - cbn [map locked_run locked_step Lock.waiting]. unfold Batcher.set, Lock.lockMethod.
    cbn [Lock.waiting Lock.inner Lock.rejected].
    destruct (Lock.maxPending <=? length q)%nat eqn:E.
    + apply Nat.leb_le in E. rewrite IH.
      replace (Lock.maxPending - length q)%nat with 0%nat by lia.
      rewrite take_0, drop_0. cbn [map]. by rewrite <- app_assoc.
    + apply Nat.leb_gt in E. rewrite IH. rewrite length_app. cbn [length].
      destruct (Lock.maxPending - length q)%nat as [|k] eqn:Ek; [lia|].
      replace (Lock.maxPending - (length q + 1))%nat with k by lia.
      cbn [take drop map]. by rewrite <- app_assoc.
Qed.

(** Inside the window, the method of [set] runs for every waiting call
    and only moves the timer. *)
Lemma complete_waiting l now (cs : list (T * option C)) : forall n (s : state T C) rej,
  lastUpdated s = Some l -> l <= now < l + P ->
  timeout s = Some (now + P) -> live s = true ->
  (length cs < n)%nat ->
  locked_run truthyT periodInMs (replicate n (now, Complete))
    (Lock.Locked (Some (map (fun c => (Some c.1, c.2)) cs)) s rej)
  = Lock.Locked None
      (State (Some (now + P)) true
         (batched s ++ items_of truthyT (map (fun c => (now, c.1, c.2)) cs)) (Some l)
         (pendingCallbacks s ++ waiters_of (map (fun c => (now, c.1, c.2)) cs))
         (calls s))
      rej.
Proof.
  induction cs as [|c cs IH]; intros n s rej Hl Hnow Ht Hlive Hn.
  - destruct n as [|n]; [cbn in Hn; lia|].
    cbn [map replicate locked_run locked_step Lock.handover Lock.waiting
         Lock.inner Lock.rejected].
    rewrite complete_free. unfold items_of, waiters_of. cbn [map omap list_omap].
    rewrite filter_nil, !app_nil_r. destruct s. cbn in *. by subst.
  - destruct n as [|n]; [cbn in Hn; lia|].
    cbn [map replicate locked_run locked_step Lock.handover Lock.waiting
         Lock.inner Lock.rejected].
    unfold locked_method. cbn [fst snd].
    rewrite (set_in_window s l) by done.
    rewrite IH by (done || cbn in Hn; lia).
    cbn [batched pendingCallbacks calls]. f_equal. f_equal.
    + unfold items_of. rewrite push_item_filter, <- app_assoc. cbn [map].
      f_equal. rewrite !filter_cons, filter_nil. cbn [fst snd].
      by destruct (decide (truthyT c.1 = true)).
    + unfold waiters_of. rewrite (push_cb_omap (now, c.1, c.2)), <- app_assoc.
      f_equal. cbn [omap list_omap snd]. by destruct c.2.
Qed.

(** A turn inside the window: the method runs for the first
    [maxPending + 1] calls, which leaves them in the queue behind one
    timer, and the other calls are rejected. *)
Lemma turn_in_window l now (c : T * option C) cs (s : state T C) rej :
  lastUpdated s = Some l -> l <= now < l + P ->
  live s = false \/ (exists d, timeout s = Some d /\ l + P <= d) ->
  let ran := map (fun c => (now, c.1, c.2)) (take (S Lock.maxPending) (c :: cs)) in
  locked_run truthyT periodInMs (turn now (c :: cs)) (Lock.Locked None s rej)
  = Lock.Locked None
      (State (Some (now + P)) true (batched s ++ items_of truthyT ran) (Some l)
         (pendingCallbacks s ++ waiters_of ran) (calls s))
      (rej ++ map (fun c => (Some c.1, c.2)) (drop (S Lock.maxPending) (c :: cs))).
Proof.
  intros Hl Hnow Hlive ran. unfold turn. cbn [map app locked_run locked_step Lock.waiting].
  unfold on_inner. cbn [Lock.waiting Lock.inner Lock.rejected].
  rewrite advance_not_due.
  2:{ destruct Hlive as [?|(d & ? & ?)]; [by left|right]. exists d. split; [done|lia]. }
  unfold Batcher.set, Lock.lockMethod, locked_method.
  cbn [Lock.waiting Lock.inner Lock.rejected fst snd].
  rewrite (set_in_window s l) by done.
  rewrite locked_run_app, invoke_waiting. cbn [length app]. rewrite Nat.sub_0_r.
  rewrite complete_waiting with (l := l); cbn [lastUpdated timeout live]; try done.
  2:{ cbn [length]. rewrite length_take. lia. }
  cbn [batched pendingCallbacks calls]. subst ran. cbn [take drop map].
  f_equal. f_equal.
  - unfold items_of. rewrite push_item_filter, <- app_assoc. cbn [map].
    f_equal. rewrite !filter_cons, filter_nil. cbn [fst snd].
    by destruct (decide (truthyT c.1 = true)).
  - unfold waiters_of. rewrite (push_cb_omap (now, c.1, c.2)), <- app_assoc.
    f_equal. cbn [omap list_omap snd]. by destruct c.2.
Qed.

Lemma items_of_app (a1 a2 : list (Z * T * option C)) :
  items_of truthyT (a1 ++ a2) = items_of truthyT a1 ++ items_of truthyT a2.
Proof. unfold items_of. by rewrite map_app, filter_app. Qed.

Lemma waiters_of_app (a1 a2 : list (Z * T * option C)) :
  waiters_of (a1 ++ a2) = waiters_of a1 ++ waiters_of a2.
Proof. unfold waiters_of. by rewrite omap_app. Qed.

Lemma turns_cons now cs (groups : list (Z * list (T * option C))) :
  turns ((now, cs) :: groups) = turn now cs ++ turns groups.
Proof. reflexivity. Qed.

Lemma admitted_cons now cs (groups : list (Z * list (T * option C))) :
  admitted ((now, cs) :: groups)
  = map (fun c => (now, c.1, c.2)) (take (S Lock.maxPending) cs) ++ admitted groups.
Proof. reflexivity. Qed.

Lemma turned_away_cons now cs (groups : list (Z * list (T * option C))) :
  turned_away ((now, cs) :: groups)
  = map (fun c => (Some c.1, c.2)) (drop (S Lock.maxPending) cs) ++ turned_away groups.
Proof. reflexivity. Qed.

(** Turns inside the window leave one timer, that of the last call for
    which the method ran, and everything admitted in the queue. *)
Lemma turns_in_window l : forall (groups : list (Z * list (T * option C)))
    (s : state T C) rej,
  lastUpdated s = Some l ->
  live s = false \/ (exists d, timeout s = Some d /\ l + P <= d) ->
  Forall (fun g => l <= g.1 < l + P) groups ->
  locked_run truthyT periodInMs (turns groups) (Lock.Locked None s rej)
  = Lock.Locked None
      match last (admitted groups) with
      | Some a0 =>
          State (Some (a0.1.1 + P)) true (batched s ++ items_of truthyT (admitted groups))
                (Some l) (pendingCallbacks s ++ waiters_of (admitted groups)) (calls s)
      | None => s
      end
      (rej ++ turned_away groups).
Proof.
  induction groups as [|[now cs] groups IH]; intros s rej Hl Hlive Hwin.
  - cbn. by rewrite app_nil_r.
  - apply Forall_cons in Hwin as [Hnow Hwin]. cbn [fst] in Hnow.
    rewrite turns_cons, admitted_cons, turned_away_cons.
    destruct cs as [|c cs].
    + cbn [turn map length replicate app take drop]. by apply IH.
    + rewrite locked_run_app, (turn_in_window l) by done.
      rewrite IH; cbn [lastUpdated live timeout]; [|done| |done].
      2:{ right. exists (now + P). split; [done|lia]. }
      cbn [batched pendingCallbacks calls]. rewrite <- !app_assoc. f_equal.
      set (ran := map (fun c0 : T * option C => (now, c0.1, c0.2))
                    (take (S Lock.maxPending) (c :: cs))).
      destruct (admitted groups) as [|a rest] eqn:Ea.
      * rewrite !app_nil_r. cbn [last].
        assert (exists a0, last ran = Some a0 /\ a0.1.1 = now) as (a0 & -> & ->); [|done].
        subst ran. cbn [take map].
        generalize (take Lock.maxPending cs). intros tl.
        revert c. induction tl as [|c' tl IHt]; intros c; [by eexists|].
        cbn [map]. rewrite last_cons_cons. apply IHt.
      * rewrite last_app, items_of_app, waiters_of_app.
        destruct (last (a :: rest)) as [a0|] eqn:El; [done|].
        by apply last_None in El.
Qed.

End BatcherFacts.

(** C1, as the code has it.  A call of [set] goes through the lock: on a
    free lock its method runs at once; while a call holds the lock it
    waits, and the method runs for it when the calls before it have
    completed; when [maxPending] (1000) calls wait already it is
    rejected, and neither its item nor its callback is queued.  When the
    method runs, it queues the item and the callback and flushes at once
    exactly when a timer handle exists (it is never reset once a timer
    has been created) and at least [period + 7] ms have elapsed since the
    last flush, or when more than [10 * (period + 7)] ms have elapsed
    since the last flush, which always holds before the first flush;
    otherwise it restarts the timer, due [period + 7] ms later.  The
    timer is left scheduled by an immediate flush.  On a batcher that is
    idle and has flushed at time [l], groups of concurrent [set] calls
    that all arrive in the window [[l, l + period + 7)] produce exactly
    one bulk invocation, made when the timer of the last call expires,
    with the (truthy) items in arrival order of the first 1001 calls of
    each group; the calls beyond the 1001st of a group are rejected. *)
Theorem batcher_flush_decision_and_coalescing
    {T C : Type} (truthyT : T -> bool) (periodInMs : Z) :
  (forall (s : Batcher.state T C) now item cb,
      BatcherPredicates.flush_condition periodInMs now s ->
      Batcher.set_method truthyT periodInMs now item cb s
      = Batcher.State (Batcher.timeout s) (Batcher.live s) [] (Some now) []
          (Batcher.calls s
             ++ [Batcher.Call now
                   (Batcher.push_item truthyT item (Batcher.batched s))
                   (Batcher.push_cb cb (Batcher.pendingCallbacks s))])%list) /\
  (forall (s : Batcher.state T C) now item cb,
      ~ BatcherPredicates.flush_condition periodInMs now s ->
      Batcher.set_method truthyT periodInMs now item cb s
      = Batcher.State (Some (now + (periodInMs + 7))) true
          (Batcher.push_item truthyT item (Batcher.batched s))
          (Batcher.lastUpdated s)
          (Batcher.push_cb cb (Batcher.pendingCallbacks s))
          (Batcher.calls s)) /\
  (forall (s : Batcher.state T C) rejected now item cb,
      Batcher.set truthyT periodInMs now item cb (Lock.Locked None s rejected)
      = Lock.Locked (Some []) (Batcher.set_method truthyT periodInMs now item cb s) rejected
      /\ forall q,
           Batcher.set truthyT periodInMs now item cb (Lock.Locked (Some q) s rejected)
           = (if decide (Lock.maxPending <= length q)%nat
              then Lock.Locked (Some q) s (rejected ++ [(item, cb)])
              else Lock.Locked (Some (q ++ [(item, cb)])) s rejected)%list
           /\ Batcher.locked_step truthyT periodInMs now Batcher.Complete
                (Lock.Locked (Some ((item, cb) :: q)) s rejected)
              = Lock.Locked (Some q)
                  (Batcher.set_method truthyT periodInMs now item cb s) rejected) /\
  (forall (s : Batcher.state T C) rejected l groups a0,
      Batcher.lastUpdated s = Some l ->
      Batcher.live s = false ->
      Batcher.batched s = [] ->
      Batcher.pendingCallbacks s = [] ->
      Forall (fun g => l <= g.1 < l + (periodInMs + 7)) groups ->
      last (BatcherPredicates.admitted groups) = Some a0 ->
      let b' := Batcher.locked_run truthyT periodInMs (Batcher.turns groups)
                  (Lock.Locked None s rejected) in
      Lock.waiting b' = None
      /\ Batcher.calls (Batcher.settle (Lock.inner b'))
         = (Batcher.calls s
              ++ [Batcher.Call (a0.1.1 + (periodInMs + 7))
                    (BatcherPredicates.items_of truthyT (BatcherPredicates.admitted groups))
                    (BatcherPredicates.waiters_of (BatcherPredicates.admitted groups))])%list
      /\ Lock.rejected b' = (rejected ++ BatcherPredicates.turned_away groups)%list).
Proof.
  split; [|split; [|split]].
  - intros s now item cb Hf. unfold Batcher.set_method.
    match goal with |- (if Batcher.flush_now _ _ ?s1 then _ else _) = _ =>
      replace (Batcher.flush_now periodInMs now s1) with true
        by (symmetry; apply flush_now_spec; exact Hf) end.
    reflexivity.
  - intros s now item cb Hf. unfold Batcher.set_method.
    match goal with |- (if Batcher.flush_now _ _ ?s1 then _ else _) = _ =>
      replace (Batcher.flush_now periodInMs now s1) with false
        by (symmetry; apply not_true_is_false; rewrite flush_now_spec; exact Hf) end.
    reflexivity.
  - intros s rejected now item cb. split; [done|]. intros q. split; [|done].
    unfold Batcher.set, Lock.lockMethod. cbn [Lock.waiting Lock.inner Lock.rejected].
    destruct (Nat.leb_spec Lock.maxPending (length q)); case_decide; (done || lia).
  - intros s rejected l groups a0 Hl Hlive Hq Hcb Hwin Hlast b'.
    unfold b'.
    rewrite (turns_in_window truthyT periodInMs l groups s rejected Hl (or_introl Hlive) Hwin).
    rewrite Hlast, Hq, Hcb. done.
Qed.

Lemma batcher_flush_decision_and_coalescing_witness :
  let groups : list (Z * list (Z * option nat)) :=
    [(1010, map (fun i => (Z.of_nat i, Some i)) (seq 1 50))] in
  let s : Batcher.state Z nat := Batcher.State (Some 907) false [] (Some 1000) [] [] in
  let b' := Batcher.locked_run (fun z => negb (z =? 0)) 300 (Batcher.turns groups)
              (Lock.Locked None s []) in
  Lock.waiting b' = None
  /\ Batcher.calls (Batcher.settle (Lock.inner b'))
     = [Batcher.Call 1317 (map Z.of_nat (seq 1 50)) (seq 1 50)]
  /\ Lock.rejected b' = [].
Proof.
  intros groups s.
  pose proof (batcher_flush_decision_and_coalescing
                (T := Z) (C := nat) (fun z => negb (z =? 0)) 300) as (_ & _ & _ & H).
  apply (H s [] 1000 groups (1010, 50, Some 50%nat)).
  - reflexivity.
  - reflexivity.
  - reflexivity.
  - reflexivity.
  - repeat constructor; cbn; lia.
  - reflexivity.
Defined.

(** C1 as stated fails on a batcher that has not flushed yet: the first
    of fifty concurrent [set] calls flushes at once, although no timer
    is pending, so the bulk callback is invoked twice, first with one
    item and then with the other forty-nine.  No call is rejected. *)
Lemma batcher_fresh_burst_two_calls :
  let calls : list (Z * option nat) := map (fun i => (Z.of_nat i, None)) (seq 1 50) in
  let b' := Batcher.locked_run (fun z => negb (z =? 0)) 300 (Batcher.turn 1000 calls)
              (Batcher.new_batcher (T := Z) (C := nat)) in
  Batcher.calls (Batcher.settle (Lock.inner b'))
  = [Batcher.Call 1000 [1] []; Batcher.Call 1307 (map Z.of_nat (seq 2 49)) []]
  /\ Lock.rejected b' = []
  /\ Batcher.timeout (Batcher.createBatcher (T := Z) (C := nat)) = None.
Proof. repeat split; reflexivity. Qed.

(** Of 1002 concurrent [set] calls the last one is rejected: its item is
    not passed to the bulk callback. *)
Lemma batcher_burst_beyond_lock_limit :
  let calls : list (Z * option nat) := map (fun i => (Z.of_nat i, None)) (seq 1 1002) in
  let s : Batcher.state Z nat := Batcher.State (Some 907) false [] (Some 1000) [] [] in
  let b' := Batcher.locked_run (fun z => negb (z =? 0)) 300 (Batcher.turn 1010 calls)
              (Lock.Locked None s []) in
  Batcher.calls (Batcher.settle (Lock.inner b'))
  = [Batcher.Call 1317 (map Z.of_nat (seq 1 1001)) []]
  /\ Lock.rejected b' = [(Some 1002, None)].
Proof. vm_compute. split; reflexivity. Qed.

(** ** Cyclic-safe recursive lookup *)

Section LookupFacts.
Import JS Lookup Graph.
#[local] Open Scope list_scope.
#[local] Open Scope nat_scope.

Variable string_to_number : string -> option Z.

#[local] Abbreviation lookup := (Lookup.lookup string_to_number).

Lemma setParent_miss h root target m :
  truthy (result m) = false -> setParent h root target m = Some h.
Proof. intros H. unfold setParent. by rewrite H. Qed.

(** A visit that finds nothing leaves the store as it was. *)
Lemma lookup_miss_heap fuel : forall h segs k target parent root seen h' m,
  lookup fuel h segs k target parent root seen = Some (Done h' m) ->
  truthy (result m) = false -> h' = h.
Proof.
  induction fuel as [|fuel IH]; intros h segs k target parent root seen h' m; [done|].
  cbn [Lookup.lookup].
  destruct (bool_decide _); [by intros [= <- <-]|].
  destruct target as [| |b|n|s|a|f].
  1,2: by intros [= <- <-].
  4:{ (* objects and arrays *)
    destruct (deref h a) as [ps|elems ps].
    - destruct (Lookup.lookup _ fuel h _ _ _ _ _ _) as [[h1 m1|h1]|] eqn:E; [|done..].
      destruct (setParent h1 root (VObject a) m1) as [h2|] eqn:E2; [|done].
      intros [= <- <-] Hm. rewrite setParent_miss in E2 by done.
      injection E2 as <-. by eapply IH.
    - destruct (negb _); [by intros [= <- <-]|].
      match goal with |- context [first_match ?f elems h] =>
        assert (forall items h1 r,
                   first_match f items h = Some (Done h1 r) ->
                   (r = None -> h1 = h) /\
                   (forall m1, r = Some m1 -> truthy (result m1) = true)) as Hloop end.
      { induction items as [|item items IHi]; intros h1 r; cbn [first_match].
        - intros [= <- <-]. by split.
        - destruct (Lookup.lookup _ fuel h _ _ _ _ _ _) as [[h2 m2|h2]|] eqn:E; [|done..].
          destruct (truthy (result m2)) eqn:Et.
          + intros [= <- <-]. split; [done|]. by intros ? [= <-].
          + apply IH in E as ->; [|done]. apply IHi. }
      destruct (first_match _ elems h) as [[h1 [m1|]|h1]|] eqn:E; [| |done..].
      + destruct (setParent h1 root (VObject a) m1) as [h2|]; [|done].
        intros [= <- <-] Hm. apply Hloop in E as [_ E]. specialize (E _ eq_refl).
        congruence.
      + intros [= <- <-] _. apply Hloop in E as [E _]. by apply E. }
  all: destruct segs; [|by intros [= <- <-]].
  all: destruct (_ && _); [|by intros [= <- <-]].
  all: destruct (surfaceClone _ _) as [h1 res] eqn:Ec.
  all: destruct (assign h1 res _ _) as [h2|] eqn:Ea; [|done].
  all: intros [= <- <-] Hm; cbn [result] in Hm.
  all: destruct (truthy parent) eqn:Ep.
  all: destruct parent; try discriminate Ep; cbn in Ec;
       try (destruct (deref h _)); injection Ec as <- <-; try discriminate Ea;
       try discriminate Hm.
Qed.

Lemma unseen_le h seen : unseen h seen <= length h.
Proof.
  unfold unseen. etransitivity; [apply length_filter|]. by rewrite length_seq.
Qed.

Lemma length_filter_mono {A} (P Q : A -> Prop)
    `{!forall x, Decision (P x)} `{!forall x, Decision (Q x)} (l : list A) :
  (forall x, P x -> Q x) -> length (filter P l) <= length (filter Q l).
Proof.
  intros HPQ. induction l as [|x l IHl]; [done|].
  rewrite !filter_cons. destruct (decide (P x)) as [Hp|Hp].
  - destruct (decide (Q x)) as [Hq|Hq]; [simpl; lia|]. destruct Hq. by apply HPQ.
  - destruct (decide (Q x)); simpl; lia.
Qed.

Lemma length_filter_strict {A} (P Q : A -> Prop)
    `{!forall x, Decision (P x)} `{!forall x, Decision (Q x)} (l : list A) a :
  (forall x, P x -> Q x) -> a ∈ l -> Q a -> ~ P a ->
  length (filter P l) < length (filter Q l).
Proof.
  intros HPQ Ha Hq Hp. induction l as [|x l IHl]; [by apply elem_of_nil in Ha|].
  rewrite !filter_cons. apply elem_of_cons in Ha as [<-|Ha].
  - destruct (decide (P a)); [done|]. destruct (decide (Q a)); [|done].
    pose proof (length_filter_mono P Q l HPQ). simpl. lia.
  - specialize (IHl Ha). destruct (decide (P x)) as [Hpx|Hpx].
    + destruct (decide (Q x)) as [Hqx|Hqx]; [simpl; lia|]. destruct Hqx. by apply HPQ.
    + destruct (decide (Q x)); simpl; lia.
Qed.

(** Visiting an object of the store that was not visited yet leaves
    fewer objects to visit. *)
Lemma unseen_push h seen a :
  a < length h -> VObject a ∉ seen ->
  unseen h (seen ++ [VObject a]) < unseen h seen.
Proof.
  intros Ha Hn. unfold unseen.
  apply (length_filter_strict _ _ _ a).
  - intros x Hx Hin. apply Hx. apply elem_of_app. by left.
  - apply elem_of_seq. lia.
  - done.
  - intros Hx. apply Hx. apply elem_of_app. right. by apply list_elem_of_singleton.
Qed.

Lemma first_match_total visit items h :
  (forall item, is_Some (visit h item)) ->
  (forall item h' m, visit h item = Some (Done h' m) ->
                     truthy (result m) = false -> h' = h) ->
  is_Some (first_match visit items h).
Proof.
  intros Hv Hm. induction items as [|item items IHi]; cbn [first_match]; [done|].
  destruct (Hv item) as [[h' m|h'] E]; rewrite E; [|done].
  destruct (truthy (result m)) eqn:Et; [done|].
  by rewrite (Hm _ _ _ E Et).
Qed.

(** The recursion is bounded by the length of the pattern plus the
    number of objects of the store not yet on the visited list. *)
Lemma lookup_total fuel : forall h segs k target parent root seen,
  length segs + unseen h seen + 2 <= fuel ->
  is_Some (lookup fuel h segs k target parent root seen).
Proof.
  induction fuel as [|fuel IH]; intros h segs k target parent root seen Hfuel; [lia|].
  cbn [Lookup.lookup].
  destruct (bool_decide _) eqn:Eseen; [done|].
  apply bool_decide_eq_false in Eseen.
  destruct target as [| |b|n|s|a|f]; try done.
  - destruct segs; [|done]. destruct (_ && _); [|done].
    destruct (surfaceClone _ _) as [h1 res]. by destruct (assign _ _ _ _).
  - destruct segs; [|done]. destruct (_ && _); [|done].
    destruct (surfaceClone _ _) as [h1 res]. by destruct (assign _ _ _ _).
  - destruct segs; [|done]. destruct (_ && _); [|done].
    destruct (surfaceClone _ _) as [h1 res]. by destruct (assign _ _ _ _).
  - (* an object or an array *)
    assert (forall child segs',
               length segs' <= length segs ->
               is_Some (h !! a) ->
               is_Some (lookup fuel h segs' k child (VObject a) (S root)
                          (seen ++ [VObject a]))) as Hrec.
    { intros child segs' Hlen [o Ho]. apply IH.
      pose proof (unseen_push h seen a (lookup_lt_Some _ _ _ Ho) Eseen). lia. }
    assert (length (tail segs) <= length segs) as Htl by (destruct segs; simpl; lia).
    cbv zeta. unfold deref. destruct (h !! a) as [o|] eqn:Ho; cbn [default from_option id].
    + destruct o as [ps|elems ps].
      * match goal with |- context [get h (VObject a) ?kk] =>
          set (child := match get h (VObject a) kk with Ok v => v | Throw => VUndefined end)
        end.
        destruct (Hrec child (tail segs) Htl (mk_is_Some _ _ eq_refl)) as [[h1 m1|h1] ->];
          [|done].
        by destruct (setParent _ _ _ _).
      * destruct (negb _); [done|].
        match goal with |- context [first_match ?f elems h] =>
          destruct (first_match_total f elems h) as [[h1 [m1|]|h1] ->] end; try done.
        -- intros item. apply Hrec; [done|by eexists].
        -- intros item h' m E Et. by eapply lookup_miss_heap.
        -- by destruct (setParent _ _ _ _).
    + (* a reference outside the store reads as an empty object *)
      assert (get h (VObject a) (match head segs with
                                 | Some seg => if String.eqb seg "[value]"
                                               then key_to_property k else seg
                                 | None => "undefined" end) = Ok VUndefined) as ->.
      { unfold get, deref. by rewrite Ho. }
      destruct fuel as [|fuel]; [lia|]. cbn [Lookup.lookup].
      destruct (bool_decide _); by cbn.
  - destruct segs; [|done]. destruct (_ && _); [|done].
    destruct (surfaceClone _ _) as [h1 res]. by destruct (assign _ _ _ _).
Qed.

Lemma first_match_mono visit visit' items : forall (h : heap) r,
  (forall h item x, visit h item = Some x -> visit' h item = Some x) ->
  first_match visit items h = Some r -> first_match visit' items h = Some r.
Proof.
  induction items as [|item items IHi]; intros h r Hv; cbn [first_match]; [done|].
  destruct (visit h item) as [[h' m|h']|] eqn:E; [| |done]; rewrite (Hv _ _ _ E).
  - destruct (truthy (result m)); [done|]. by apply IHi.
  - done.
Qed.

(** More fuel does not change the outcome. *)
Lemma lookup_fuel_mono fuel : forall fuel' h segs k target parent root seen r,
  fuel <= fuel' ->
  lookup fuel h segs k target parent root seen = Some r ->
  lookup fuel' h segs k target parent root seen = Some r.
Proof.
  induction fuel as [|fuel IH]; intros fuel' h segs k target parent root seen r Hle; [done|].
  destruct fuel' as [|fuel']; [lia|]. cbn [Lookup.lookup].
  destruct (bool_decide _); [done|].
  destruct target as [| |b|n|s|a|f]; try done.
  cbv zeta. destruct (deref h a) as [ps|elems ps].
  - destruct (Lookup.lookup _ fuel h _ _ _ _ _ _) as [x|] eqn:E; [|done].
    by rewrite (IH fuel' _ _ _ _ _ _ _ _ ltac:(lia) E).
  - destruct (negb _); [done|].
    destruct (first_match _ elems h) as [x|] eqn:E; [|done].
    erewrite first_match_mono; [done| |exact E].
    intros h0 item y Hy. cbv beta in Hy |- *. apply (IH fuel'); [lia|done].
Qed.

End LookupFacts.

(** C5: [recursiveLookup] terminates on every input.  The recursion of
    [__recursiveLookup] is bounded by the length of the pattern plus the
    number of objects in the store, so the fuel given by [enough_fuel]
    never runs out, whatever the store (self-referential or not), the
    pattern, the value and the target, and more fuel does not change the
    outcome; a branch whose target is already on the visited list of its
    call chain (the same reference) is abandoned at once with a miss at
    that depth; and on [a = {}; a.self = a; a.v = 5] the search of pattern
    ["v"] for [5] returns a match at depth 1. *)
Theorem recursiveLookup_terminates (string_to_number : string -> option Z) :
  (forall h lookupMap k target,
      is_Some (Lookup.lookup string_to_number
                 (Lookup.enough_fuel h (Lookup.segments lookupMap)) h
                 (Lookup.segments lookupMap) k target JS.VUndefined 0 [])) /\
  (forall fuel h segs k target parent root seen,
      (length segs + Graph.unseen h seen + 2 <= fuel)%nat ->
      is_Some (Lookup.lookup string_to_number fuel h segs k target parent root seen)) /\
  (forall fuel fuel' h segs k target parent root seen r,
      (fuel <= fuel')%nat ->
      Lookup.lookup string_to_number fuel h segs k target parent root seen = Some r ->
      Lookup.lookup string_to_number fuel' h segs k target parent root seen = Some r) /\
  (forall fuel h segs k target parent root seen,
      target ∈ seen ->
      Lookup.lookup string_to_number (S fuel) h segs k target parent root seen
      = Some (Lookup.Done h (Lookup.Found root JS.VNull))) /\
  (let a := [JS.Obj [("self", JS.VObject 0%nat); ("v", JS.VNumber 5)]] in
   Lookup.recursiveLookup string_to_number a (JS.PathStr "v") (Lookup.KNum 5)
     (JS.VObject 0%nat)
   = ([JS.Obj [("self", JS.VObject 0%nat); ("v", JS.VNumber 5)];
       JS.Obj [("self", JS.VObject 0%nat); ("v", JS.VNumber 5);
               ("toJson", JS.VFunction "toJson"); ("__parent__", JS.VObject 2%nat)];
       JS.Obj [("self", JS.VObject 0%nat); ("v", JS.VNumber 5)]],
      Lookup.Found 1 (JS.VObject 1%nat))).
Proof.
  split; [|split; [|split; [|split]]].
  - intros h lookupMap k target. apply lookup_total.
    pose proof (unseen_le h []). unfold Lookup.enough_fuel. lia.
  - intros. by apply lookup_total.
  - intros. by eapply lookup_fuel_mono.
  - intros fuel h segs k target parent root seen Hseen. cbn [Lookup.lookup].
    by rewrite bool_decide_eq_true_2.
  - reflexivity.
Qed.

Lemma recursiveLookup_terminates_witness :
  Lookup.lookup Lookup.decimal_to_number 1
    [JS.Obj [("self", JS.VObject 0%nat)]] ["self"] (Lookup.KNum 5)
    (JS.VObject 0%nat) (JS.VObject 0%nat) 1 [JS.VObject 0%nat]
  = Some (Lookup.Done [JS.Obj [("self", JS.VObject 0%nat)]] (Lookup.Found 1 JS.VNull)).
Proof.
  apply (proj1 (proj2 (proj2 (proj2
           (recursiveLookup_terminates Lookup.decimal_to_number))))).
  apply list_elem_of_singleton. reflexivity.
Defined.

(** ** The record returned by a lookup *)

Section LookupRecordFacts.
Import JS Lookup Graph Record Hit.
#[local] Open Scope list_scope.
#[local] Open Scope nat_scope.

Variable string_to_number : string -> option Z.

#[local] Abbreviation lookup := (Lookup.lookup string_to_number).
#[local] Abbreviation loose_eq := (Lookup.loose_eq string_to_number).

Lemma assoc_set_eq k v ps : assoc k (assoc_set k v ps) = Some v.
Proof.
  induction ps as [|[k' v'] ps IH]; simpl.
  - by rewrite String.eqb_refl.
  - destruct (String.eqb k k') eqn:E; simpl.
    + by rewrite String.eqb_refl.
    + by rewrite E.
Qed.

Lemma assoc_set_ne k k' v ps : k <> k' -> assoc k (assoc_set k' v ps) = assoc k ps.
Proof.
  intros Hne. apply String.eqb_neq in Hne.
  induction ps as [|[k2 v2] ps IH]; simpl.
  - by rewrite Hne.
  - destruct (String.eqb k' k2) eqn:E; simpl.
    + apply String.eqb_eq in E as <-. by rewrite Hne.
    + by rewrite IH.
Qed.

Lemma assoc_elem k v ps : assoc k ps = Some v -> (k, v) ∈ ps.
Proof.
  induction ps as [|[k' v'] ps IH]; simpl; [done|].
  destruct (String.eqb k k') eqn:E.
  - apply String.eqb_eq in E as <-. intros [= <-]. apply elem_of_cons. by left.
  - intros H. apply elem_of_cons. right. by apply IH.
Qed.

Lemma elem_assoc_set kv k v ps :
  kv ∈ assoc_set k v ps -> kv ∈ ps \/ kv = (k, v).
Proof.
  induction ps as [|[k' v'] ps IH]; simpl.
  - intros ->%list_elem_of_singleton. by right.
  - destruct (String.eqb k k').
    + intros [->|H]%elem_of_cons; [by right|]. left. apply elem_of_cons. by right.
    + intros [->|H]%elem_of_cons; [left; apply elem_of_cons; by left|].
      destruct (IH H) as [?|?]; [|by right]. left. apply elem_of_cons. by right.
Qed.

Lemma refs_of_set_prop k v o b :
  b ∈ refs_of (set_prop k v o) -> b ∈ refs_of o \/ ref_of v = Some b.
Proof.
  assert (forall ps, b ∈ omap (fun p : string * value => ref_of p.2) (assoc_set k v ps) ->
                     b ∈ omap (fun p : string * value => ref_of p.2) ps
                     \/ ref_of v = Some b) as Hps.
  { intros ps (kv & Hkv & Hb)%list_elem_of_omap.
    apply elem_assoc_set in Hkv as [Hkv| ->]; [|by right].
    left. apply list_elem_of_omap. eauto. }
  destruct o as [ps|es ps]; simpl.
  - apply Hps.
  - intros [H|H]%elem_of_app.
    + left. apply elem_of_app. by left.
    + destruct (Hps _ H) as [?|?]; [|by right]. left. apply elem_of_app. by right.
Qed.

Lemma refs_of_copy o b : b ∈ refs_of (copy_of o) -> b ∈ refs_of o.
Proof.
  destruct o as [ps|es ps]; simpl; [done|].
  rewrite app_nil_r. intros H. apply elem_of_app. by left.
Qed.

Lemma surfaceClone_object h a :
  surfaceClone h (VObject a) = (h ++ [copy_of (deref h a)], VObject (length h)).
Proof. reflexivity. Qed.

Lemma clone_of_copy o : clone_of o (copy_of o).
Proof. destruct o as [ps|es ps]; simpl; [done|]. by split. Qed.

Lemma clone_of_set_prop o o' k v :
  synthetic k -> clone_of o o' -> clone_of o (set_prop k v o').
Proof.
  intros Hk. destruct o as [ps|es ps], o' as [ps'|es' ps']; simpl; try done.
  - intros H k' Hk'. rewrite assoc_set_ne; [by apply H|]. by intros ->.
  - intros [-> H]. split; [done|]. intros k' Hk'.
    rewrite assoc_set_ne; [by apply H|]. by intros ->.
Qed.

(** What [parent_of] reads is held by the object. *)
Lemma parent_of_edge h c b :
  parent_of h (VObject c) = VObject b -> edge h c b.
Proof.
  unfold parent_of, get, deref, edge.
  destruct (h !! c) as [o|] eqn:Ho; simpl; [|done].
  intros H. exists o. split; [done|].
  destruct o as [ps|es ps]; simpl in *.
  - destruct (assoc _ ps) as [v|] eqn:E; [|done]. simpl in H. subst v.
    apply list_elem_of_omap. exists ("__parent__", VObject b).
    split; [by apply assoc_elem|done].
  - destruct (assoc _ ps) as [v|] eqn:E; [|done]. simpl in H. subst v.
    apply elem_of_app. right.
    apply list_elem_of_omap. exists ("__parent__", VObject b).
    split; [by apply assoc_elem|done].
Qed.

Lemma parent_of_ext h h' c :
  h' !! c = h !! c -> parent_of h' (VObject c) = parent_of h (VObject c).
Proof. intros H. unfold parent_of, get, deref. by rewrite H. Qed.

Lemma parent_of_set h c o b :
  h !! c = Some o ->
  parent_of (alter (set_prop "__parent__" (VObject b)) c h) (VObject c) = VObject b.
Proof.
  intros Ho. unfold parent_of, get, deref.
  rewrite list_lookup_alter_eq, Ho. simpl.
  destruct o as [ps|es ps]; simpl; by rewrite assoc_set_eq.
Qed.

Lemma follow_parent_S h n v :
  follow_parent h (S n) v = parent_of h (follow_parent h n v).
Proof. revert v. induction n as [|n IH]; intros v; [done|]. simpl in *. by rewrite IH. Qed.

(** Along the [__parent__] chain of fresh objects the addresses grow. *)
Lemma chain_step_lt (h h' : heap) res B j cj cj' :
  (forall a b, length h <= a -> edge h' a b -> b < length h \/ a < b) ->
  (forall j, j <= B ->
     exists c, follow_parent h' j (VObject res) = VObject c /\ length h <= c < length h') ->
  S j <= B ->
  follow_parent h' j (VObject res) = VObject cj ->
  follow_parent h' (S j) (VObject res) = VObject cj' ->
  cj < cj'.
Proof.
  intros Hfresh Hchain Hj Hcj Hcj'.
  destruct (Hchain j ltac:(lia)) as (c & Hc & Hcb).
  destruct (Hchain (S j) Hj) as (c' & Hc' & Hcb').
  rewrite Hcj in Hc. injection Hc as <-. rewrite Hcj' in Hc'. injection Hc' as <-.
  rewrite follow_parent_S, Hcj in Hcj'. apply parent_of_edge in Hcj'.
  destruct (Hfresh _ _ (proj1 Hcb) Hcj'); lia.
Qed.

Lemma chain_lt (h h' : heap) res B d : forall i ci cj,
  (forall a b, length h <= a -> edge h' a b -> b < length h \/ a < b) ->
  (forall j, j <= B ->
     exists c, follow_parent h' j (VObject res) = VObject c /\ length h <= c < length h') ->
  i + S d <= B ->
  follow_parent h' i (VObject res) = VObject ci ->
  follow_parent h' (i + S d) (VObject res) = VObject cj ->
  ci < cj.
Proof.
  induction d as [|d IH]; intros i ci cj Hfresh Hchain Hb Hi Hj.
  - replace (i + 1) with (S i) in * by lia. by eapply chain_step_lt.
  - destruct (Hchain (i + S d) ltac:(lia)) as (c & Hc & Hcb).
    pose proof (IH i ci c Hfresh Hchain ltac:(lia) Hi Hc).
    replace (i + S (S d)) with (S (i + S d)) in * by lia.
    pose proof (chain_step_lt h h' res B (i + S d) c cj Hfresh Hchain Hb Hc Hj). lia.
Qed.

(** The frame above a match: [setParent] hangs a fresh copy of the
    frame's target at the end of the chain, and touches nothing else. *)
Lemma setParent_hit k (h h1 : heap) root a o_t m res :
  closed h -> h !! a = Some o_t ->
  hit_inv string_to_number k h h1 (S root) m res ->
  exists h2, setParent h1 root (VObject a) m = Some h2
             /\ hit_inv string_to_number k h h2 root m res.
Proof.
  intros Hcl Ha [Hres [new Hpre] Hfresh Hdepth Hchain Hrec].
  set (n := depth m - root - 2).
  assert (n <= chain_bound (S root) (depth m)) as Hn.
  { unfold chain_bound, n. destruct (Nat.eqb_spec (depth m) (S root)); lia. }
  assert (chain_bound root (depth m) = S n) as HB.
  { unfold chain_bound, n. destruct (Nat.eqb_spec (depth m) root); lia. }
  destruct (Hchain n Hn) as (c & Hc & Hcb).
  pose proof (lookup_lt_Some _ _ _ Ha) as Hlt.
  assert (h1 !! a = Some o_t) as Ha1.
  { subst h1. by rewrite lookup_app_l. }
  destruct (lookup_lt_is_Some_2 h1 c ltac:(lia)) as [o_c Hoc].
  set (h2 := alter (set_prop "__parent__" (VObject (length h1))) c (h1 ++ [copy_of o_t])).
  assert (setParent h1 root (VObject a) m = Some h2) as Hset.
  { unfold setParent. rewrite Hres. cbn [truthy negb]. fold n. rewrite Hc.
    cbn [truthy andb]. rewrite bool_decide_eq_false_2 by (intros [= ->]; lia).
    cbn [negb]. rewrite surfaceClone_object. unfold deref. rewrite Ha1. done. }
  assert (forall x, x < length h1 -> x <> c -> h2 !! x = h1 !! x) as Hsame.
  { intros x Hx Hxc. unfold h2. rewrite list_lookup_alter_ne by done.
    by rewrite lookup_app_l. }
  assert (h2 !! c = Some (set_prop "__parent__" (VObject (length h1)) o_c)) as Hc2.
  { unfold h2. rewrite list_lookup_alter_eq, lookup_app_l by lia. by rewrite Hoc. }
  assert (length h2 = S (length h1)) as Hlen2.
  { unfold h2. rewrite length_alter, length_app. simpl. lia. }
  assert (forall j, j <= n ->
            follow_parent h2 j (VObject res) = follow_parent h1 j (VObject res)) as Hstable.
  { induction j as [|j IHj]; intros Hj; [done|].
    rewrite !follow_parent_S, IHj by lia.
    destruct (Hchain j ltac:(lia)) as (cj & Hcj & Hcjb). rewrite Hcj.
    apply parent_of_ext. apply Hsame; [lia|].
    pose proof (chain_lt h h1 res _ (n - j - 1) j cj c Hfresh Hchain) as Hlt'.
    replace (j + S (n - j - 1)) with n in Hlt' by lia.
    specialize (Hlt' Hn Hcj Hc). lia. }
  exists h2. split; [exact Hset|]. split.
  - exact Hres.
  - exists (alter (set_prop "__parent__" (VObject (length h1))) (c - length h)
              (new ++ [copy_of o_t])).
    unfold h2. subst h1. rewrite <- app_assoc.
    replace c with (length h + (c - length h)) at 1 by lia.
    by rewrite alter_app_r.
  - intros x b Hx (o & Ho & Hb).
    destruct (decide (x = c)) as [->|Hxc].
    + rewrite Hc2 in Ho. injection Ho as <-.
      apply refs_of_set_prop in Hb as [Hb|[= <-]]; [|right; lia].
      apply (Hfresh c b Hx). by exists o_c.
    + destruct (decide (x < length h1)) as [Hx1|Hx1].
      * rewrite Hsame in Ho by done. apply (Hfresh x b Hx). by exists o.
      * unfold h2 in Ho. rewrite list_lookup_alter_ne in Ho by done.
        assert (x = length h1) as ->.
        { apply lookup_lt_Some in Ho. rewrite length_app in Ho. simpl in Ho. lia. }
        rewrite lookup_app_r, Nat.sub_diag in Ho by lia. injection Ho as <-.
        apply refs_of_copy in Hb. left. apply (Hcl a b). by exists o_t.
  - lia.
  - rewrite HB. intros j Hj. destruct (decide (j <= n)) as [Hjn|Hjn].
    + rewrite Hstable by done. destruct (Hchain j ltac:(lia)) as (cj & Hcj & Hcjb).
      exists cj. split; [done|lia].
    + assert (j = S n) as -> by lia.
      exists (length h1). rewrite follow_parent_S, Hstable, Hc by lia.
      split; [|lia]. unfold h2. apply (parent_of_set _ c o_c).
      by rewrite lookup_app_l by lia.
  - destruct Hrec as (p & o & o' & leaf & Hp & Hres' & Hclone & Htj & Hleaf).
    destruct (Hchain 0 ltac:(lia)) as (c0 & [= <-] & Hc0).
    destruct (decide (res = c)) as [->|Hrc].
    + exists p, o, (set_prop "__parent__" (VObject (length h1)) o_c), leaf.
      rewrite Hoc in Hres'. injection Hres' as <-.
      repeat split; try tauto.
      * apply clone_of_set_prop; [by right|tauto].
      * destruct o_c as [ps|es ps]; simpl in *; by rewrite assoc_set_ne.
    + exists p, o, o', leaf. rewrite Hsame by (done || lia). tauto.
Qed.

(** The match itself: the enclosing object is copied and the copy gets
    its [toJson] member. *)
Lemma leaf_hit k (h : heap) root p o leaf :
  closed h -> h !! p = Some o ->
  leaf ∈ values_of o -> is_string_or_number leaf = true -> loose_eq leaf k = true ->
  hit_inv string_to_number k h
    (alter (set_prop "toJson" (VFunction "toJson")) (length h) (h ++ [copy_of o]))
    root (Found root (VObject (length h))) (length h).
Proof.
  intros Hcl Hp Hleaf Hsn Heq.
  assert (alter (set_prop "toJson" (VFunction "toJson")) (length h) (h ++ [copy_of o])
          = h ++ [set_prop "toJson" (VFunction "toJson") (copy_of o)]) as ->.
  { replace (length h) with (length h + 0) at 1 by lia. by rewrite alter_app_r. }
  assert (forall x o', (h ++ [set_prop "toJson" (VFunction "toJson") (copy_of o)]) !! x
                       = Some o' -> length h <= x ->
                       x = length h
                       /\ o' = set_prop "toJson" (VFunction "toJson") (copy_of o)) as Hnew.
  { intros x o' Hx Hle. pose proof (lookup_lt_Some _ _ _ Hx) as Hlt.
    rewrite length_app in Hlt. simpl in Hlt. assert (x = length h) as -> by lia.
    rewrite lookup_app_r, Nat.sub_diag in Hx by lia. by injection Hx as <-. }
  split; cbn [result depth].
  - done.
  - by eexists.
  - intros x b Hx (o' & Ho' & Hb). destruct (Hnew _ _ Ho' Hx) as [-> ->].
    apply refs_of_set_prop in Hb as [Hb|[=]].
    apply refs_of_copy in Hb. left. apply (Hcl p b). by exists o.
  - lia.
  - unfold chain_bound. rewrite Nat.eqb_refl. intros j Hj.
    assert (j = 0) as -> by lia. exists (length h). split; [done|].
    rewrite length_app. simpl. lia.
  - exists p, o, (set_prop "toJson" (VFunction "toJson") (copy_of o)), leaf.
    rewrite lookup_app_r, Nat.sub_diag by lia.
    repeat split; try done.
    + apply clone_of_set_prop; [by left|apply clone_of_copy].
    + destruct o as [ps|es ps]; simpl; by rewrite ?assoc_set_eq.
Qed.

Lemma first_match_hit visit items (h h1 : heap) m :
  (forall item h' m', visit h item = Some (Done h' m') ->
                      truthy (result m') = false -> h' = h) ->
  first_match visit items h = Some (Done h1 (Some m)) ->
  exists item, item ∈ items /\ visit h item = Some (Done h1 m)
               /\ truthy (result m) = true.
Proof.
  intros Hmiss. induction items as [|item items IHi]; cbn [first_match]; [done|].
  destruct (visit h item) as [[h' m'|h']|] eqn:E; [|done..].
  destruct (truthy (result m')) eqn:Et.
  - intros [= <- <-]. exists item. split; [apply elem_of_cons; by left|done].
  - rewrite (Hmiss _ _ _ E Et). intros H. destruct (IHi H) as (it & Hin & Hv).
    exists it. split; [apply elem_of_cons; by right|done].
Qed.

Lemma lookup_undefined fuel (h : heap) segs k parent root seen h' m :
  lookup fuel h segs k VUndefined parent root seen = Some (Done h' m) ->
  result m = VNull.
Proof.
  destruct fuel as [|fuel]; [done|]. cbn [Lookup.lookup].
  destruct (bool_decide _); by intros [= <- <-].
Qed.

(** Every successful visit establishes the invariant. *)
Lemma lookup_hit fuel : forall (h : heap) segs k target parent root seen h' m,
  closed h ->
  (is_string_or_number target = true -> truthy parent = true ->
   exists p o, parent = VObject p /\ h !! p = Some o /\ target ∈ values_of o) ->
  lookup fuel h segs k target parent root seen = Some (Done h' m) ->
  truthy (result m) = true ->
  exists res, hit_inv string_to_number k h h' root m res.
Proof.
  induction fuel as [|fuel IH];
    intros h segs k target parent root seen h' m Hcl Hparent; [done|].
  cbn [Lookup.lookup].
  destruct (bool_decide _); [by intros [= <- <-]|].
  assert (is_string_or_number target = true ->
          match segs with
          | [] =>
              if is_string_or_number target && loose_eq target k
              then
                let '(h1, res) :=
                  surfaceClone h (if truthy parent then parent else target) in
                match assign h1 res "toJson" (VFunction "toJson") with
                | Some h2 => Some (Done h2 (Found root res))
                | None => Some (Raised h1)
                end
              else Some (Done h (Found root VNull))
          | _ :: _ => Some (Done h (Found root VNull))
          end = Some (Done h' m) ->
          truthy (result m) = true ->
          exists res, hit_inv string_to_number k h h' root m res) as Hleaf.
  { intros Hsn. destruct segs; [|by intros [= <- <-]].
    rewrite Hsn. cbn [andb]. destruct (Lookup.loose_eq _ target k) eqn:Heq;
      [|by intros [= <- <-]].
    destruct (truthy parent) eqn:Ep.
    - destruct (Hparent Hsn eq_refl) as (p & o & -> & Hp & Hin).
      rewrite surfaceClone_object. unfold deref. rewrite Hp. cbn [default from_option id assign].
      intros [= <- <-] _. exists (length h). by apply (leaf_hit k h root p o target).
    - by destruct target. }
  destruct target as [| |b|n|s|a|f].
  1,2: by intros [= <- <-].
  4:{ cbv zeta. unfold deref at 1.
      destruct (h !! a) as [o_t|] eqn:Ha; cbn [default from_option id].
      2:{ (* a reference outside the store *)
          unfold get, deref. rewrite Ha. cbn [default from_option id assoc].
          destruct (Lookup.lookup _ fuel h _ _ VUndefined _ _ _) as [[h1 m1|h1]|] eqn:E;
            [|done..].
          apply lookup_undefined in E.
          rewrite setParent_miss by (by rewrite E).
          intros [= <- <-]. by rewrite E. }
      destruct o_t as [ps|elems ps].
      - match goal with |- context [get h (VObject a) ?kk] =>
          set (child := match get h (VObject a) kk with Ok v => v | Throw => VUndefined end)
        end.
        destruct (Lookup.lookup _ fuel h _ _ child _ _ _) as [[h1 m1|h1]|] eqn:E; [|done..].
        destruct (truthy (result m1)) eqn:Et.
        + apply IH in E as [res Hinv]; [|done| |done].
          * destruct (setParent_hit k h h1 root a _ m1 res Hcl Ha Hinv) as (h2 & -> & Hinv2).
            intros [= <- <-] _. by exists res.
          * intros Hsn _. exists a, (Obj ps). split; [done|]. split; [done|].
            subst child. unfold get, deref in Hsn |- *. rewrite Ha in Hsn |- *.
            cbn [default from_option id] in Hsn |- *.
            destruct (assoc _ ps) as [v|] eqn:Ev; [|done]. cbn.
            apply assoc_elem in Ev. apply list_elem_of_fmap.
            eexists. split; [|exact Ev]. done.
        + rewrite setParent_miss by done. intros [= <- <-]. congruence.
      - destruct (negb _); [by intros [= <- <-]|].
        match goal with |- context [first_match ?f elems h] =>
          destruct (first_match f elems h) as [[h1 [m1|]|h1]|] eqn:E;
            [| |done..];
            [apply first_match_hit in E as (item & Hin & E & Et);
             [|intros; by eapply lookup_miss_heap]|]
        end.
        + apply IH in E as [res Hinv]; [|done| |done].
          * destruct (setParent_hit k h h1 root a _ m1 res Hcl Ha Hinv) as (h2 & -> & Hinv2).
            intros [= <- <-] _. by exists res.
          * intros _ _. exists a, (Arr elems ps). split; [done|]. split; [done|].
            apply elem_of_app. by left.
        + by intros [= <- <-]. }
  all: first [by apply Hleaf | destruct segs; cbn; by intros [= <- <-]].
Qed.

(** Fresh objects that only refer to the old store or to newer objects
    cannot close a cycle. *)
Lemma fresh_acyclic (h h' : heap) :
  closed h -> acyclic h ->
  (exists new, h' = h ++ new) ->
  (forall a b, length h <= a -> edge h' a b -> b < length h \/ a < b) ->
  acyclic h'.
Proof.
  intros Hcl Hac [new ->] Hfresh.
  assert (forall a b, a < length h -> edge (h ++ new) a b ->
                      edge h a b /\ b < length h) as Hold.
  { intros a b Ha (o & Ho & Hb). rewrite lookup_app_l in Ho by done.
    assert (edge h a b) as He by by exists o. split; [done|]. by apply (Hcl a b). }
  assert (forall a b, clos_trans _ (edge (h ++ new)) a b ->
            (a < length h -> clos_trans _ (edge h) a b /\ b < length h)
            /\ (length h <= a -> b < length h \/ a < b)) as Hreach.
  { induction 1 as [x y Hxy|x y z Hxy [IH1 IH1'] Hyz [IH2 IH2']].
    - split.
      + intros Hx. destruct (Hold _ _ Hx Hxy). split; [by apply t_step|done].
      + intros Hx. by apply Hfresh.
    - split.
      + intros Hx. destruct (IH1 Hx) as [H1 Hy]. destruct (IH2 Hy) as [H2 Hz].
        split; [by eapply t_trans|done].
      + intros Hx. destruct (IH1' Hx) as [Hy|Hy].
        * destruct (IH2 Hy) as [_ Hz]. by left.
        * destruct (IH2' ltac:(lia)) as [Hz|Hz]; [by left|right; lia]. }
  intros a Ha. destruct (Hreach _ _ Ha) as [H1 H2].
  destruct (decide (a < length h)) as [Hlt|Hge].
  - destruct (H1 Hlt) as [Hc _]. by apply (Hac a).
  - destruct (H2 ltac:(lia)); lia.
Qed.

End LookupRecordFacts.

(** C4, as the code has it.  On a store without dangling references,
    every successful [recursiveLookup] returns a fresh object that is a
    shallow copy of the enclosing record, that is of the object or array
    of the input that directly holds the matched leaf, to which only the
    members [toJson] and [__parent__] were added; the objects of the input
    are left as they were (the back-references are only set on fresh
    copies); and when the input holds no cyclic structure, neither does
    the store after the call, so that the result can be serialized. *)
Theorem recursiveLookup_returns_record
    (string_to_number : string -> option Z) (h : JS.heap) (lookupMap : JS.path)
    (k : Lookup.key) (target : JS.value) (h' : JS.heap) (m : Lookup.found) :
  Graph.closed h ->
  Lookup.recursiveLookup string_to_number h lookupMap k target = (h', m) ->
  JS.truthy (Lookup.result m) = true ->
  exists res p o o' leaf,
    Lookup.result m = JS.VObject res /\
    (length h <= res)%nat /\
    (forall a, (a < length h)%nat -> h' !! a = h !! a) /\
    h !! p = Some o /\
    h' !! res = Some o' /\
    Record.clone_of o o' /\
    JS.assoc "toJson" (JS.props_of o') = Some (JS.VFunction "toJson") /\
    leaf ∈ Record.values_of o /\
    Lookup.is_string_or_number leaf = true /\
    Lookup.loose_eq string_to_number leaf k = true /\
    (Graph.acyclic h -> Graph.acyclic h').
Proof.
  intros Hcl Hrun Ht. unfold Lookup.recursiveLookup in Hrun.
  destruct (Lookup.lookup _ _ h _ k target _ _ _) as [[h1 m1|h1]|] eqn:E.
  2,3: injection Hrun as <- <-; discriminate Ht.
  injection Hrun as <- <-.
  apply lookup_hit in E as [res [Hres Hpre Hfresh _ Hchain Hrec]]; [|done|done|done].
  destruct Hrec as (p & o & o' & leaf & Hp & Hres' & Hclone & Htj & Hleaf & Hsn & Heq).
  destruct (Hchain 0%nat ltac:(lia)) as (c & [= <-] & Hc).
  exists res, p, o, o', leaf. repeat split; try done; try lia.
  - intros a Ha. destruct Hpre as [new ->]. by rewrite lookup_app_l.
  - intros Hac. by eapply fresh_acyclic.
Qed.

Lemma recursiveLookup_returns_record_witness :
  let h := [JS.Obj [("items", JS.VObject 1%nat)];
            JS.Arr [JS.VObject 2%nat; JS.VObject 3%nat] [];
            JS.Obj [("id", JS.VNumber 1); ("name", JS.VString "a")];
            JS.Obj [("id", JS.VNumber 2); ("name", JS.VString "b")]] in
  exists h' res o',
    Lookup.recursiveLookup Lookup.decimal_to_number h (JS.PathStr "items.[].id")
      (Lookup.KNum 2) (JS.VObject 0%nat)
    = (h', Lookup.Found 3 (JS.VObject res)) /\
    h' !! res = Some o' /\
    Record.clone_of (JS.Obj [("id", JS.VNumber 2); ("name", JS.VString "b")]) o'.
Proof.
  intros h.
  destruct (Lookup.recursiveLookup Lookup.decimal_to_number h (JS.PathStr "items.[].id")
              (Lookup.KNum 2) (JS.VObject 0%nat)) as [h' m] eqn:E.
  assert (Graph.closed h) as Hcl.
  { intros a b (o & Ho & Hb). unfold h in *.
    repeat (destruct a as [|a]; simpl in Ho;
            [injection Ho as <-; vm_compute in Hb;
             repeat (apply elem_of_cons in Hb as [->|Hb]; [simpl; lia|]);
             by apply elem_of_nil in Hb|]).
    done. }
  destruct (recursiveLookup_returns_record Lookup.decimal_to_number h
              (JS.PathStr "items.[].id") (Lookup.KNum 2) (JS.VObject 0%nat) h' m Hcl E)
    as (res & p & o & o' & leaf & Hres & _ & _ & Hp & Hres' & Hclone & _).
  - vm_compute in E. by injection E as <- <-.
  - exists h', res, o'.
    vm_compute in E. injection E as <- <-. injection Hres as <-.
    split; [reflexivity|]. split; [exact Hres'|].
    vm_compute in Hres'. injection Hres' as <-.
    intros key Hkey. unfold Record.synthetic in Hkey. simpl.
    destruct (String.eqb_spec key "toJson") as [->|_]; [tauto|].
    destruct (String.eqb_spec key "__parent__") as [->|_]; [tauto|].
    by destruct (String.eqb key "id"), (String.eqb key "name").
Defined.

(** C4 as stated fails on a self-referential input: for
    [a = {}; a.self = a; a.v = 5] the record returned for pattern ["v"]
    and value [5] holds [self], which refers to [a], and [a] refers to
    itself: serializing the result meets a cycle. *)
Lemma recursiveLookup_result_keeps_cycle :
  let a := [JS.Obj [("self", JS.VObject 0%nat); ("v", JS.VNumber 5)]] in
  exists h',
    Lookup.recursiveLookup Lookup.decimal_to_number a (JS.PathStr "v") (Lookup.KNum 5)
      (JS.VObject 0%nat)
    = (h', Lookup.Found 1 (JS.VObject 1%nat))
    /\ Record.reaches_cycle h' 1%nat.
Proof.
  intros a. eexists. split; [reflexivity|].
  exists 0%nat. split.
  - apply rt_step. eexists. split; [reflexivity|]. simpl. apply elem_of_cons. by left.
  - apply t_step. eexists. split; [reflexivity|]. simpl. apply elem_of_cons. by left.
Qed.

(** ** Deferred Content Resolver *)

Section DeferredFacts.
Import JS Select Lookup Deferred CachePredicates.
#[local] Open Scope list_scope.
#[local] Open Scope nat_scope.

Variable loosely_equal : value -> value -> bool.
Hypothesis loosely_equal_sym : forall a b, loosely_equal a b = loosely_equal b a.

Lemma find_ext_in {A} (p q : A -> bool) (l : list A) :
  (forall x, x ∈ l -> p x = q x) -> List.find p l = List.find q l.
Proof.
  induction l as [|x l IH]; intros H; [done|]. simpl.
  rewrite <- (H x) by (apply elem_of_cons; by left).
  destruct (p x); [done|]. apply IH. intros y Hy. apply H. apply elem_of_cons. by right.
Qed.

Lemma set_elems_lookup (h : heap) c es ps es' :
  h !! c = Some (Arr es ps) -> set_elems c es' h !! c = Some (Arr es' ps).
Proof. intros H. unfold set_elems. by rewrite list_lookup_alter_eq, H. Qed.

Lemma set_elems_id (h : heap) c es ps :
  h !! c = Some (Arr es ps) -> set_elems c es h = h.
Proof.
  intros H. unfold set_elems. apply list_eq. intros i.
  destruct (decide (c = i)) as [<-|Hne].
  - by rewrite list_lookup_alter_eq, H.
  - by rewrite list_lookup_alter_ne.
Qed.

Lemma push_set_elems (h : heap) c es ps es' item :
  h !! c = Some (Arr es ps) ->
  push c item (set_elems c es' h) = set_elems c (es' ++ [item]) h.
Proof.
  intros H. unfold push, set_elems. apply list_eq. intros i.
  destruct (decide (c = i)) as [<-|Hne].
  - by rewrite !list_lookup_alter_eq, H.
  - by rewrite !list_lookup_alter_ne.
Qed.

(** On records whose key does not depend on the cache array, the merge
    on the store is the merge on the list of cached records. *)
Lemma merge_into_cache_list (h : heap) c es ps mapper items : forall es',
  h !! c = Some (Arr es ps) ->
  Forall (key_stable h c mapper) es' ->
  Forall (key_stable h c mapper) items ->
  merge_into_cache loosely_equal mapper c items (set_elems c es' h)
  = set_elems c (merge_list loosely_equal (recursiveSelect h mapper) es' items) h.
Proof.
  intros es' Hc. revert es'.
  induction items as [|item items IH]; intros es' Hes Hitems; [done|].
  apply Forall_cons in Hitems as [Hitem Hitems].
  cbn [merge_into_cache merge_list].
  unfold deref. rewrite (set_elems_lookup h c es ps es' Hc). cbn [default from_option id elems_of].
  unfold not_found_value.
  rewrite (find_ext_in _ (fun ci => loosely_equal (recursiveSelect h mapper item)
                                      (recursiveSelect h mapper ci))).
  2:{ intros x Hx. rewrite Hitem. rewrite Forall_forall in Hes. by rewrite (Hes x Hx). }
  destruct (List.find _ es') as [ci|] eqn:E.
  - destruct (truthy ci); cbn [negb].
    + by apply IH.
    + rewrite (push_set_elems h c es ps) by done. apply IH; [|done].
      apply Forall_app. split; [done|]. by apply Forall_singleton.
  - rewrite (push_set_elems h c es ps) by done. apply IH; [|done].
    apply Forall_app. split; [done|]. by apply Forall_singleton.
Qed.

Lemma unique_list_snoc key records item :
  unique_list loosely_equal key records ->
  (forall ci, ci ∈ records -> loosely_equal (key item) (key ci) = false) ->
  unique_list loosely_equal key (records ++ [item]).
Proof.
  intros Hu Hnew i j ri rj Hij Hi Hj.
  apply lookup_snoc_Some in Hi as [[Hil Hi]|[-> <-]];
    apply lookup_snoc_Some in Hj as [[Hjl Hj]|[-> <-]].
  - by eapply Hu.
  - rewrite loosely_equal_sym. apply Hnew. by eapply list_elem_of_lookup_2.
  - apply Hnew. by eapply list_elem_of_lookup_2.
  - done.
Qed.

Lemma not_found_value_none (p : value -> bool) (l : list value) :
  Forall (fun x => truthy x = true) l ->
  not_found_value p l = true -> forall x, x ∈ l -> p x = false.
Proof.
  intros Ht. unfold not_found_value. destruct (List.find p l) as [y|] eqn:E.
  - apply find_some in E as [Hy _]. apply list_elem_of_In in Hy.
    rewrite Forall_forall in Ht. by rewrite (Ht y Hy).
  - intros _ x Hx. apply list_elem_of_In in Hx. by apply (find_none _ _ E).
Qed.

Lemma not_found_value_some (p : value -> bool) (l : list value) x :
  Forall (fun x => truthy x = true) l ->
  x ∈ l -> p x = true -> not_found_value p l = false.
Proof.
  intros Ht Hx Hp. unfold not_found_value. destruct (List.find p l) as [y|] eqn:E.
  - apply find_some in E as [Hy _]. apply list_elem_of_In in Hy.
    rewrite Forall_forall in Ht. by rewrite (Ht y Hy).
  - apply list_elem_of_In in Hx. rewrite (find_none _ _ E x Hx) in Hp. done.
Qed.

(** The merge keeps the keys unique, only appends, and keeps the
    records truthy. *)
Lemma merge_list_unique key items : forall cache,
  Forall (fun x => truthy x = true) cache ->
  Forall (fun x => truthy x = true) items ->
  unique_list loosely_equal key cache ->
  unique_list loosely_equal key (merge_list loosely_equal key cache items)
  /\ Forall (fun x => truthy x = true) (merge_list loosely_equal key cache items)
  /\ cache `prefix_of` merge_list loosely_equal key cache items.
Proof.
  induction items as [|item items IH]; intros cache Hc Hi Hu; cbn [merge_list].
  - done.
  - apply Forall_cons in Hi as [Hitem Hi].
    destruct (not_found_value _ cache) eqn:E.
    + destruct (IH (cache ++ [item])) as (H1 & H2 & H3).
      * apply Forall_app. split; [done|]. by apply Forall_singleton.
      * done.
      * apply unique_list_snoc; [done|]. by apply not_found_value_none.
      * split; [done|]. split; [done|].
        etransitivity; [|exact H3]. by apply prefix_app_r.
    + by apply IH.
Qed.

Lemma merge_list_elem key items : forall cache x,
  x ∈ merge_list loosely_equal key cache items -> x ∈ cache \/ x ∈ items.
Proof.
  induction items as [|item items IH]; intros cache x; cbn [merge_list]; [by left|].
  intros [Hx|Hx]%IH.
  - destruct (not_found_value _ cache); [|by left].
    apply elem_of_app in Hx as [Hx|Hx%list_elem_of_singleton]; [by left|].
    right. apply elem_of_cons. by left.
  - right. apply elem_of_cons. by right.
Qed.

Lemma merge_list_present key cache item ci :
  Forall (fun x => truthy x = true) cache ->
  ci ∈ cache -> loosely_equal (key item) (key ci) = true ->
  merge_list loosely_equal key cache [item] = cache.
Proof.
  intros Ht Hci He. cbn [merge_list].
  by rewrite (not_found_value_some _ cache ci Ht Hci He).
Qed.

Lemma merge_list_two key r1 r2 :
  truthy r1 = true -> loosely_equal (key r1) (key r2) = true ->
  merge_list loosely_equal key [] [r1; r2] = [r1].
Proof.
  intros Ht He. cbn [merge_list not_found_value List.find app].
  unfold not_found_value. cbn [List.find].
  rewrite (loosely_equal_sym (key r2)), He. by rewrite Ht.
Qed.

Lemma merge_into_cache_spec (h : heap) c es ps mapper items :
  h !! c = Some (Arr es ps) ->
  Forall (fun x => truthy x = true) es ->
  Forall (fun x => truthy x = true) items ->
  Forall (key_stable h c mapper) (es ++ items) ->
  unique_keys loosely_equal h mapper es ->
  let key := recursiveSelect h mapper in
  let h' := merge_into_cache loosely_equal mapper c items h in
  h' = set_elems c (merge_list loosely_equal key es items) h
  /\ cached h' c = merge_list loosely_equal key es items
  /\ unique_keys loosely_equal h' mapper (cached h' c).
Proof.
  intros Hc Hes Hitems Hst Hu key h'.
  apply Forall_app in Hst as [Hst1 Hst2].
  assert (h' = set_elems c (merge_list loosely_equal key es items) h) as Hh'.
  { unfold h'. rewrite <- (set_elems_id h c es ps Hc) at 1.
    by apply (merge_into_cache_list h c es ps). }
  assert (cached h' c = merge_list loosely_equal key es items) as Hcached.
  { unfold cached, deref. rewrite Hh', (set_elems_lookup h c es ps _ Hc). done. }
  split; [done|]. split; [done|].
  rewrite Hcached.
  destruct (merge_list_unique key items es Hes Hitems Hu) as (Hu' & _ & _).
  intros i j ri rj Hij Hi Hj.
  assert (forall x, x ∈ merge_list loosely_equal key es items -> key_stable h c mapper x) as Hstable.
  { intros x [Hx|Hx]%merge_list_elem.
    - rewrite Forall_forall in Hst1. by apply Hst1.
    - rewrite Forall_forall in Hst2. by apply Hst2. }
  rewrite Hh'.
  rewrite (Hstable ri) by by eapply list_elem_of_lookup_2.
  rewrite (Hstable rj) by by eapply list_elem_of_lookup_2.
  by eapply Hu'.
Qed.

(** The merge on records whose key does not depend on the cache array,
    whatever the records are. *)
Lemma merge_into_cache_cached (h : heap) c es ps mapper items :
  h !! c = Some (Arr es ps) ->
  Forall (key_stable h c mapper) (es ++ items) ->
  let key := recursiveSelect h mapper in
  let h' := merge_into_cache loosely_equal mapper c items h in
  h' = set_elems c (merge_list loosely_equal key es items) h
  /\ cached h' c = merge_list loosely_equal key es items.
Proof.
  intros Hc Hst key h'. apply Forall_app in Hst as [Hst1 Hst2].
  assert (h' = set_elems c (merge_list loosely_equal key es items) h) as Hh'.
  { unfold h'. rewrite <- (set_elems_id h c es ps Hc) at 1.
    by apply (merge_into_cache_list h c es ps). }
  split; [done|]. unfold cached, deref. by rewrite Hh', (set_elems_lookup h c es ps _ Hc).
Qed.

(** A flush that is answered merges the records of the answer into the
    cache of its entry. *)
Lemma bulk_answered post r values s h1 items :
  answered post r values s h1 items ->
  bulk loosely_equal post r (Some values) s
  = Some (State (merge_into_cache loosely_equal
                   (mapper_or_empty (batchUniqueMatchMapper r)) (Deferred.cache s) items h1)
                (Deferred.cache s) (processedValues s)).
Proof.
  intros (data & a & ps & Hne & Hpost & Hsel & Ha). unfold bulk.
  destruct (filter_values _ _ _) as [|v fv]; [done|].
  rewrite Hpost, Hsel. cbn [truthy is_array andb]. unfold deref. rewrite Ha. done.
Qed.

End DeferredFacts.


Lemma simple_equal_sym a b : Deferred.simple_equal a b = Deferred.simple_equal b a.
Proof.
  destruct a, b; simpl; auto using Z.eqb_sym, String.eqb_sym, Nat.eqb_sym.
Qed.



(** C2 fails on the code: the bulk callback of the Deferred Content
    Resolver reads [processedValues] but never adds to it.  Whatever the
    flush, the list (and the address of the cache) after it is the one
    before it.  So, after a flush of the value 7 for which the remote
    side returns no record, 7 is not in [processedValues], and the next
    request for 7 is enqueued again instead of being answered as a
    confirmed miss. *)
Theorem deferred_flush_leaves_processedValues :
  (forall loosely_equal post r values s s',
      Deferred.bulk loosely_equal post r values s = Some s' ->
      Deferred.processedValues s' = Deferred.processedValues s
      /\ Deferred.cache s' = Deferred.cache s) /\
  (let r := Deferred.Reading "/items" "ids" (Some "items") (Some "id") (Some "[].id") None in
   let post := fun (url key : string) (values : list Z) (h : JS.heap) =>
     Some ((h ++ [JS.Obj [("items", JS.VObject (S (length h)))]; JS.Arr [] []])%list,
           JS.VObject (length h)) in
   let s0 := Deferred.new_entry [] in
   exists s1,
     Deferred.bulk Deferred.simple_equal post r (Some [7]) s0 = Some s1
     /\ Deferred.processedValues s1 = []
     /\ (Deferred.processDeferredBatched Lookup.decimal_to_number JS.print_plain r 7 s1).2
        = Deferred.Enqueue).
Proof.
  split.
  - intros loosely_equal post r values s s'. unfold Deferred.bulk.
    destruct values as [values|]; [|by intros [= <-]].
    destruct (Deferred.filter_values _ _ _); [by intros [= <-]|].
    destruct (post _ _ _ _) as [[h1 data]|]; [|done].
    destruct (_ && _); [|by intros [= <-]].
    destruct (Select.recursiveSelect _ _ _); by intros [= <-].
  - eexists. split; [reflexivity|]. split; reflexivity.
Qed.

(** ** The virtual fallback and the extras lookup *)

Section FetcherFacts.
Import JS Dispatch Fetchers ResolverPredicates.
#[local] Open Scope list_scope.

Variable string_to_number : string -> option Z.
Variable print_opaque : heap -> value -> string.

#[local] Abbreviation fetch_from := (Fetchers.fetch_from string_to_number print_opaque).

(** The retries are bounded by the distance to the ceiling. *)
Lemma fetch_from_total fuel : forall set p attemptCount g calls,
  (Z.to_nat (ceiling - attemptCount) < fuel)%nat ->
  is_Some (fetch_from fuel set p attemptCount g calls).
Proof.
  induction fuel as [|fuel IH]; intros set p a g calls Hfuel; [lia|].
  cbn [Fetchers.fetch_from].
  destruct (Z.leb_spec ceiling a) as [Hge|Hlt]; [done|].
  destruct (answer_from_memo _ _ p g); [done|].
  assert (forall g' calls', is_Some (fetch_from fuel set p (a + 1) g' calls')) as Hrec.
  { intros g' calls'. apply IH. unfold ceiling in *. lia. }
  destruct (set calls g) as [[e|] g'|]; [| |done].
  - destruct (truthy_thrown e); [done|].
    by destruct (answer_from_memo _ _ p g').
  - by destruct (answer_from_memo _ _ p g').
Qed.

Lemma fetch_from_ceiling fuel set p attemptCount g calls :
  ceiling <= attemptCount ->
  fetch_from (S fuel) set p attemptCount g calls
  = Some (g, Rejected (ErrorObject ("failed to fetch tag info " ++ tagEpc p)), calls).
Proof.
  intros H. cbn [Fetchers.fetch_from].
  by destruct (Z.leb_spec ceiling attemptCount); [|lia].
Qed.

Lemma answer_from_memo_none p g :
  virtuallyProcessedTags g !! tagEpc p = None ->
  answer_from_memo string_to_number print_opaque p g = None.
Proof. intros H. unfold answer_from_memo. by rewrite H. Qed.

(** With a batcher that never populates the memo, every attempt below
    the ceiling calls [set] once and retries. *)
Lemma fetch_from_unpopulated set p : forall k attemptCount fuel g calls,
  never_populates set (tagEpc p) ->
  virtuallyProcessedTags g !! tagEpc p = None ->
  attemptCount + Z.of_nat k = ceiling ->
  (k < fuel)%nat ->
  exists g',
    fetch_from fuel set p attemptCount g calls
    = Some (g', Rejected (ErrorObject ("failed to fetch tag info " ++ tagEpc p)),
            (calls + k)%nat).
Proof.
  induction k as [|k IH]; intros a fuel g calls Hset Hmemo Ha Hfuel;
    (destruct fuel as [|fuel]; [lia|]).
  - exists g. rewrite fetch_from_ceiling by lia. by rewrite Nat.add_0_r.
  - cbn [Fetchers.fetch_from].
    destruct (Z.leb_spec ceiling a) as [Hge|Hlt]; [lia|].
    rewrite answer_from_memo_none by done.
    destruct (Hset calls g Hmemo) as (g' & -> & Hmemo').
    rewrite answer_from_memo_none by done.
    destruct (IH (a + 1) fuel g' (S calls) Hset Hmemo' ltac:(lia) ltac:(lia))
      as (g'' & ->).
    exists g''. do 2 f_equal. lia.
Qed.

End FetcherFacts.

(** C7: the [fetch] of a [maybeVirtual] result always ends; called with
    an [attemptCount] at or above the ceiling of 5 it fails with an error
    and calls [set] not once; while the memo is unpopulated before and
    after the flush it awaited, it retries itself with [attemptCount + 1];
    so with a batcher that never populates the memo, a call with
    [attemptCount] between 0 and the ceiling makes
    [ceiling - attemptCount] calls of [set], at most 5, and then fails
    with that error. *)
Theorem fetch_retry_ceiling
    (string_to_number : string -> option Z)
    (print_opaque : JS.heap -> JS.value -> string)
    (set : nat -> Dispatch.globals -> Fetchers.completion)
    (p : Dispatch.findTagProps) (g : Dispatch.globals) :
  (forall attemptCount,
      is_Some (Fetchers.fetch string_to_number print_opaque set p attemptCount g)) /\
  (forall attemptCount,
      Fetchers.ceiling <= attemptCount ->
      Fetchers.fetch string_to_number print_opaque set p attemptCount g
      = Some (g, Fetchers.Rejected
                   (Fetchers.ErrorObject
                      ("failed to fetch tag info " ++ Dispatch.tagEpc p)), 0%nat)) /\
  (forall fuel attemptCount calls g',
      attemptCount < Fetchers.ceiling ->
      Dispatch.virtuallyProcessedTags g !! Dispatch.tagEpc p = None ->
      set calls g = Fetchers.Completed None g' ->
      Dispatch.virtuallyProcessedTags g' !! Dispatch.tagEpc p = None ->
      Fetchers.fetch_from string_to_number print_opaque (S fuel) set p attemptCount g calls
      = Fetchers.fetch_from string_to_number print_opaque fuel set p (attemptCount + 1)
          g' (S calls)) /\
  (forall attemptCount,
      ResolverPredicates.never_populates set (Dispatch.tagEpc p) ->
      Dispatch.virtuallyProcessedTags g !! Dispatch.tagEpc p = None ->
      0 <= attemptCount <= Fetchers.ceiling ->
      exists g',
        Fetchers.fetch string_to_number print_opaque set p attemptCount g
        = Some (g', Fetchers.Rejected
                      (Fetchers.ErrorObject
                         ("failed to fetch tag info " ++ Dispatch.tagEpc p)),
                Z.to_nat (Fetchers.ceiling - attemptCount))).
Proof.
  split; [|split; [|split]].
  - intros a. apply fetch_from_total. lia.
  - intros a Ha. by apply fetch_from_ceiling.
  - intros fuel a calls g' Ha Hmemo Hset Hmemo'. cbn [Fetchers.fetch_from].
    destruct (Z.leb_spec Fetchers.ceiling a) as [Hge|Hlt]; [lia|].
    rewrite answer_from_memo_none by done. rewrite Hset.
    by rewrite answer_from_memo_none by done.
  - intros a Hset Hmemo Ha. unfold Fetchers.fetch.
    destruct (fetch_from_unpopulated string_to_number print_opaque set p
                (Z.to_nat (Fetchers.ceiling - a)) a
                (S (Z.to_nat (Fetchers.ceiling - a))) g 0%nat Hset Hmemo
                ltac:(lia) ltac:(lia)) as (g' & ->).
    by exists g'.
Qed.

Lemma fetch_retry_ceiling_witness :
  let p := Dispatch.Props "0000000100000002" None None None None
             (Some "/virtual") (Some "epcs") [] true in
  let g := Dispatch.Globals [] false true ∅ ∅ in
  Fetchers.fetch Lookup.decimal_to_number JS.print_plain
    (fun _ g => Fetchers.Completed None g) p 0 g
  = Some (g, Fetchers.Rejected
               (Fetchers.ErrorObject "failed to fetch tag info 0000000100000002"),
          5%nat).
Proof.
  intros p g.
  destruct (proj2 (proj2 (proj2
              (fetch_retry_ceiling Lookup.decimal_to_number JS.print_plain
                 (fun _ g => Fetchers.Completed None g) p g))) 0) as (g' & E).
  - intros n g0 H. by exists g0.
  - reflexivity.
  - unfold Fetchers.ceiling. lia.
  - rewrite E. vm_compute in E. injection E as <-. reflexivity.
Defined.

(** C6, as the code has it: [fetchExtraInfo] answers from the memo
    without calling the batcher when the memo is populated for the
    identifier; when the flush it awaits completes without error (the
    bulk callback returns normally) it resolves to the extras value if
    the memo then holds one and to [null] otherwise (key absent from the
    response, or memo still unpopulated); and when that flush fails (the
    bulk callback throws), in particular when the remote call is rejected
    with an error, the promise returned by [fetchExtraInfo] is rejected
    with that error. *)
Theorem fetchExtraInfo_outcomes
    (print_opaque : JS.heap -> JS.value -> string)
    (post : string -> string -> list string -> JS.heap -> Fetchers.response)
    (set : Dispatch.globals -> Fetchers.completion)
    (p : Dispatch.findTagProps) (g : Dispatch.globals) :
  (forall entry,
      Dispatch.extrasProcessedTags g !! Dispatch.tagEpc p = Some entry ->
      Fetchers.fetchExtraInfo set p g = (g, Fetchers.Resolved (Fetchers.read_extras p g))) /\
  (forall g',
      Dispatch.extrasProcessedTags g !! Dispatch.tagEpc p = None ->
      set g = Fetchers.Completed None g' ->
      Fetchers.fetchExtraInfo set p g
      = (g', Fetchers.Resolved (Fetchers.read_extras p g'))) /\
  (forall e g',
      Dispatch.extrasProcessedTags g !! Dispatch.tagEpc p = None ->
      set g = Fetchers.Completed (Some e) g' ->
      Fetchers.truthy_thrown e = true ->
      Fetchers.fetchExtraInfo set p g = (g', Fetchers.Rejected e)) /\
  (forall batch g',
      Dispatch.extrasProcessedTags g !! Dispatch.tagEpc p = None ->
      Fetchers.extras_bulk print_opaque post p batch g = (g', None) ->
      Fetchers.fetchExtraInfo (Fetchers.extras_flush print_opaque post p batch) p g
      = (g', Fetchers.Resolved (Fetchers.read_extras p g'))) /\
  (forall batch e g',
      Dispatch.extrasProcessedTags g !! Dispatch.tagEpc p = None ->
      Fetchers.extras_bulk print_opaque post p batch g = (g', Some e) ->
      Fetchers.truthy_thrown e = true ->
      Fetchers.fetchExtraInfo (Fetchers.extras_flush print_opaque post p batch) p g
      = (g', Fetchers.Rejected e)) /\
  (forall batch e,
      batch <> [] ->
      post (default EmptyString (Dispatch.extrasFetchUrl p))
           (default EmptyString (Dispatch.extrasBodyKey p))
           (Fetchers.filter_epcs (Dispatch.extrasProcessedTags g) [] batch)
           (Dispatch.store g)
      = Fetchers.ApiFail e ->
      Fetchers.extras_bulk print_opaque post p batch g = (g, Some e)).
Proof.
  split; [|split; [|split; [|split; [|split]]]].
  - intros entry H. unfold Fetchers.fetchExtraInfo. by rewrite H.
  - intros g' H Hset. unfold Fetchers.fetchExtraInfo. by rewrite H, Hset.
  - intros e g' H Hset He. unfold Fetchers.fetchExtraInfo. by rewrite H, Hset, He.
  - intros batch g' H Hb. unfold Fetchers.fetchExtraInfo, Fetchers.extras_flush.
    by rewrite H, Hb.
  - intros batch e g' H Hb He. unfold Fetchers.fetchExtraInfo, Fetchers.extras_flush.
    by rewrite H, Hb, He.
  - intros batch e Hb Hpost. unfold Fetchers.extras_bulk.
    destruct batch as [|epc batch]; [done|]. by rewrite Hpost.
Qed.

Lemma fetchExtraInfo_outcomes_witness :
  let p := Dispatch.Props "0000000100000002" (Some "/extras") (Some "epcs") (Some "epc")
             (Some "rows") None None [] true in
  let g := Dispatch.Globals [] true false ∅ ∅ in
  let post := fun (url key : string) (epcs : list string) (h : JS.heap) =>
    Fetchers.ApiOk
      (h ++ [JS.Obj [("rows", JS.VObject (S (length h)))]; JS.Arr [] []])%list
      (JS.VObject (length h)) in
  (Fetchers.fetchExtraInfo
     (Fetchers.extras_flush JS.print_plain post p ["0000000100000002"]) p g).2
  = Fetchers.Resolved None.
Proof.
  intros p g post.
  pose proof (fetchExtraInfo_outcomes JS.print_plain post
    (Fetchers.extras_flush JS.print_plain post p ["0000000100000002"]) p g)
    as (_ & H & _).
  rewrite (H (Dispatch.Globals
                [JS.Obj [("rows", JS.VObject 1%nat)]; JS.Arr [] []] true false
                {["0000000100000002" := Dispatch.ExtrasNotFound]} ∅)).
  - reflexivity.
  - reflexivity.
  - reflexivity.
Defined.

(** C6 as stated fails: when the remote call of the extras flush is
    rejected, the completion callback receives the error and
    [fetchExtraInfo] rejects with it. *)
Lemma fetchExtraInfo_rejects_on_remote_failure :
  let p := Dispatch.Props "0000000100000002" (Some "/extras") (Some "epcs") (Some "epc")
             (Some "rows") None None [] true in
  let g := Dispatch.Globals [] true false ∅ ∅ in
  let post := fun (url key : string) (epcs : list string) (h : JS.heap) =>
    Fetchers.ApiFail (Fetchers.ErrorObject "Network Error") in
  Fetchers.fetchExtraInfo
    (Fetchers.extras_flush JS.print_plain post p ["0000000100000002"]) p g
  = (g, Fetchers.Rejected (Fetchers.ErrorObject "Network Error")).
Proof. reflexivity. Qed.

(** ** Variant dispatch *)

Section DispatchFacts.
Import JS Dispatch ResolverPredicates.
#[local] Open Scope list_scope.

Variable string_to_number : string -> option Z.
Variable print_opaque : heap -> value -> string.

#[local] Abbreviation dispatch :=
  (getTagInfoFromValuesWithoutExtraFetcher string_to_number print_opaque).

(** When only legacy definitions match, [find] returns a legacy one. *)
Lemma only_legacy_find id cts :
  only_legacy id cts ->
  exists ct, List.find (matches id) cts = Some ct /\ is_legacy ct = true.
Proof.
  intros [(ct & Hin & Hm) Hall].
  destruct (List.find (matches id) cts) as [ct'|] eqn:E.
  - exists ct'. split; [done|]. apply find_some in E as [Hin' Hm'].
    apply Hall; [by apply list_elem_of_In|done].
  - apply list_elem_of_In in Hin. by rewrite (find_none _ _ E ct Hin) in Hm.
Qed.

(** The dispatch has no branch for a legacy definition. *)
Lemma dispatch_legacy p id value g ct :
  List.find (matches id) (tagContentTypes p) = Some ct -> is_legacy ct = true ->
  dispatch p id value g = (g, None).
Proof.
  intros E Hl. unfold getTagInfoFromValuesWithoutExtraFetcher. rewrite E.
  by destruct ct.
Qed.

(** A result record is never built for a legacy definition. *)
Lemma dispatch_not_legacy p id value g g' r :
  dispatch p id value g = (g', Some r) -> is_legacy (info_contentType r) = false.
Proof.
  unfold getTagInfoFromValuesWithoutExtraFetcher.
  destruct (List.find _ _) as [ct|]; [|done].
  destruct ct as [b v tf|b tf|b vs|b rd|b tm vm data|id' n d].
  - by intros [= <- <-].
  - by intros [= <- <-].
  - unfold getEnumTagInfo. destruct (List.find _ vs); [|done]. by intros [= <- <-].
  - by intros [= <- <-].
  - unfold getFetchedListTagInfo.
    destruct (Lookup.recursiveLookup _ _ _ _ _) as [h' m].
    destruct (truthy _); [|done]. by intros [= <- <-].
  - done.
Qed.

Lemma getTagInfoFromValues_not_legacy p id value g g' i :
  getTagInfoFromValues string_to_number print_opaque p id value g = (g', Some i) ->
  is_legacy (info_contentType (info i)) = false.
Proof.
  unfold getTagInfoFromValues.
  destruct (dispatch p id value g) as [g1 [r|]] eqn:E; [|done].
  intros [= <- <-]. by eapply dispatch_not_legacy.
Qed.

Lemma maybeVirtual_not_legacy p g g' i :
  maybeVirtual string_to_number print_opaque p g = (g', Info i) ->
  is_legacy (info_contentType (info i)) = false.
Proof.
  unfold maybeVirtual. destruct (_ && _); [|done].
  cbn [virtuallyProcessedTags].
  destruct (virtuallyProcessedTags g !! tagEpc p) as [[id value|]|]; [|done..].
  destruct (getTagInfoFromValues _ _ _ _ _ _) as [g1 [r|]] eqn:E; [|done].
  intros [= <- <-]. by eapply getTagInfoFromValues_not_legacy.
Qed.

End DispatchFacts.

(** C10: the variant dispatch has no legacy branch.  When the definition
    found for the decoded content-type id is of the legacy variant, in
    particular when only legacy definitions match that id, the dispatch
    returns [null] although the matching step recognised the definition
    by its [content_type_id]; [findTagInfo] then returns what the
    virtual-redirection path returns, that is [null], a [maybeVirtual]
    object, or the record of the redirected pair; and no result record of
    [findTagInfo] is ever built for a legacy definition. *)
Theorem legacy_definitions_never_resolve
    (string_to_number : string -> option Z)
    (print_opaque : JS.heap -> JS.value -> string)
    (p : Dispatch.findTagProps) (g : Dispatch.globals) :
  (forall id value ct,
      List.find (Dispatch.matches id) (Dispatch.tagContentTypes p) = Some ct ->
      Dispatch.is_legacy ct = true ->
      Dispatch.getTagInfoFromValuesWithoutExtraFetcher string_to_number print_opaque
        p id value g = (g, None)
      /\ Dispatch.getTagInfoFromValues string_to_number print_opaque p id value g
         = (g, None)) /\
  (forall id value,
      Dispatch.tagEpc p <> EmptyString ->
      TagNumbers.getTagNumbers (Dispatch.tagEpc p) = Some (id, value) ->
      ResolverPredicates.only_legacy id (Dispatch.tagContentTypes p) ->
      Dispatch.findTagInfo string_to_number print_opaque p g
      = Dispatch.maybeVirtual string_to_number print_opaque p
          (Dispatch.ensure_extras_batcher p g)) /\
  (forall g' i,
      Dispatch.maybeVirtual string_to_number print_opaque p g = (g', Dispatch.Info i) ->
      Dispatch.is_legacy (Dispatch.info_contentType (Dispatch.info i)) = false) /\
  (forall g' i,
      Dispatch.findTagInfo string_to_number print_opaque p g = (g', Dispatch.Info i) ->
      Dispatch.is_legacy (Dispatch.info_contentType (Dispatch.info i)) = false).
Proof.
  split; [|split; [|split]].
  - intros id value ct E Hl.
    pose proof (dispatch_legacy string_to_number print_opaque p id value g ct E Hl) as H.
    split; [done|]. unfold Dispatch.getTagInfoFromValues. by rewrite H.
  - intros id value Hepc Hnum Honly.
    destruct (only_legacy_find _ _ Honly) as (ct & E & Hl).
    unfold Dispatch.findTagInfo.
    apply String.eqb_neq in Hepc. rewrite Hepc, Hnum. cbv zeta. rewrite E.
    unfold Dispatch.getTagInfoFromValues.
    by rewrite (dispatch_legacy string_to_number print_opaque p id value _ ct E Hl).
  - intros g' i. apply maybeVirtual_not_legacy.
  - intros g' i. unfold Dispatch.findTagInfo.
    destruct (String.eqb _ _); [done|].
    destruct (TagNumbers.getTagNumbers _) as [[id value]|]; [|done]. cbv zeta.
    destruct (List.find _ _) as [ct|]; [|apply maybeVirtual_not_legacy].
    destruct (Dispatch.getTagInfoFromValues _ _ _ _ _ _) as [g1 [r|]] eqn:E.
    + intros [= <- <-]. by eapply getTagInfoFromValues_not_legacy.
    + apply maybeVirtual_not_legacy.
Qed.

Lemma legacy_definitions_never_resolve_witness :
  let p := Dispatch.Props "0000000700000002" None None None None None None
             [Dispatch.Legacy 7 "old" "Old type";
              Dispatch.Fixed (Dispatch.Base 8 "Fixed" "fixed") 1 "[TagEpc]"] true in
  let g := Dispatch.Globals [] false false ∅ ∅ in
  Dispatch.findTagInfo Lookup.decimal_to_number JS.print_plain p g = (g, Dispatch.Null).
Proof.
  intros p g.
  rewrite (proj1 (proj2 (legacy_definitions_never_resolve
                           Lookup.decimal_to_number JS.print_plain p g)) 7 2).
  - reflexivity.
  - discriminate.
  - reflexivity.
  - split.
    + exists (Dispatch.Legacy 7 "old" "Old type"). split; [|reflexivity].
      apply elem_of_cons. by left.
    + intros ct [->|[->|H]%elem_of_cons]%elem_of_cons; [done|discriminate|].
      by apply elem_of_nil in H.
Defined.

(** ** Worked examples *)

Section Examples.
Import JS Select Lookup Dispatch ExampleData.
#[local] Open Scope list_scope.

(** A 16-character identifier is two chunks; one chunk alone is no pair;
    [parseInt] reads the hexadecimal prefix of a chunk. *)
Example getTagNumbers_16 : TagNumbers.getTagNumbers "0000000A000000ff" = Some (10, 255).
Proof. reflexivity. Qed.

Example getTagNumbers_short : TagNumbers.getTagNumbers "0000000A" = None.
Proof. reflexivity. Qed.

Example getTagNumbers_prefix : TagNumbers.getTagNumbers "12zz000000000001" = Some (18, 1).
Proof. reflexivity. Qed.

Example getTagNumbers_not_hex : TagNumbers.getTagNumbers "zz00000000000001" = None.
Proof. reflexivity. Qed.

(** Paths go through arrays and strings; a missing step is [undefined]. *)
Example select_length :
  recursiveSelect people (PathStr "1.name.length") (VObject 0%nat) = VNumber 5.
Proof. reflexivity. Qed.

Example select_missing :
  recursiveSelect people (PathStr "5.name") (VObject 0%nat) = VUndefined.
Proof. reflexivity. Qed.

(** The array segment tries the elements in order; the result is a copy
    of the element that holds the leaf. *)
Example lookup_in_array :
  (recursiveLookup decimal_to_number people (PathStr "[].id") (KNum 8) (VObject 0%nat)).2
  = Found 2 (VObject 3%nat).
Proof. reflexivity. Qed.

(** A number is found under a string leaf, by [==]. *)
Example lookup_by_value_key :
  (recursiveLookup decimal_to_number
     [Obj [("5", VObject 1%nat)]; Obj [("v", VString "5")]]
     (PathStr "[value].v") (KNum 5) (VObject 0%nat)).2
  = Found 2 (VObject 2%nat).
Proof. reflexivity. Qed.

(** A leaf at the root has no enclosing record: the assignment of
    [toJson] to a number raises and the lookup is a miss. *)
Example lookup_root_leaf :
  (recursiveLookup decimal_to_number [] (PathArr []) (KNum 2) (VNumber 2)).2
  = Found 0 VNull.
Proof. reflexivity. Qed.

Example find_enum :
  (findTagInfo decimal_to_number print_plain (request "0000000100000002")
     (Globals [] false false ∅ ∅)).2
  = Info (WithExtra
            (TagInfo "blue" 1 2
               (Enum (Base 1 "Color" "color") [EnumValue "red" 1; EnumValue "blue" 2])
               (IsEnum (EnumValue "blue" 2)))
            false).
Proof. reflexivity. Qed.

Example find_fixed_text :
  match (findTagInfo decimal_to_number print_plain (request "000000020000000f")
           (Globals [] false false ∅ ∅)).2 with
  | Info i => text (info i) = "epc=000000020000000f, value=15"
  | _ => False
  end.
Proof. reflexivity. Qed.

Example find_enum_miss :
  (findTagInfo decimal_to_number print_plain (request "0000000100000003")
     (Globals [] false false ∅ ∅)).2 = Null.
Proof. reflexivity. Qed.

End Examples.

(** ** Identifiers: validation and decoding *)

Section IdentifierFacts.
Import JS TagNumbers Predicates ValidEpc Encoding.

Lemma all_hex_is_hex_string s : all_hex s -> is_hex_string s = true.
Proof.
  unfold is_hex_string. induction s as [|c s IH]; simpl; [done|].
  intros [Hc Hs]. rewrite IH by done. by rewrite bool_decide_eq_true_2.
Qed.

Lemma hex_char_word c : hex_char c -> is_word c = true.
Proof.
  intros [d Hd].
  destruct c as [[] [] [] [] [] [] [] []]; vm_compute in Hd |- *;
    first [discriminate | reflexivity].
Qed.

Lemma hex_char_not_r c : hex_char c -> Ascii.eqb "r" c = false.
Proof.
  intros [d Hd].
  destruct c as [[] [] [] [] [] [] [] []]; vm_compute in Hd |- *;
    first [discriminate | reflexivity].
Qed.

(** A string of hexadecimal digits holds neither the word [error] nor
    white space. *)
Lemma matches_error_hex s : forall prev, all_hex s -> matches_error prev s = false.
Proof.
  induction s as [|c s IH]; intros prev Hs; [done|].
  destruct Hs as [Hc Hs]. cbn [matches_error].
  destruct (hex_char_cases c Hc) as (Hlt & Hws & _).
  rewrite Hws, (IH _ Hs).
  assert ((code c =? 10) = false) as ->.
  { unfold is_line_terminator in Hlt. cbv zeta in Hlt. by apply orb_false_iff in Hlt as [-> _]. }
  assert (Dispatch.starts_with "error" (String c s) = false) as ->.
  { cbn [Dispatch.starts_with]. destruct s as [|c1 s]; [by rewrite andb_false_r|].
    destruct Hs as [Hc1 _]. rewrite (hex_char_not_r c1 Hc1).
    by rewrite andb_false_r. }
  by rewrite andb_false_r.
Qed.

Lemma hex_value_bounds s : forall acc,
  all_hex s -> 0 <= acc ->
  16 ^ Z.of_nat (String.length s) * acc <= hex_value acc s
  < 16 ^ Z.of_nat (String.length s) * (acc + 1).
Proof.
  induction s as [|c s IH]; intros acc Hs Hacc.
  - simpl. lia.
  - destruct Hs as [[d Hd] Hs]. cbn [hex_value String.length]. rewrite Hd. cbn [default from_option id].
    assert (0 <= d < 16) as Hdr.
    { unfold hex_digit in Hd. cbv zeta in Hd.
      repeat (destruct (_ && _) eqn:? in Hd;
              [injection Hd as <-; lia|]). done. }
    specialize (IH (16 * acc + d) Hs ltac:(lia)).
    rewrite Nat2Z.inj_succ, Z.pow_succ_r by lia.
    nia.
Qed.

(** The decoding on a string of hexadecimal digits, in terms of the
    window that is read. *)
Lemma getTagNumbers_all_hex s :
  all_hex s ->
  getTagNumbers s =
    (let w := window s in
     if (String.length w <=? 8)%nat then None
     else Some (hex_value 0 (take_chars 8 w), hex_value 0 (drop_chars 8 w))).
Proof.
  intros Hs. unfold getTagNumbers, window.
  set (w0 := if (32 <=? String.length s)%nat then drop_chars 8 s else s).
  assert (all_hex w0) as Hw0.
  { unfold w0. destruct (32 <=? String.length s)%nat; auto using all_hex_drop. }
  pose proof (getTagNumbers_on_hex w0 Hw0) as H. cbv zeta in H |- *.
  rewrite length_take_chars, (take_chars_take 8 16), (drop_chars_take 8 8) by lia.
  destruct (Nat.leb_spec (String.length w0) 8) as [Hle|Hgt].
  - replace (16 `min` String.length w0 <=? 8)%nat with true
      by (symmetry; apply Nat.leb_le; lia).
    injection H as -> ->. by destruct w0.
  - replace (16 `min` String.length w0 <=? 8)%nat with false
      by (symmetry; apply Nat.leb_gt; lia).
    injection H as -> ->. done.
Qed.

Lemma all_hex_app s t : all_hex s -> all_hex t -> all_hex (s ++ t).
Proof.
  induction s as [|c s IH]; [done|].
  rewrite append_cons. cbn [all_hex]. intros [? ?] ?. split; auto.
Qed.

Lemma length_append (s t : string) :
  String.length (s ++ t) = (String.length s + String.length t)%nat.
Proof.
  induction s as [|c s IH]; [done|].
  rewrite append_cons. cbn [String.length]. by rewrite IH.
Qed.

Lemma take_chars_app s t : take_chars (String.length s) (s ++ t) = s.
Proof.
  induction s as [|c s IH]; [done|].
  rewrite append_cons. cbn [String.length take_chars]. by rewrite IH.
Qed.

Lemma drop_chars_app s t : drop_chars (String.length s) (s ++ t) = t.
Proof.
  induction s as [|c s IH]; [done|].
  rewrite append_cons. cbn [String.length drop_chars]. exact IH.
Qed.

Lemma hex_value_app s t : forall acc,
  hex_value acc (s ++ t) = hex_value (hex_value acc s) t.
Proof.
  induction s as [|c s IH]; intros acc; [done|].
  rewrite append_cons. cbn [hex_value]. apply IH.
Qed.

Lemma hex_char_of_digit d : 0 <= d < 16 -> hex_digit (hex_char_of d) = Some d.
Proof.
  intros Hd.
  assert (d = 0 \/ d = 1 \/ d = 2 \/ d = 3 \/ d = 4 \/ d = 5 \/ d = 6 \/ d = 7 \/
          d = 8 \/ d = 9 \/ d = 10 \/ d = 11 \/ d = 12 \/ d = 13 \/ d = 14 \/ d = 15)
    as H by lia.
  repeat (destruct H as [->|H]; [reflexivity|]). by subst.
Qed.

Lemma hex_fixed_spec n : forall z,
  all_hex (hex_fixed n z)
  /\ String.length (hex_fixed n z) = n
  /\ forall acc, hex_value acc (hex_fixed n z) = 16 ^ Z.of_nat n * acc + z mod 16 ^ Z.of_nat n.
Proof.
  induction n as [|n IH]; intros z.
  - split; [done|]. split; [done|]. intros acc. simpl. rewrite Z.mod_1_r. lia.
  - destruct (IH (z / 16)) as (Hh & Hl & Hv).
    pose proof (Z.mod_pos_bound z 16 ltac:(lia)) as Hm.
    cbn [hex_fixed]. split; [|split].
    + apply all_hex_app; [done|]. split; [|done]. eexists. by apply hex_char_of_digit.
    + rewrite length_append, Hl. simpl. lia.
    + intros acc. rewrite hex_value_app, Hv. cbn [hex_value].
      rewrite hex_char_of_digit by done. cbn [default from_option id].
      rewrite Nat2Z.inj_succ, Z.pow_succ_r by lia.
      rewrite Z.rem_mul_r by lia. lia.
Qed.

Lemma validEpc_hex s :
  truthy (validEpc (VString s)) = true -> s <> EmptyString /\ all_hex s.
Proof.
  cbn [validEpc]. unfold matches_hex.
  destruct (String.eqb_spec s EmptyString) as [->|Hne]; [done|].
  cbn [negb andb]. destruct (is_hex_string s) eqn:Hs; [|done].
  intros _. split; [done|]. by apply is_hex_string_all_hex.
Qed.

End IdentifierFacts.

(** X1: [validEpc] accepts exactly the non-empty strings of hexadecimal
    digits.  The second test, against the word [error] and white space,
    never rejects a string that passed the first; a value that is not a
    string yields [false] and a string that is not hexadecimal [null]. *)
Theorem validEpc_accepts_hex_strings (epc : JS.value) :
  (JS.truthy (ValidEpc.validEpc epc) = true <->
   exists s, epc = JS.VString s /\ s <> EmptyString /\ TagNumbers.is_hex_string s = true)
  /\ (JS.truthy (ValidEpc.validEpc epc) = false ->
      ValidEpc.validEpc epc = JS.VNull \/ ValidEpc.validEpc epc = JS.VBool false).
Proof.
  split.
  - split.
    + destruct epc as [| |b|n|s|a|f]; try discriminate.
      intros [Hne Hs]%validEpc_hex. exists s. split; [done|]. split; [done|].
      by apply all_hex_is_hex_string.
    + intros (s & -> & Hne & Hs). cbn [ValidEpc.validEpc]. unfold ValidEpc.matches_hex.
      rewrite Hs. apply String.eqb_neq in Hne. rewrite Hne. cbn [negb andb].
      by rewrite matches_error_hex by by apply is_hex_string_all_hex.
  - destruct epc as [| |b|n|s|a|f]; cbn [ValidEpc.validEpc]; auto.
    destruct (ValidEpc.matches_hex s); [|auto]. cbn [JS.truthy]. intros ->. auto.
Qed.

(** X2: on an identifier that [validEpc] accepts, [getTagNumbers] yields
    no pair exactly when the identifier has at most eight characters;
    otherwise it yields a pair of numbers below [2^32]. *)
Theorem getTagNumbers_on_valid_epc (s : string) :
  JS.truthy (ValidEpc.validEpc (JS.VString s)) = true ->
  match TagNumbers.getTagNumbers s with
  | Some (a, b) => (9 <= String.length s)%nat /\ 0 <= a < 2 ^ 32 /\ 0 <= b < 2 ^ 32
  | None => (String.length s <= 8)%nat
  end.
Proof.
  intros [Hne Hs]%validEpc_hex.
  rewrite (getTagNumbers_all_hex s Hs). cbv zeta.
  assert (Predicates.all_hex (TagNumbers.window s)) as Hw.
  { unfold TagNumbers.window. apply all_hex_take.
    destruct (32 <=? String.length s)%nat; auto using all_hex_drop. }
  assert (String.length (TagNumbers.window s)
          = (16 `min` (if (32 <=? String.length s)%nat
                       then String.length s - 8 else String.length s))%nat) as Hl.
  { unfold TagNumbers.window. rewrite length_take_chars.
    destruct (32 <=? String.length s)%nat; [by rewrite length_drop_chars|done]. }
  destruct (Nat.leb_spec (String.length (TagNumbers.window s)) 8) as [Hle|Hgt].
  - rewrite Hl in Hle. destruct (Nat.leb_spec 32 (String.length s)); lia.
  - split.
    { rewrite Hl in Hgt. destruct (Nat.leb_spec 32 (String.length s)); lia. }
    pose proof (hex_value_bounds (TagNumbers.take_chars 8 (TagNumbers.window s)) 0
                  (all_hex_take 8 _ Hw) ltac:(lia)) as H1.
    pose proof (hex_value_bounds (TagNumbers.drop_chars 8 (TagNumbers.window s)) 0
                  (all_hex_drop 8 _ Hw) ltac:(lia)) as H2.
    rewrite length_take_chars in H1. rewrite length_drop_chars in H2.
    replace (8 `min` String.length (TagNumbers.window s))%nat with 8%nat in H1 by lia.
    assert (String.length (TagNumbers.window s) - 8 <= 8)%nat as Hd by lia.
    assert (16 ^ Z.of_nat (String.length (TagNumbers.window s) - 8) <= 16 ^ 8) as Hp.
    { apply Z.pow_le_mono_r; lia. }
    change (2 ^ 32) with (16 ^ 8). change (Z.of_nat 8) with 8 in H1. lia.
Qed.

Lemma getTagNumbers_on_valid_epc_witness :
  JS.truthy (ValidEpc.validEpc (JS.VString "E2000000ffffffff0000002A")) = true
  /\ match TagNumbers.getTagNumbers "E2000000ffffffff0000002A" with
     | Some (a, b) => (9 <= 24)%nat /\ 0 <= a < 2 ^ 32 /\ 0 <= b < 2 ^ 32
     | None => (24 <= 8)%nat
     end.
Proof.
  split; [reflexivity|].
  exact (getTagNumbers_on_valid_epc "E2000000ffffffff0000002A" eq_refl).
Defined.

(** X3: decoding inverts the encoding of a pair of numbers below [2^32]
    as two groups of eight hexadecimal digits.  The pair is read back
    from the start of an identifier of less than thirty-two characters,
    whatever hexadecimal digits follow it, and from behind any header of
    eight hexadecimal digits in an identifier of thirty-two characters or
    more. *)
Theorem getTagNumbers_decodes_encoding (a b : Z) (trailer : string) :
  0 <= a < 2 ^ 32 -> 0 <= b < 2 ^ 32 ->
  TagNumbers.is_hex_string trailer = true ->
  ((String.length trailer < 16)%nat ->
   TagNumbers.getTagNumbers
     (Encoding.hex_fixed 8 a ++ Encoding.hex_fixed 8 b ++ trailer) = Some (a, b))
  /\ (forall header,
        TagNumbers.is_hex_string header = true -> String.length header = 8%nat ->
        (8 <= String.length trailer)%nat ->
        TagNumbers.getTagNumbers
          (header ++ Encoding.hex_fixed 8 a ++ Encoding.hex_fixed 8 b ++ trailer)
        = Some (a, b)).
Proof.
  intros Ha Hb Ht%is_hex_string_all_hex.
  destruct (hex_fixed_spec 8 a) as (Hxa & Hla & Hva).
  destruct (hex_fixed_spec 8 b) as (Hxb & Hlb & Hvb).
  set (A := Encoding.hex_fixed 8 a) in *. set (B := Encoding.hex_fixed 8 b) in *.
  assert (forall rest, Predicates.all_hex rest ->
            let w := TagNumbers.take_chars 16 (A ++ B ++ rest) in
            (if (String.length w <=? 8)%nat then None
             else Some (TagNumbers.hex_value 0 (TagNumbers.take_chars 8 w),
                        TagNumbers.hex_value 0 (TagNumbers.drop_chars 8 w)))
            = Some (a, b)) as Hwin.
  { intros rest Hrest w.
    assert (w = (A ++ B)%string) as ->.
    { unfold w. rewrite <- (append_app_assoc A B rest).
      replace 16%nat with (String.length (A ++ B)) by (by rewrite length_append, Hla, Hlb).
      apply take_chars_app. }
    rewrite length_append, Hla, Hlb. cbn [Nat.leb Nat.add].
    rewrite <- Hla at 1. rewrite take_chars_app.
    rewrite <- Hla at 1. rewrite drop_chars_app.
    rewrite Hva, Hvb. change (16 ^ Z.of_nat 8) with (2 ^ 32).
    rewrite !Z.mod_small by lia. by rewrite !Z.mul_0_r. }
  split; [intros Hlen|intros header Hh%is_hex_string_all_hex Hhl Hlen].
  - rewrite getTagNumbers_all_hex by auto using all_hex_app.
    unfold TagNumbers.window. rewrite !length_append, Hla, Hlb.
    replace (32 <=? 8 + (8 + String.length trailer))%nat with false
      by (symmetry; apply Nat.leb_gt; lia).
    by apply Hwin.
  - rewrite getTagNumbers_all_hex by auto using all_hex_app.
    unfold TagNumbers.window. rewrite !length_append, Hhl, Hla, Hlb.
    replace (32 <=? 8 + (8 + (8 + String.length trailer)))%nat with true
      by (symmetry; apply Nat.leb_le; lia).
    pose proof (drop_chars_app header (A ++ B ++ trailer)) as Hd.
    rewrite Hhl in Hd. rewrite Hd. by apply Hwin.
Qed.

Lemma getTagNumbers_decodes_encoding_witness :
  TagNumbers.getTagNumbers "0000002a000000ffabcdef01" = Some (42, 255)
  /\ TagNumbers.getTagNumbers "300000000000002a000000ffabcdef01" = Some (42, 255)
  /\ TagNumbers.getTagNumbers "E28011600000002a000000ffabcdef01" = Some (42, 255).
Proof.
  destruct (getTagNumbers_decodes_encoding 42 255 "abcdef01"
              ltac:(lia) ltac:(lia) eq_refl) as [Hshort Hlong].
  split; [exact (Hshort ltac:(simpl; lia))|].
  split.
  - exact (Hlong "30000000" eq_refl eq_refl ltac:(simpl; lia)).
  - exact (Hlong "E2801160" eq_refl eq_refl ltac:(simpl; lia)).
Defined.

(** ** Path selection *)

Section SelectFacts.
Import JS Select.
#[local] Open Scope list_scope.

Lemma select_segments_undefined h q : select_segments h q VUndefined = VUndefined.
Proof. by destruct q. Qed.

Lemma select_segments_app h p : forall q v,
  select_segments h (p ++ q) v = select_segments h q (select_segments h p v).
Proof.
  induction p as [|k p IH]; intros q v; [done|].
  cbn [app select_segments]. destruct (get h v k) as [v'|].
  - apply IH.
  - by rewrite select_segments_undefined.
Qed.

Lemma split_dot_app a b : forall cur,
  split_dot cur (a ++ String "." b)%string = split_dot cur a ++ split_dot EmptyString b.
Proof.
  induction a as [|c a IH]; intros cur; [done|].
  rewrite append_cons. cbn [split_dot]. destruct (TagNumbers.code c =? 46).
  - by rewrite IH.
  - apply IH.
Qed.

End SelectFacts.

(** X4: selection along a path is selection along its first part followed
    by selection along the rest, for dotted strings and for arrays of
    segments; the empty path selects the object itself; and a step
    through [undefined] or [null], which raises in the code, selects
    [undefined]. *)
Theorem recursiveSelect_composes (h : JS.heap) (obj : JS.value) :
  (forall a b,
      Select.recursiveSelect h (JS.PathStr (a ++ "." ++ b)) obj
      = Select.recursiveSelect h (JS.PathStr b)
          (Select.recursiveSelect h (JS.PathStr a) obj))
  /\ (forall p q,
        Select.recursiveSelect h (JS.PathArr (p ++ q)%list) obj
        = Select.recursiveSelect h (JS.PathArr q)
            (Select.recursiveSelect h (JS.PathArr p) obj))
  /\ Select.recursiveSelect h (JS.PathStr EmptyString) obj = obj
  /\ (forall k p,
        Select.recursiveSelect h (JS.PathArr (k :: p)) JS.VUndefined = JS.VUndefined
        /\ Select.recursiveSelect h (JS.PathArr (k :: p)) JS.VNull = JS.VUndefined).
Proof.
  split; [|split; [|split]].
  - intros a b. cbn [Select.recursiveSelect].
    change ("." ++ b)%string with (String "." b).
    by rewrite split_dot_app, filter_app, select_segments_app.
  - intros p q. apply select_segments_app.
  - reflexivity.
  - intros k p. by split.
Qed.

(** ** Request Batcher: what is delivered *)

Section BatcherLedgerFacts.
Import Batcher BatcherLedger.
Context {T C : Type}.
Variable truthyT : T -> bool.
Variable periodInMs : Z.

#[local] Open Scope list_scope.

#[local] Abbreviation run := (Batcher.run truthyT periodInMs).
#[local] Abbreviation step := (Batcher.step truthyT periodInMs).

Lemma push_item_app item (q : list T) :
  push_item truthyT item q = q ++ push_item truthyT item [].
Proof.
  destruct item as [x|]; simpl; [|by rewrite app_nil_r].
  destruct (truthyT x); [done|by rewrite app_nil_r].
Qed.

Lemma push_cb_app cb (q : list C) : push_cb cb q = q ++ push_cb cb [].
Proof. destruct cb; simpl; [done|by rewrite app_nil_r]. Qed.

Lemma out_callBatcher now (s : state T C) :
  items_out (callBatcher now s) = items_out s
  /\ callbacks_out (callBatcher now s) = callbacks_out s.
Proof.
  unfold items_out, callbacks_out, items_delivered, callbacks_delivered. simpl.
  rewrite !map_app, !concat_app. simpl. by rewrite !app_nil_r.
Qed.

Lemma out_fire (s : state T C) :
  items_out (fire s) = items_out s /\ callbacks_out (fire s) = callbacks_out s.
Proof.
  unfold fire. destruct (timeout s) as [due|]; [|done]. destruct (live s); [|done].
  apply (out_callBatcher due (State _ _ _ _ _ _)).
Qed.

Lemma out_advance now (s : state T C) :
  items_out (advance now s) = items_out s
  /\ callbacks_out (advance now s) = callbacks_out s.
Proof.
  unfold advance. destruct (timeout s) as [due|] eqn:E; [|done].
  destruct (_ && _); [|done]. apply out_fire.
Qed.

Lemma out_set_method now item cb (s : state T C) :
  items_out (set_method truthyT periodInMs now item cb s)
  = items_out s ++ push_item truthyT item []
  /\ callbacks_out (set_method truthyT periodInMs now item cb s)
     = callbacks_out s ++ push_cb cb [].
Proof.
  unfold set_method. match goal with |- context [flush_now _ _ ?s1] => set (s' := s1) end.
  assert (items_out s' = items_out s ++ push_item truthyT item []
          /\ callbacks_out s' = callbacks_out s ++ push_cb cb []) as [<- <-].
  { unfold items_out, callbacks_out, items_delivered, callbacks_delivered, s'. simpl.
    by rewrite (push_item_app item), (push_cb_app cb), !app_assoc. }
  destruct (flush_now _ _ s'); [apply out_callBatcher|done].
Qed.

Lemma out_setNow now item (s : state T C) :
  items_out (setNow truthyT now item s) = items_out s ++ push_item truthyT item []
  /\ callbacks_out (setNow truthyT now item s) = callbacks_out s.
Proof.
  unfold setNow, items_out, callbacks_out, items_delivered, callbacks_delivered. simpl.
  rewrite !map_app, !concat_app. simpl.
  by rewrite (push_item_app item), !app_nil_r, !app_assoc.
Qed.

Lemma items_in_app (q1 q2 : list (option T * option C)) :
  items_in truthyT (q1 ++ q2) = items_in truthyT q1 ++ items_in truthyT q2.
Proof. unfold items_in. by rewrite flat_map_app. Qed.

Lemma callbacks_in_app (q1 q2 : list (option T * option C)) :
  callbacks_in (q1 ++ q2) = callbacks_in q1 ++ callbacks_in q2.
Proof. unfold callbacks_in. by rewrite flat_map_app. Qed.

Lemma items_in_single (item : option T) (cb : option C) :
  items_in truthyT [(item, cb)] = push_item truthyT item [].
Proof. unfold items_in. cbn [flat_map fst]. by rewrite app_nil_r. Qed.

Lemma callbacks_in_single (item : option T) (cb : option C) :
  callbacks_in [(item, cb)] = push_cb cb [].
Proof. unfold callbacks_in. cbn [flat_map snd]. by rewrite app_nil_r. Qed.

(** One event: either what it hands in is added to what the batcher
    holds, or it is a call of [set] that is rejected, with 1000 calls
    waiting, and the batcher holds what it held. *)
Lemma held_step now e (b : locked_batcher (T := T) (C := C)) :
  let b1 := locked_step truthyT periodInMs now e b in
  (Lock.rejected b1 = Lock.rejected b
   /\ callbacks_held b1 = callbacks_held b ++ handed_callbacks_of [(now, e)]
   /\ items_held truthyT b1 ≡ₚ items_held truthyT b ++ handed_items_of truthyT [(now, e)]
   /\ (is_setNow e = false ->
       items_held truthyT b1 = items_held truthyT b ++ handed_items_of truthyT [(now, e)]))
  \/ (exists item cb q,
        e = Invoke (OpSet item cb)
        /\ Lock.waiting b = Some q /\ (Lock.maxPending <= length q)%nat
        /\ Lock.rejected b1 = Lock.rejected b ++ [(item, cb)]
        /\ items_held truthyT b1 = items_held truthyT b
        /\ callbacks_held b1 = callbacks_held b).
Proof.
  destruct b as [w s rej]. unfold items_held, callbacks_held, handed_items_of,
    handed_callbacks_of. cbn [flat_map snd Lock.waiting Lock.inner Lock.rejected].
  destruct e as [o|]; cbn [locked_step Lock.waiting].
  - destruct w as [q|].
    + destruct o as [item cb|item|]; unfold Batcher.set, Lock.lockMethod, on_inner;
        cbn [Lock.waiting Lock.inner Lock.rejected default from_option id].
      * destruct (Lock.maxPending <=? length q)%nat eqn:E.
        -- right. apply Nat.leb_le in E. exists item, cb, q. by repeat split.
        -- left. cbn [Lock.waiting Lock.inner Lock.rejected default from_option id].
           rewrite items_in_app, callbacks_in_app, items_in_single, callbacks_in_single.
           rewrite !app_nil_r, !app_assoc. by repeat split.
      * left. destruct (out_setNow now item s) as [-> ->]. rewrite !app_nil_r.
        split; [done|]. split; [done|]. split; [|done].
        rewrite <- !app_assoc. apply Permutation_app_head, Permutation_app_comm.
      * left. unfold clearTimeoutHandler, items_out, callbacks_out. simpl.
        rewrite !app_nil_r. by repeat split.
    + unfold on_inner. cbn [Lock.waiting Lock.inner Lock.rejected].
      destruct (out_advance now s) as [<- <-].
      generalize (advance now s). clear s. intros s. left.
      destruct o as [item cb|item|]; unfold Batcher.set, Lock.lockMethod, locked_method, on_inner;
        cbn [Lock.waiting Lock.inner Lock.rejected default from_option id fst snd];
        unfold items_in, callbacks_in; cbn [flat_map]; rewrite !app_nil_r.
      * destruct (out_set_method now item cb s) as [-> ->]. by repeat split.
      * destruct (out_setNow now item s) as [-> ->]. by repeat split.
      * unfold clearTimeoutHandler, items_out, callbacks_out. simpl. by repeat split.
  - left. unfold Lock.handover. cbn [Lock.waiting Lock.inner Lock.rejected].
    destruct w as [[|[item cb] q]|];
      cbn [Lock.waiting Lock.inner Lock.rejected default from_option id];
      rewrite ?app_nil_r; try by repeat split.
    unfold locked_method. cbn [fst snd].
    destruct (out_set_method now item cb s) as [-> ->].
    unfold items_in, callbacks_in. cbn [flat_map fst snd].
    rewrite <- !app_assoc. by repeat split.
Qed.

Lemma handed_items_of_cons now e (sched : list (Z * event (T := T) (C := C))) :
  handed_items_of truthyT ((now, e) :: sched)
  = handed_items_of truthyT [(now, e)] ++ handed_items_of truthyT sched.
Proof. unfold handed_items_of. cbn [flat_map]. by rewrite app_nil_r. Qed.

Lemma handed_callbacks_of_cons now e (sched : list (Z * event (T := T) (C := C))) :
  handed_callbacks_of ((now, e) :: sched)
  = handed_callbacks_of [(now, e)] ++ handed_callbacks_of sched.
Proof. unfold handed_callbacks_of. cbn [flat_map]. by rewrite app_nil_r. Qed.

Lemma held_run sched : forall (b : locked_batcher (T := T) (C := C)),
  let b' := locked_run truthyT periodInMs sched b in
  items_held truthyT b' ++ items_in truthyT (Lock.rejected b')
    ≡ₚ (items_held truthyT b ++ items_in truthyT (Lock.rejected b))
         ++ handed_items_of truthyT sched
  /\ callbacks_held b' ++ callbacks_in (Lock.rejected b')
       ≡ₚ (callbacks_held b ++ callbacks_in (Lock.rejected b)) ++ handed_callbacks_of sched
  /\ Lock.rejected b `prefix_of` Lock.rejected b'
  /\ (Lock.rejected b' = Lock.rejected b ->
      callbacks_held b' = callbacks_held b ++ handed_callbacks_of sched
      /\ (Forall (fun e => is_setNow e.2 = false) sched ->
          items_held truthyT b' = items_held truthyT b ++ handed_items_of truthyT sched)).
Proof.
  induction sched as [|[now e] sched IH]; intros b b'.
  - unfold handed_items_of, handed_callbacks_of. cbn [flat_map]. subst b'. cbn [locked_run].
    rewrite !app_nil_r. by repeat split.
  - subst b'. cbn [locked_run].
    destruct (IH (locked_step truthyT periodInMs now e b)) as (Hi & Hc & Hp & Hx).
    rewrite handed_items_of_cons, handed_callbacks_of_cons.
    destruct (held_step now e b)
      as [(Hr & Hcb & Hperm & Hit)|(item & cb & q & -> & _ & _ & Hr & Hit & Hcb)].
    + rewrite Hr in *. split; [|split; [|split; [done|]]].
      * rewrite Hi, Hperm. rewrite <- !app_assoc. apply Permutation_app_head.
        rewrite !app_assoc. apply Permutation_app_tail, Permutation_app_comm.
      * rewrite Hc, Hcb. rewrite <- !app_assoc. apply Permutation_app_head.
        rewrite !app_assoc. apply Permutation_app_tail, Permutation_app_comm.
      * intros Hrej. destruct (Hx Hrej) as [Hx1 Hx2]. split.
        -- by rewrite Hx1, Hcb, app_assoc.
        -- intros Hns. apply Forall_cons in Hns as [Hn Hns]. cbn [snd] in Hn.
           by rewrite (Hx2 Hns), (Hit Hn), app_assoc.
    + rewrite Hr, Hit, Hcb in *. split; [|split; [|split]].
      * rewrite Hi, items_in_app, items_in_single.
        replace (handed_items_of truthyT [(now, Invoke (OpSet item cb))])
          with (push_item truthyT item [])
          by (unfold handed_items_of; cbn [flat_map snd]; by rewrite app_nil_r).
        by rewrite !app_assoc.
      * rewrite Hc, callbacks_in_app, callbacks_in_single.
        replace (handed_callbacks_of [(now, Invoke (OpSet item cb))])
          with (push_cb cb [])
          by (unfold handed_callbacks_of; cbn [flat_map snd]; by rewrite app_nil_r).
        by rewrite !app_assoc.
      * etransitivity; [|exact Hp]. by apply prefix_app_r.
      * intros Hrej. apply prefix_length in Hp. rewrite Hrej, length_app in Hp.
        cbn in Hp. lia.
Qed.

(** With at most 1001 calls of [set] no call is rejected. *)
Lemma sets_bound sched : forall (b : locked_batcher (T := T) (C := C)) (k : nat),
  match Lock.waiting b with Some q => (S (length q) <= k)%nat | None => True end ->
  (k + sets sched <= S Lock.maxPending)%nat ->
  Lock.rejected (locked_run truthyT periodInMs sched b) = Lock.rejected b.
Proof.
  induction sched as [|[now e] sched IH]; intros b k Hw Hk; [done|].
  cbn [locked_run]. unfold sets in Hk. rewrite filter_cons in Hk. cbn [snd] in Hk.
  destruct b as [w s rej]. cbn [Lock.waiting Lock.rejected] in *.
  destruct e as [[item cb|item|]|]; cbn [is_set] in Hk.
  - rewrite decide_True in Hk by done. cbn [length] in Hk. cbn [locked_step Lock.waiting].
    unfold Batcher.set, Lock.lockMethod, on_inner.
    destruct w as [q|]; cbn [Lock.waiting Lock.inner Lock.rejected].
    + destruct (Nat.leb_spec Lock.maxPending (length q)); [unfold sets in IH; lia|].
      rewrite (IH _ (S k)); [done| |unfold sets; lia].
      cbn [Lock.waiting]. rewrite length_app. cbn. lia.
    + rewrite (IH _ (S k)); [done| |unfold sets; lia]. cbn. lia.
  - rewrite decide_False in Hk by done. cbn [locked_step]. unfold on_inner.
    destruct w as [q|]; cbn [Lock.waiting Lock.inner Lock.rejected];
      by rewrite (IH _ k).
  - rewrite decide_False in Hk by done. cbn [locked_step]. unfold on_inner.
    destruct w as [q|]; cbn [Lock.waiting Lock.inner Lock.rejected];
      by rewrite (IH _ k).
  - rewrite decide_False in Hk by done. cbn [locked_step]. unfold Lock.handover.
    cbn [Lock.waiting Lock.inner Lock.rejected].
    destruct w as [[|a q]|]; cbn [Lock.waiting Lock.inner Lock.rejected];
      rewrite (IH _ k); try done.
    cbn [Lock.waiting]. cbn in Hw. lia.
Qed.

Lemma idle_fire (s : state T C) : idle_is_empty s -> idle_is_empty (fire s).
Proof.
  unfold fire. destruct (timeout s) as [due|]; [|done]. by destruct (live s).
Qed.

Lemma idle_advance now (s : state T C) :
  idle_is_empty s -> idle_is_empty (advance now s).
Proof.
  unfold advance. destruct (timeout s) as [due|] eqn:E; [|done].
  destruct (_ && _); [|done]. apply idle_fire.
Qed.

Lemma idle_set_method now item cb (s : state T C) :
  idle_is_empty s -> idle_is_empty (set_method truthyT periodInMs now item cb s).
Proof.
  intros [Hs1 Hs2]. unfold set_method.
  destruct (flush_now _ _ _); split; cbn; try done; auto.
Qed.

Lemma idle_setNow now item (s : state T C) :
  idle_is_empty s -> idle_is_empty (setNow truthyT now item s).
Proof.
  intros [Hs1 Hs2]. unfold setNow. split; cbn; [done|].
  intros Hl. split; [done|]. by apply Hs2.
Qed.

(** Without [clearTimeoutHandler] nothing is queued without a timer. *)
Lemma idle_locked_run sched : forall (b : locked_batcher (T := T) (C := C)),
  Forall (fun e => is_clearing e.2 = false) sched ->
  idle_is_empty (Lock.inner b) ->
  idle_is_empty (Lock.inner (locked_run truthyT periodInMs sched b)).
Proof.
  induction sched as [|[now e] sched IH]; intros b Hc Hb; [done|].
  apply Forall_cons in Hc as [He Hc]. cbn [snd] in He. cbn [locked_run].
  apply IH; [done|]. destruct b as [w s rej]. cbn [Lock.inner] in Hb.
  destruct e as [[item cb|item|]|]; [| |done|]; cbn [locked_step Lock.waiting].
  - unfold Batcher.set, Lock.lockMethod, on_inner.
    destruct w as [q|]; cbn [Lock.waiting Lock.inner Lock.rejected].
    + by destruct (_ <=? _)%nat.
    + by apply idle_set_method, idle_advance.
  - unfold on_inner. destruct w as [q|]; cbn [Lock.waiting Lock.inner Lock.rejected].
    + by apply idle_setNow.
    + by apply idle_setNow, idle_advance.
  - unfold Lock.handover. cbn [Lock.waiting Lock.inner Lock.rejected].
    destruct w as [[|a q]|]; cbn [Lock.inner]; try done.
    by apply idle_set_method.
Qed.

Lemma settle_empties (s : state T C) :
  idle_is_empty s -> batched (settle s) = [] /\ pendingCallbacks (settle s) = [].
Proof.
  unfold settle, fire. intros [Hs1 Hs2]. destruct (live s) eqn:El.
  - destruct (Hs1 eq_refl) as [due ->]. done.
  - destruct (timeout s); by apply Hs2.
Qed.

Lemma truthy_push_item item (q : list T) :
  Forall (fun x => truthyT x = true) q ->
  Forall (fun x => truthyT x = true) (push_item truthyT item q).
Proof.
  intros Hq. destruct item as [x|]; [|done]. cbn [push_item].
  destruct (truthyT x) eqn:E; [|done]. apply Forall_app. split; [done|].
  by apply Forall_singleton.
Qed.

Lemma truthy_callBatcher now (s : state T C) :
  only_truthy truthyT s -> only_truthy truthyT (callBatcher now s).
Proof.
  intros [Hb Hc]. split; [constructor|]. cbn [calls callBatcher].
  apply Forall_app. split; [done|]. by apply Forall_singleton.
Qed.

Lemma truthy_fire (s : state T C) : only_truthy truthyT s -> only_truthy truthyT (fire s).
Proof.
  intros Hs. unfold fire. destruct (timeout s) as [due|]; [|done].
  destruct (live s); [|done]. by apply truthy_callBatcher.
Qed.

Lemma truthy_advance now (s : state T C) :
  only_truthy truthyT s -> only_truthy truthyT (advance now s).
Proof.
  intros Hs. unfold advance. destruct (timeout s) as [due|]; [|done].
  destruct (_ && _); [|done]. by apply truthy_fire.
Qed.

Lemma truthy_set_method now item cb (s : state T C) :
  only_truthy truthyT s -> only_truthy truthyT (set_method truthyT periodInMs now item cb s).
Proof.
  intros [Hb Hc]. unfold set_method.
  destruct (flush_now _ _ _); [apply truthy_callBatcher|];
    (split; [by apply truthy_push_item|done]).
Qed.

Lemma truthy_setNow now item (s : state T C) :
  only_truthy truthyT s -> only_truthy truthyT (setNow truthyT now item s).
Proof.
  intros [Hb Hc]. split; [constructor|]. cbn [calls setNow].
  apply Forall_app. split; [done|]. apply Forall_singleton. by apply truthy_push_item.
Qed.

(** A batcher never queues a falsy item, and never passes one to the
    bulk callback. *)
Lemma truthy_locked_run sched : forall (b : locked_batcher (T := T) (C := C)),
  only_truthy truthyT (Lock.inner b) ->
  only_truthy truthyT (Lock.inner (locked_run truthyT periodInMs sched b)).
Proof.
  induction sched as [|[now e] sched IH]; intros b Hb; [done|].
  cbn [locked_run]. apply IH. destruct b as [w s rej]. cbn [Lock.inner] in Hb.
  destruct e as [[item cb|item|]|]; cbn [locked_step Lock.waiting].
  - unfold Batcher.set, Lock.lockMethod, on_inner.
    destruct w as [q|]; cbn [Lock.waiting Lock.inner Lock.rejected].
    + by destruct (_ <=? _)%nat.
    + by apply truthy_set_method, truthy_advance.
  - unfold on_inner. destruct w as [q|]; cbn [Lock.waiting Lock.inner Lock.rejected].
    + by apply truthy_setNow.
    + by apply truthy_setNow, truthy_advance.
  - unfold on_inner. destruct w as [q|]; cbn [Lock.waiting Lock.inner Lock.rejected].
    + done.
    + by apply truthy_advance.
  - unfold Lock.handover. cbn [Lock.waiting Lock.inner Lock.rejected].
    destruct w as [[|a q]|]; cbn [Lock.inner]; try done.
    by apply truthy_set_method.
Qed.

End BatcherLedgerFacts.

(** X5: the batcher accounts for everything it is handed.  After any
    schedule of calls of [set], [setNow] and [clearTimeoutHandler],
    completions and timer expiries, every truthy item handed in is
    exactly one of: passed to the bulk callback, queued, in the hands of
    a call of [set] that waits for the lock, or rejected with its call;
    likewise for the completion callbacks.  When no call is rejected,
    the callbacks are held in the order they were handed in, and so are
    the items if [setNow] is not used.  A call is rejected only while
    1000 calls wait for the lock, hence never in a schedule with at most
    1001 calls of [set] that starts on a free lock.  On a new batcher,
    when [clearTimeoutHandler] is never called and the lock is free in
    the end, nothing stays queued once the last timer has expired: what
    the batcher holds has been passed to the bulk callback. *)
Theorem batcher_delivers_every_item
    {T C : Type} (truthyT : T -> bool) (periodInMs : Z)
    (sched : list (Z * Batcher.event)) (b : Batcher.locked_batcher (T := T) (C := C)) :
  let b' := Batcher.locked_run truthyT periodInMs sched b in
  (BatcherLedger.items_held truthyT b' ++ BatcherLedger.items_in truthyT (Lock.rejected b')
     ≡ₚ (BatcherLedger.items_held truthyT b
           ++ BatcherLedger.items_in truthyT (Lock.rejected b))
          ++ BatcherLedger.handed_items_of truthyT sched)%list
  /\ (BatcherLedger.callbacks_held b' ++ BatcherLedger.callbacks_in (Lock.rejected b')
        ≡ₚ (BatcherLedger.callbacks_held b ++ BatcherLedger.callbacks_in (Lock.rejected b))
             ++ BatcherLedger.handed_callbacks_of sched)%list
  /\ (Lock.rejected b' = Lock.rejected b ->
      BatcherLedger.callbacks_held b'
      = (BatcherLedger.callbacks_held b ++ BatcherLedger.handed_callbacks_of sched)%list
      /\ (Forall (fun e => BatcherLedger.is_setNow e.2 = false) sched ->
          BatcherLedger.items_held truthyT b'
          = (BatcherLedger.items_held truthyT b
               ++ BatcherLedger.handed_items_of truthyT sched)%list))
  /\ (Lock.waiting b = None -> (BatcherLedger.sets sched <= S Lock.maxPending)%nat ->
      Lock.rejected b' = Lock.rejected b)
  /\ (b = Batcher.new_batcher ->
      Forall (fun e => BatcherLedger.is_clearing e.2 = false) sched ->
      Lock.waiting b' = None ->
      let s := Batcher.settle (Lock.inner b') in
      Batcher.batched s = [] /\ Batcher.pendingCallbacks s = []
      /\ BatcherLedger.items_delivered s = BatcherLedger.items_held truthyT b'
      /\ BatcherLedger.callbacks_delivered s = BatcherLedger.callbacks_held b').
Proof.
  intros b'. destruct (held_run truthyT periodInMs sched b) as (Hi & Hc & _ & Hx).
  split; [exact Hi|]. split; [exact Hc|]. split; [exact Hx|]. split.
  - intros Hw Hn. apply (sets_bound truthyT periodInMs sched b 0); [by rewrite Hw|done].
  - intros -> Hclear Hfree s.
    assert (BatcherLedger.idle_is_empty (Lock.inner b')) as Hidle.
    { apply idle_locked_run; [done|]. by split. }
    destruct (settle_empties _ Hidle) as [Hb Hp]. fold s in Hb, Hp.
    destruct (out_fire (Lock.inner b')) as [Hio Hco].
    change (Batcher.fire ?x) with (Batcher.settle x) in Hio, Hco. fold s in Hio, Hco.
    unfold BatcherLedger.items_held, BatcherLedger.callbacks_held. rewrite Hfree.
    unfold BatcherLedger.items_in, BatcherLedger.callbacks_in. cbn [default flat_map].
    rewrite !app_nil_r, <- Hio, <- Hco.
    unfold BatcherLedger.items_out, BatcherLedger.callbacks_out.
    by rewrite Hb, Hp, !app_nil_r.
Qed.

Lemma batcher_delivers_every_item_witness :
  let sched : list (Z * Batcher.event) :=
    [(0, Batcher.Invoke (Batcher.OpSet (Some 4) (Some 1%nat)));
     (0, Batcher.Invoke (Batcher.OpSet (Some 0) None));
     (0, Batcher.Invoke (Batcher.OpSetNow (Some 5)));
     (0, Batcher.Complete);
     (0, Batcher.Complete);
     (400, Batcher.Invoke (Batcher.OpSet (Some 6) (Some 2%nat)));
     (400, Batcher.Complete);
     (410, Batcher.Invoke (Batcher.OpSet (Some 7) None));
     (410, Batcher.Complete)] in
  let b' := Batcher.locked_run (fun z => negb (z =? 0)) 300 sched
              (Batcher.new_batcher (T := Z) (C := nat)) in
  let s := Batcher.settle (Lock.inner b') in
  Batcher.batched s = [] /\ Batcher.pendingCallbacks s = []
  /\ BatcherLedger.items_delivered s = [4; 5; 6; 7]
  /\ BatcherLedger.callbacks_delivered s = [1%nat; 2%nat].
Proof.
  intros sched b' s.
  destruct (batcher_delivers_every_item (fun z => negb (z =? 0)) 300 sched
              Batcher.new_batcher) as (_ & _ & _ & _ & H).
  destruct (H eq_refl ltac:(repeat constructor) eq_refl) as (H1 & H2 & H3 & H4).
  fold b' in H1, H2, H3, H4. fold s in H1, H2, H3, H4.
  split; [exact H1|]. split; [exact H2|]. split; [rewrite H3|rewrite H4]; reflexivity.
Defined.

(** X6: [setNow] passes the queue, with its own item, to the bulk
    callback at once, but takes no completion callback and neither
    cancels the timer nor records the time of the flush: the callbacks
    registered by earlier [set] calls stay pending until that timer
    expires, and the bulk callback is then invoked with an empty list. *)
Theorem setNow_takes_items_not_callbacks
    {T C : Type} (truthyT : T -> bool) (periodInMs : Z)
    (s : Batcher.state T C) (due now : Z) (item : option T) :
  Batcher.timeout s = Some due -> Batcher.live s = true -> now < due ->
  let s1 := Batcher.step truthyT periodInMs now (Batcher.OpSetNow item) s in
  Batcher.calls s1
  = (Batcher.calls s
       ++ [Batcher.Call now (Batcher.push_item truthyT item (Batcher.batched s)) []])%list
  /\ Batcher.batched s1 = []
  /\ Batcher.pendingCallbacks s1 = Batcher.pendingCallbacks s
  /\ Batcher.lastUpdated s1 = Batcher.lastUpdated s
  /\ Batcher.calls (Batcher.settle s1)
     = (Batcher.calls s1 ++ [Batcher.Call due [] (Batcher.pendingCallbacks s)])%list.
Proof.
  intros Ht Hl Hnow s1. unfold s1, Batcher.step.
  rewrite advance_not_due by (right; eauto).
  unfold Batcher.setNow, Batcher.settle, Batcher.fire. cbn. by rewrite Ht, Hl.
Qed.

Lemma setNow_takes_items_not_callbacks_witness :
  let s := Batcher.run (fun z => negb (z =? 0)) 300
             [(0, Batcher.OpSet (Some 4) (Some 1%nat));
              (10, Batcher.OpSet (Some 5) (Some 2%nat))]
             (Batcher.createBatcher (T := Z) (C := nat)) in
  Batcher.calls
    (Batcher.settle (Batcher.step (fun z => negb (z =? 0)) 300 20 (Batcher.OpSetNow (Some 6)) s))
  = [Batcher.Call 0 [4] [1%nat]; Batcher.Call 20 [5; 6] []; Batcher.Call 317 [] [2%nat]].
Proof.
  intros s.
  destruct (setNow_takes_items_not_callbacks (fun z => negb (z =? 0)) 300 s 317 20 (Some 6)
              eq_refl eq_refl ltac:(lia)) as (H1 & _ & _ & _ & H5).
  rewrite H5, H1. reflexivity.
Defined.

(** X7: [clearTimeoutHandler] cancels the timer and nothing else.  The
    queued items and completion callbacks stay where they are and no
    timer will deliver them; they leave with the next [set], either at
    once or when its timer expires. *)
Theorem clearTimeoutHandler_strands_queue
    {T C : Type} (truthyT : T -> bool) (periodInMs : Z)
    (s : Batcher.state T C) (due now : Z) :
  Batcher.timeout s = Some due -> Batcher.live s = true -> now < due ->
  let s1 := Batcher.step truthyT periodInMs now Batcher.OpClearTimeoutHandler s in
  Batcher.settle s1 = s1
  /\ Batcher.calls s1 = Batcher.calls s
  /\ Batcher.batched s1 = Batcher.batched s
  /\ Batcher.pendingCallbacks s1 = Batcher.pendingCallbacks s
  /\ forall t item cb,
       exists t', (t' = t \/ t' = t + (periodInMs + 7))
         /\ Batcher.calls
              (Batcher.settle (Batcher.step truthyT periodInMs t (Batcher.OpSet item cb) s1))
            = (Batcher.calls s
                 ++ [Batcher.Call t'
                       (Batcher.push_item truthyT item (Batcher.batched s))
                       (Batcher.push_cb cb (Batcher.pendingCallbacks s))])%list.
Proof.
  intros Ht Hl Hnow s1.
  assert (s1 = Batcher.State (Some due) false (Batcher.batched s) (Batcher.lastUpdated s)
                 (Batcher.pendingCallbacks s) (Batcher.calls s)) as ->.
  { unfold s1, Batcher.step. rewrite advance_not_due by (right; eauto).
    unfold Batcher.clearTimeoutHandler. by rewrite Ht. }
  repeat (split; [done|]).
  intros t item cb. unfold Batcher.step.
  rewrite advance_not_due by by left.
  unfold Batcher.set_method. destruct (Batcher.flush_now _ _ _).
  - exists t. split; [by left|]. done.
  - exists (t + (periodInMs + 7)). split; [by right|]. done.
Qed.

Lemma clearTimeoutHandler_strands_queue_witness :
  let s := Batcher.run (fun z => negb (z =? 0)) 300
             [(0, Batcher.OpSet (Some 4) (Some 1%nat));
              (10, Batcher.OpSet (Some 5) (Some 2%nat))]
             (Batcher.createBatcher (T := Z) (C := nat)) in
  let s1 := Batcher.step (fun z => negb (z =? 0)) 300 20 Batcher.OpClearTimeoutHandler s in
  Batcher.settle s1 = s1 /\ Batcher.batched s1 = [5] /\ Batcher.pendingCallbacks s1 = [2%nat].
Proof.
  intros s s1.
  destruct (clearTimeoutHandler_strands_queue (fun z => negb (z =? 0)) 300 s 317 20
              eq_refl eq_refl ltac:(lia)) as (H1 & _ & H3 & H4 & _).
  split; [exact H1|]. split; [exact H3|exact H4].
Defined.

(** X8: a [set] that flushes at once leaves a scheduled timer in place.
    When that timer expires the bulk callback is invoked once more, with
    an empty list and no completion callback, if nothing arrived in
    between. *)
Theorem immediate_flush_keeps_timer
    {T C : Type} (truthyT : T -> bool) (periodInMs : Z)
    (s : Batcher.state T C) (due now : Z) (item : option T) (cb : option C) :
  Batcher.timeout s = Some due -> Batcher.live s = true -> now < due ->
  BatcherPredicates.flush_condition periodInMs now s ->
  Batcher.calls
    (Batcher.settle (Batcher.step truthyT periodInMs now (Batcher.OpSet item cb) s))
  = (Batcher.calls s
       ++ [Batcher.Call now
             (Batcher.push_item truthyT item (Batcher.batched s))
             (Batcher.push_cb cb (Batcher.pendingCallbacks s));
           Batcher.Call due [] []])%list.
Proof.
  intros Ht Hl Hnow Hf. unfold Batcher.step.
  rewrite advance_not_due by (right; eauto).
  unfold Batcher.set_method.
  match goal with |- context [Batcher.flush_now _ _ ?s1] =>
    replace (Batcher.flush_now periodInMs now s1) with true
      by (symmetry; apply flush_now_spec; exact Hf) end.
  unfold Batcher.settle, Batcher.fire, Batcher.callBatcher. cbn. rewrite Ht, Hl. cbn.
  by rewrite <- app_assoc.
Qed.

Lemma immediate_flush_keeps_timer_witness :
  Batcher.calls
    (Batcher.settle
       (Batcher.run (fun z => negb (z =? 0)) 300
          [(0, Batcher.OpSet (Some 4) None);
           (306, Batcher.OpSet (Some 5) None);
           (307, Batcher.OpSet (Some 6) (Some 1%nat))]
          (Batcher.createBatcher (T := Z) (C := nat))))
  = [Batcher.Call 0 [4] []; Batcher.Call 307 [5; 6] [1%nat]; Batcher.Call 613 [] []].
Proof.
  set (s := Batcher.run (fun z => negb (z =? 0)) 300
              [(0, Batcher.OpSet (Some 4) None); (306, Batcher.OpSet (Some 5) None)]
              (Batcher.createBatcher (T := Z) (C := nat))).
  change (Batcher.calls
            (Batcher.settle
               (Batcher.step (fun z => negb (z =? 0)) 300 307
                  (Batcher.OpSet (Some 6) (Some 1%nat)) s))
          = [Batcher.Call 0 [4] []; Batcher.Call 307 [5; 6] [1%nat]; Batcher.Call 613 [] []]).
  rewrite (immediate_flush_keeps_timer (fun z => negb (z =? 0)) 300 s 613 307).
  - reflexivity.
  - reflexivity.
  - reflexivity.
  - lia.
  - left. split; [by eexists|]. vm_compute. intros [=].
Defined.

(** ** Lookup: what it leaves behind, and what it finds in a list *)

Section LookupFrameFacts.
Import JS Lookup Graph Record Hit.
#[local] Open Scope list_scope.
#[local] Open Scope nat_scope.

Variable string_to_number : string -> option Z.

#[local] Abbreviation lookup := (Lookup.lookup string_to_number).

Lemma closedb_closed (h : heap) : StoreCheck.closedb h = true -> closed h.
Proof.
  unfold StoreCheck.closedb. intros H a b (o & Ho & Hb).
  rewrite forallb_forall in H. apply list_elem_of_lookup_2, list_elem_of_In in Ho.
  specialize (H o Ho). rewrite forallb_forall in H.
  apply list_elem_of_In in Hb. specialize (H b Hb). by apply Nat.ltb_lt in H.
Qed.

Lemma first_match_raised visit items : forall (h h' : heap),
  (forall item h1 m, visit h item = Some (Done h1 m) ->
                     truthy (result m) = false -> h1 = h) ->
  first_match visit items h = Some (Raised h') ->
  exists item, item ∈ items /\ visit h item = Some (Raised h').
Proof.
  induction items as [|item items IHi]; intros h h' Hmiss; cbn [first_match]; [done|].
  destruct (visit h item) as [[h1 m1|h1]|] eqn:E; [| |done].
  - destruct (truthy (result m1)) eqn:Et; [done|].
    rewrite (Hmiss _ _ _ E Et). intros H. destruct (IHi _ _ Hmiss H) as (it & Hin & Hv).
    exists it. split; [apply elem_of_cons; by right|done].
  - intros [= <-]. exists item. split; [apply elem_of_cons; by left|done].
Qed.

(** On a store without dangling references a visit raises only at the
    root, when the target itself is the string or number looked for. *)
Lemma lookup_raised fuel : forall (h : heap) segs k target parent root seen h',
  closed h ->
  (parent = VUndefined \/
   exists p o, parent = VObject p /\ h !! p = Some o
               /\ (is_string_or_number target = true -> target ∈ values_of o)) ->
  lookup fuel h segs k target parent root seen = Some (Raised h') ->
  h' = h /\ parent = VUndefined /\ is_string_or_number target = true.
Proof.
  induction fuel as [|fuel IH]; intros h segs k target parent root seen h' Hcl Hparent;
    [done|].
  cbn [Lookup.lookup].
  destruct (bool_decide _); [done|].
  assert (match segs with
          | [] =>
              if is_string_or_number target && loose_eq string_to_number target k
              then
                let '(h1, res) :=
                  surfaceClone h (if truthy parent then parent else target) in
                match assign h1 res "toJson" (VFunction "toJson") with
                | Some h2 => Some (Done h2 (Found root res))
                | None => Some (Raised h1)
                end
              else Some (Done h (Found root VNull))
          | _ :: _ => Some (Done h (Found root VNull))
          end = Some (Raised h') ->
          h' = h /\ parent = VUndefined /\ is_string_or_number target = true) as Hleaf.
  { destruct segs; [|done].
    destruct (is_string_or_number target) eqn:Hsn; [|done]. cbn [andb].
    destruct (loose_eq _ target k); [|done].
    destruct Hparent as [->|(p & o & -> & Hp & _)].
    - cbn [truthy]. destruct target; try discriminate Hsn; cbn; by intros [= <-].
    - cbn [truthy]. by rewrite surfaceClone_object. }
  destruct target as [| |b|n|s|a|f]; try done.
  cbv zeta. unfold deref at 1.
  destruct (h !! a) as [o_t|] eqn:Ha; cbn [default from_option id].
  2:{ unfold get, deref. rewrite Ha. cbn [default from_option id assoc].
      destruct (Lookup.lookup _ fuel h _ _ VUndefined _ _ _) as [[h1 m1|h1]|] eqn:E;
        [| |done].
      - apply lookup_undefined in E. by rewrite setParent_miss by (by rewrite E).
      - destruct fuel; [done|]. cbn [Lookup.lookup] in E. by destruct (bool_decide _). }
  destruct o_t as [ps|elems ps].
  - match goal with |- context [get h (VObject a) ?kk] =>
      set (child := match get h (VObject a) kk with Ok v => v | Throw => VUndefined end)
    end.
    assert (is_string_or_number child = true -> child ∈ values_of (Obj ps)) as Hchild.
    { intros Hsn. subst child. unfold get, deref in Hsn |- *. rewrite Ha in Hsn |- *.
      cbn [default from_option id] in Hsn |- *.
      destruct (assoc _ ps) as [v|] eqn:Ev; [|done]. cbn.
      apply assoc_elem in Ev. apply list_elem_of_fmap.
      eexists. split; [|exact Ev]. done. }
    destruct (Lookup.lookup _ fuel h _ _ child _ _ _) as [[h1 m1|h1]|] eqn:E; [| |done].
    + destruct (truthy (result m1)) eqn:Et.
      * apply (lookup_hit string_to_number) in E as [res Hinv]; [|done| |done].
        -- by destruct (setParent_hit string_to_number k h h1 root a _ m1 res Hcl Ha Hinv)
             as (h2 & -> & _).
        -- intros Hsn _. exists a, (Obj ps). auto.
      * by rewrite setParent_miss.
    + apply IH in E as (_ & [=] & _); [done|]. right. exists a, (Obj ps). auto.
  - destruct (negb _); [done|].
    match goal with |- context [first_match ?f elems h] =>
      destruct (first_match f elems h) as [[h1 [m1|]|h1]|] eqn:E; [| | |done] end.
    + apply first_match_hit in E as (item & Hin & E & Et);
        [|intros; by eapply lookup_miss_heap].
      apply (lookup_hit string_to_number) in E as [res Hinv]; [|done| |done].
      * by destruct (setParent_hit string_to_number k h h1 root a _ m1 res Hcl Ha Hinv)
          as (h2 & -> & _).
      * intros _ _. exists a, (Arr elems ps). split; [done|]. split; [done|].
        apply elem_of_app. by left.
    + done.
    + apply first_match_raised in E as (item & Hin & E);
        [|intros; by eapply lookup_miss_heap].
      apply IH in E as (_ & [=] & _); [done|]. right. exists a, (Arr elems ps).
      split; [done|]. split; [done|]. intros _. apply elem_of_app. by left.
Qed.

(** The outcome of [recursiveLookup] on a store without dangling
    references. *)
Lemma recursiveLookup_outcome (h : heap) lookupMap k target h' m :
  closed h ->
  recursiveLookup string_to_number h lookupMap k target = (h', m) ->
  (result m = VNull /\ h' = h)
  \/ (exists res new, result m = VObject res /\ h' = h ++ new
                      /\ length h <= res < length h').
Proof.
  intros Hcl. unfold recursiveLookup.
  destruct (Lookup.lookup _ _ h _ k target _ _ _) as [[h1 m1|h1]|] eqn:E.
  - intros [= <- <-]. destruct (truthy (result m1)) eqn:Et.
    + right. apply (lookup_hit string_to_number) in E as [res Hinv]; [|done|done|done].
      destruct Hinv as [Hres [new Hpre] _ _ Hchain _].
      destruct (Hchain 0 ltac:(lia)) as (c & [= <-] & Hc). by exists res, new.
    + left. pose proof (lookup_miss_heap string_to_number _ _ _ _ _ _ _ _ _ _ E Et) as ->.
      split; [|done].
      (* a falsy result of a visit is [null] *)
      clear Hcl. revert E Et. generalize (enough_fuel h (segments lookupMap)).
      generalize (segments lookupMap) target VUndefined 0 (@nil value) m1.
      intros segs t parent root seen m fuel. revert segs t parent root seen m.
      induction fuel as [|fuel IH]; intros segs t parent root seen m; [done|].
      cbn [Lookup.lookup]. destruct (bool_decide _); [by intros [= <-]|].
      destruct t as [| |b|n|s|a|f].
      1,2: by intros [= <-].
      4:{ destruct (deref h a) as [ps|elems ps].
          - destruct (Lookup.lookup _ fuel h _ _ _ _ _ _) as [[h1 m1'|h1]|] eqn:E; [|done..].
            destruct (setParent h1 root (VObject a) m1') as [h2|]; [|done].
            intros [= _ <-] Hm.
            destruct (truthy (result m1')) eqn:Et'; [congruence|].
            pose proof (lookup_miss_heap string_to_number _ _ _ _ _ _ _ _ _ _ E Et') as ->.
            by eapply IH.
          - destruct (negb _); [by intros [= <-]|].
            destruct (first_match _ elems h) as [[h1 [m1'|]|h1]|] eqn:E; [| |done..].
            + destruct (setParent h1 root (VObject a) m1') as [h2|]; [|done].
              intros [= _ <-] Hm.
              apply first_match_hit in E as (item & _ & _ & Et');
                [congruence|intros; by eapply lookup_miss_heap].
            + by intros [= _ <-]. }
      all: destruct segs; [|by intros [= <-]].
      all: destruct (_ && _); [|by intros [= <-]].
      all: destruct (surfaceClone _ _) as [h1 res] eqn:Ec.
      all: destruct (assign h1 res _ _) as [h2|] eqn:Ea; [|done].
      all: intros [= _ <-] Hm; cbn [result] in Hm.
      all: destruct (truthy parent) eqn:Ep.
      all: destruct parent; try discriminate Ep; cbn in Ec;
           try (destruct (deref h _)); injection Ec as <- <-; try discriminate Ea;
           try discriminate Hm.
  - intros [= <- <-]. left. split; [done|].
    by apply lookup_raised in E as (-> & _); [|done|by left].
  - intros [= <- <-]. by left.
Qed.

End LookupFrameFacts.

(** X9: [recursiveLookup] on a store without dangling references never
    changes an object of its input, whatever the outcome.  When it finds
    nothing, or when the exception it catches was raised, the result is
    [null] and the store is exactly as before; otherwise the result is
    an object made by the call.  A target that is not an object or an
    array is never found, even when it is the looked-for value. *)
Theorem recursiveLookup_leaves_input
    (string_to_number : string -> option Z) (h : JS.heap) (lookupMap : JS.path)
    (k : Lookup.key) (target : JS.value) (h' : JS.heap) (m : Lookup.found) :
  Graph.closed h ->
  Lookup.recursiveLookup string_to_number h lookupMap k target = (h', m) ->
  (forall a, (a < length h)%nat -> h' !! a = h !! a)
  /\ ((Lookup.result m = JS.VNull /\ h' = h)
      \/ (exists res, Lookup.result m = JS.VObject res
                      /\ (length h <= res < length h')%nat))
  /\ (Graph.ref_of target = None -> Lookup.result m = JS.VNull).
Proof.
  intros Hcl Hrun.
  pose proof (recursiveLookup_outcome string_to_number h lookupMap k target h' m Hcl Hrun)
    as Hout.
  split; [|split].
  - intros a Ha. destruct Hout as [[_ ->]|(res & new & _ & -> & _)]; [done|].
    by rewrite lookup_app_l.
  - destruct Hout as [?|(res & new & ? & _ & ?)]; [by left|right; eauto].
  - intros Ht. destruct Hout as [[? _]|(res & new & Hres & _ & Hlt)]; [done|].
    exfalso. unfold Lookup.recursiveLookup in Hrun.
    destruct (Lookup.lookup _ _ h _ k target _ _ _) as [[h1 m1|h1]|] eqn:E.
    2,3: injection Hrun as <- <-; discriminate Hres.
    injection Hrun as <- <-.
    destruct (Lookup.enough_fuel h (Lookup.segments lookupMap)) as [|fuel]; [done|].
    cbn [Lookup.lookup] in E. rewrite bool_decide_eq_false_2 in E by by intros ?%elem_of_nil.
    destruct target as [| |b|n|s|a|f]; try discriminate Ht.
    1,2: injection E as <- <-; discriminate Hres.
    all: destruct (Lookup.segments lookupMap);
      [|injection E as <- <-; discriminate Hres].
    all: destruct (_ && _); [|injection E as <- <-; discriminate Hres].
    all: cbn in E; try discriminate E.
    injection E as <- <-. discriminate Hres.
Qed.

Lemma recursiveLookup_leaves_input_witness :
  let r := Lookup.recursiveLookup Lookup.decimal_to_number ExampleData.people
             (JS.PathStr "[].id") (Lookup.KNum 8) (JS.VObject 0%nat) in
  (forall a, (a < length ExampleData.people)%nat -> r.1 !! a = ExampleData.people !! a)
  /\ ((Lookup.result r.2 = JS.VNull /\ r.1 = ExampleData.people)
      \/ (exists res, Lookup.result r.2 = JS.VObject res
                      /\ (length ExampleData.people <= res < length r.1)%nat))
  /\ (Graph.ref_of (JS.VObject 0%nat) = None -> Lookup.result r.2 = JS.VNull).
Proof.
  intros r.
  apply (recursiveLookup_leaves_input Lookup.decimal_to_number ExampleData.people
           (JS.PathStr "[].id") (Lookup.KNum 8) (JS.VObject 0%nat) r.1 r.2).
  - apply closedb_closed. reflexivity.
  - apply surjective_pairing.
Defined.

(** ** Lookup in a list of flat records *)

Section FlatRecordFacts.
Import JS Lookup Graph FlatRecords.
#[local] Open Scope list_scope.
#[local] Open Scope nat_scope.

Variable string_to_number : string -> option Z.
Variables (h : heap) (c : nat) (elems : list value) (ps : list (string * value)).
Variables (key : string) (k : Lookup.key).
Hypothesis Hc : h !! c = Some (Arr elems ps).
Hypothesis Hkey : key <> "[value]".

#[local] Abbreviation lookup := (Lookup.lookup string_to_number).
#[local] Abbreviation holds := (FlatRecords.holds string_to_number h key k).

Lemma assoc_set_twice name v1 v2 l :
  assoc_set name v2 (assoc_set name v1 l) = assoc_set name v2 l.
Proof.
  induction l as [|[k' v'] l IH]; simpl.
  - by rewrite String.eqb_refl.
  - destruct (String.eqb name k') eqn:E; simpl.
    + by rewrite String.eqb_refl.
    + by rewrite E, IH.
Qed.

Lemma alter_last {A} (f : A -> A) (l : list A) x tl :
  alter f (length l) (l ++ x :: tl) = l ++ f x :: tl.
Proof.
  replace (length l) with (length l + 0) at 1 by lia. by rewrite alter_app_r.
Qed.

(** The visit of one record of the list. *)
Lemma visit_flat_record a ps_a :
  h !! a = Some (Obj ps_a) ->
  ref_of (field h key (VObject a)) = None ->
  lookup 2 h [key] k (VObject a) (VObject c) 1 [VObject c]
  = Some (if holds (VObject a)
          then Done (h ++ [returned_copy ps_a (S (length h)); Obj ps_a])
                    (Found 2 (VObject (length h)))
          else Done h (Found 2 VNull)).
Proof.
  intros Ha Hflat.
  assert (a <> c) as Hac by (intros ->; congruence).
  pose proof (lookup_lt_Some _ _ _ Ha) as Hlt.
  cbn [Lookup.lookup].
  rewrite bool_decide_eq_false_2 by (intros [=]%list_elem_of_singleton; done).
  unfold deref at 1. rewrite Ha. cbn [default from_option id head tail app].
  apply String.eqb_neq in Hkey. rewrite Hkey.
  unfold holds, FlatRecords.holds.
  change (match get h (VObject a) key with Ok v => v | Throw => VUndefined end)
    with (field h key (VObject a)).
  destruct (field h key (VObject a)) as [| |b|n|s|r|f] eqn:Ef; try discriminate Hflat.
  all: rewrite bool_decide_eq_false_2
    by (intros [[=]|[[=]|[]%elem_of_nil]%elem_of_cons]%elem_of_cons).
  all: cbn [is_string_or_number andb]; try done.
  - destruct (loose_eq _ _ _); [|done].
    cbn [truthy]. rewrite surfaceClone_object. unfold deref. rewrite Ha.
    cbn [default from_option id copy_of assign].
    rewrite alter_last. cbn [set_prop].
    unfold setParent. cbn [result depth truthy negb follow_parent Nat.sub andb].
    rewrite bool_decide_eq_false_2 by (intros [= Heq]; lia). cbn [negb].
    rewrite surfaceClone_object. unfold deref. rewrite lookup_app_l, Ha by done.
    cbn [default from_option id copy_of assign].
    rewrite length_app. cbn [length]. rewrite <- app_assoc. cbn [app].
    rewrite alter_last. cbn [set_prop].
    unfold returned_copy. by rewrite Nat.add_1_r.
  - destruct (loose_eq _ _ _); [|done].
    cbn [truthy]. rewrite surfaceClone_object. unfold deref. rewrite Ha.
    cbn [default from_option id copy_of assign].
    rewrite alter_last. cbn [set_prop].
    unfold setParent. cbn [result depth truthy negb follow_parent Nat.sub andb].
    rewrite bool_decide_eq_false_2 by (intros [= Heq]; lia). cbn [negb].
    rewrite surfaceClone_object. unfold deref. rewrite lookup_app_l, Ha by done.
    cbn [default from_option id copy_of assign].
    rewrite length_app. cbn [length]. rewrite <- app_assoc. cbn [app].
    rewrite alter_last. cbn [set_prop].
    unfold returned_copy. by rewrite Nat.add_1_r.
Qed.

#[local] Abbreviation visit :=
  (fun (h0 : heap) item => lookup 2 h0 [key] k item (VObject c) 1 ([] ++ [VObject c])).

Lemma first_match_flat_none items :
  Forall (flat_record h key) items ->
  Forall (fun item => holds item = false) items ->
  first_match visit items h = Some (Done h None).
Proof.
  induction items as [|item items IH]; intros Hflat Hmiss; [done|].
  apply Forall_cons in Hflat as [(a & ps_a & -> & Ha & Hf) Hflat].
  apply Forall_cons in Hmiss as [Hm Hmiss].
  cbn [first_match app]. rewrite (visit_flat_record a ps_a Ha Hf), Hm.
  cbn [result truthy]. by apply IH.
Qed.

Lemma first_match_flat_hit pre a ps_a post :
  Forall (flat_record h key) pre ->
  Forall (fun item => holds item = false) pre ->
  h !! a = Some (Obj ps_a) ->
  ref_of (field h key (VObject a)) = None ->
  holds (VObject a) = true ->
  first_match visit (pre ++ VObject a :: post) h
  = Some (Done (h ++ [returned_copy ps_a (S (length h)); Obj ps_a])
               (Some (Found 2 (VObject (length h))))).
Proof.
  intros Hflat Hmiss Ha Hf Hhit.
  induction pre as [|item pre IH].
  - cbn [first_match app]. by rewrite (visit_flat_record a ps_a Ha Hf), Hhit.
  - apply Forall_cons in Hflat as [(b & ps_b & -> & Hb & Hfb) Hflat].
    apply Forall_cons in Hmiss as [Hm Hmiss].
    cbn [first_match app]. rewrite (visit_flat_record b ps_b Hb Hfb), Hm.
    cbn [result truthy]. by apply IH.
Qed.

Lemma find_split {A} (p : A -> bool) (l : list A) x :
  List.find p l = Some x ->
  exists pre post, l = pre ++ x :: post /\ Forall (fun y => p y = false) pre /\ p x = true.
Proof.
  induction l as [|y l IH]; [done|]. simpl. destruct (p y) eqn:E.
  - intros [= ->]. by exists [], l.
  - intros (pre & post & -> & Hpre & Hx)%IH. exists (y :: pre), post.
    split; [done|]. split; [by constructor|done].
Qed.

Lemma find_none_all {A} (p : A -> bool) (l : list A) :
  List.find p l = None -> Forall (fun y => p y = false) l.
Proof.
  induction l as [|y l IH]; [done|]. simpl. destruct (p y) eqn:E; [done|].
  intros H. constructor; [done|by apply IH].
Qed.

(** The lookup of ["[].key"] in a list of flat records. *)
Lemma lookup_flat_records :
  Forall (flat_record h key) elems ->
  lookup 3 h ["[]"; key] k (VObject c) VUndefined 0 []
  = Some (match List.find holds elems with
          | Some (VObject a) =>
              Done (h ++ [returned_copy (props_of (deref h a)) (length h + 2);
                          deref h a; Arr elems []])
                   (Found 2 (VObject (length h)))
          | _ => Done h (Found 0 VNull)
          end).
Proof.
  intros Hflat.
  pose proof (lookup_lt_Some _ _ _ Hc) as Hlt.
  set (fuel := 2). cbn [Lookup.lookup].
  rewrite bool_decide_eq_false_2 by by intros ?%elem_of_nil.
  unfold deref at 1. rewrite Hc. cbn [default from_option id head tail].
  rewrite bool_decide_eq_true_2 by done. cbn [negb]. subst fuel.
  destruct (List.find holds elems) as [x|] eqn:Efind.
  - apply find_split in Efind as (pre & post & Hel & Hpre & Hx).
    assert (flat_record h key x) as (a & ps_a & -> & Ha & Hf).
    { rewrite Forall_forall in Hflat. apply Hflat. rewrite Hel.
      apply elem_of_app. right. apply elem_of_cons. by left. }
    rewrite Hel at 1.
    rewrite (first_match_flat_hit pre a ps_a post); [|rewrite Hel in Hflat|..]; try done.
    2:{ by apply Forall_app in Hflat as [? _]. }
    unfold setParent. cbn [result depth truthy negb follow_parent Nat.sub andb].
    rewrite bool_decide_eq_false_2 by (intros [= Heq]; lia). cbn [negb].
    rewrite surfaceClone_object. unfold deref.
    rewrite lookup_app_l, Hc, Ha by done.
    cbn [default from_option id copy_of assign props_of].
    rewrite length_app. cbn [length]. rewrite <- app_assoc. cbn [app].
    rewrite alter_last. unfold returned_copy. cbn [set_prop].
    by rewrite assoc_set_twice.
  - apply find_none_all in Efind.
    by rewrite (first_match_flat_none elems Hflat Efind).
Qed.

End FlatRecordFacts.

(** X10: the lookup of the pattern ["[].key"] in a list of flat records
    (plain objects whose member [key] is not itself an object) returns
    a copy of the first record whose member [key] is a string or a
    number equal by [==] to the looked-for value, and [null] when there
    is none.  The copy has the members of the record, to which [toJson]
    and [__parent__] are added, the latter holding a copy of the list;
    the match is reported at depth 2. *)
Theorem recursiveLookup_finds_first_record
    (string_to_number : string -> option Z) (h : JS.heap) (c : nat)
    (elems : list JS.value) (ps : list (string * JS.value))
    (lookupMap : JS.path) (key : string) (k : Lookup.key) :
  h !! c = Some (JS.Arr elems ps) ->
  Lookup.segments lookupMap = ["[]"; key] ->
  key <> "[value]" ->
  Forall (FlatRecords.flat_record h key) elems ->
  Lookup.recursiveLookup string_to_number h lookupMap k (JS.VObject c)
  = match List.find (FlatRecords.holds string_to_number h key k) elems with
    | Some (JS.VObject a) =>
        ((h ++ [FlatRecords.returned_copy (JS.props_of (JS.deref h a)) (length h + 2);
                JS.deref h a; JS.Arr elems []])%list,
         Lookup.Found 2 (JS.VObject (length h)))
    | _ => (h, Lookup.Found 0 JS.VNull)
    end.
Proof.
  intros Hc Hsegs Hkey Hflat. unfold Lookup.recursiveLookup. rewrite Hsegs.
  assert (3 <= Lookup.enough_fuel h ["[]"; key])%nat as Hfuel
    by (unfold Lookup.enough_fuel; simpl; lia).
  rewrite (lookup_fuel_mono string_to_number 3 _ _ _ _ _ _ _ _ _ Hfuel
             (lookup_flat_records string_to_number h c elems ps key k Hc Hkey Hflat)).
  by destruct (List.find _ elems) as [[]|].
Qed.

Lemma recursiveLookup_finds_first_record_witness :
  Lookup.recursiveLookup Lookup.decimal_to_number ExampleData.people
    (JS.PathStr "[].id") (Lookup.KNum 8) (JS.VObject 0%nat)
  = ((ExampleData.people
        ++ [JS.Obj [("id", JS.VNumber 8); ("name", JS.VString "eight");
                    ("toJson", JS.VFunction "toJson"); ("__parent__", JS.VObject 5%nat)];
            JS.Obj [("id", JS.VNumber 8); ("name", JS.VString "eight")];
            JS.Arr [JS.VObject 1%nat; JS.VObject 2%nat] []])%list,
     Lookup.Found 2 (JS.VObject 3%nat)).
Proof.
  rewrite (recursiveLookup_finds_first_record Lookup.decimal_to_number ExampleData.people
             0%nat [JS.VObject 1%nat; JS.VObject 2%nat] [] (JS.PathStr "[].id") "id"
             (Lookup.KNum 8)).
  - reflexivity.
  - reflexivity.
  - reflexivity.
  - discriminate.
  - repeat constructor; eexists _, _; (split; [reflexivity|]); split; reflexivity.
Defined.

(** ** Deferred Content Resolver: the batch filter and the cache *)

Section DeferredFilterFacts.
Import JS Deferred.
#[local] Open Scope list_scope.

Lemma find_eqb_spec (v : Z) (l : list Z) :
  match List.find (fun x => x =? v) l with
  | Some x => x = v /\ v ∈ l
  | None => v ∉ l
  end.
Proof.
  induction l as [|y l IH]; simpl; [by intros ?%elem_of_nil|].
  destruct (Z.eqb_spec y v) as [->|Hne].
  - split; [done|]. apply elem_of_cons. by left.
  - destruct (List.find _ l) as [x|].
    + destruct IH as [-> Hin]. split; [done|]. apply elem_of_cons. by right.
    + intros [->|Hin]%elem_of_cons; [done|]. by apply IH.
Qed.

(** [!list.find(x => x == v)] does not see the value [0]. *)
Lemma not_found_number_spec (v : Z) (l : list Z) :
  not_found_number (fun x => x =? v) l = true <-> v = 0 \/ v ∉ l.
Proof.
  unfold not_found_number. pose proof (find_eqb_spec v l) as H.
  destruct (List.find _ l) as [x|].
  - destruct H as [-> Hin]. rewrite Z.eqb_eq. split; [by left|]. by intros [?|?].
  - split; [by right|done].
Qed.

Lemma filter_values_acc processed values : forall filtered,
  let fv := filter_values processed filtered values in
  (forall v, v ∈ fv <-> v ∈ filtered \/ (v ∈ values /\ (v = 0 \/ v ∉ processed)))
  /\ (NoDup (filter (fun x => x <> 0) filtered) -> NoDup (filter (fun x => x <> 0) fv))
  /\ length (filter (fun x => x = 0) fv)
     = Nat.add (length (filter (fun x => x = 0) filtered))
               (length (filter (fun x => x = 0) values)).
Proof.
  induction values as [|v values IH]; intros filtered; cbn [filter_values].
  - split; [|split; [done|]].
    + intros v. split; [by left|]. intros [?|[?%elem_of_nil _]]; done.
    + rewrite filter_nil. simpl. lia.
  - destruct (not_found_number _ processed) eqn:Ep;
      [destruct (not_found_number _ filtered) eqn:Ef|]; cbn [andb].
    + apply not_found_number_spec in Ep, Ef.
      destruct (IH (filtered ++ [v])) as (H1 & H2 & H3). split; [|split].
      * intros x. rewrite H1, elem_of_app, list_elem_of_singleton, elem_of_cons.
        split.
        -- intros [[?| ->]|[? ?]]; auto.
        -- intros [?|[[->|?] ?]]; auto.
      * intros Hnd. apply H2. rewrite filter_app. rewrite filter_cons, filter_nil.
        destruct (decide (v <> 0)) as [Hv|Hv]; [|by rewrite app_nil_r].
        apply NoDup_app. split; [done|]. split; [|apply NoDup_singleton].
        intros x [_ Hx]%list_elem_of_filter ->%list_elem_of_singleton.
        destruct Ef; done.
      * rewrite H3, filter_app, length_app, !filter_cons, !filter_nil.
        destruct (decide (v = 0)); simpl; lia.
    + apply not_found_number_spec in Ep. apply not_true_iff_false in Ef.
      rewrite not_found_number_spec in Ef.
      destruct (IH filtered) as (H1 & H2 & H3). split; [|split].
      * intros x. rewrite H1, elem_of_cons. split.
        -- intros [?|[? ?]]; auto.
        -- intros [?|[[->|?] ?]]; auto.
           left. destruct (decide (v ∈ filtered)); [done|]. destruct Ef. by right.
      * done.
      * rewrite H3, filter_cons. destruct (decide (v = 0)) as [->|]; [|done].
        destruct Ef. by left.
    + apply not_true_iff_false in Ep. rewrite not_found_number_spec in Ep.
      destruct (IH filtered) as (H1 & H2 & H3). split; [|split].
      * intros x. rewrite H1, elem_of_cons. split.
        -- intros [?|[? ?]]; auto.
        -- intros [?|[[->|?] Hx]]; auto. destruct Ep. destruct Hx; auto.
      * done.
      * rewrite H3, filter_cons. destruct (decide (v = 0)) as [->|]; [|done].
        destruct Ep. by left.
Qed.

End DeferredFilterFacts.

(** X11: what the bulk callback of the deferred resolver sends to the
    remote side.  Whatever is done with the batcher of an endpoint, each
    invocation of its bulk callback receives truthy values only, since
    [set] and [setNow] drop a falsy item: the value [0] is never
    received.  The values sent are the values received that are not in
    [processedValues], each once. *)
Theorem filter_values_sends_each_value_once
    {C : Type} (periodInMs : Z) (sched : list (Z * Batcher.event))
    (processed : list Z) (call : Batcher.call Z C) :
  call ∈ Batcher.calls
           (Batcher.settle
              (Lock.inner
                 (Batcher.locked_run Deferred.truthy_number periodInMs sched
                    Batcher.new_batcher))) ->
  let values := Batcher.props call in
  let sent := Deferred.filter_values processed [] values in
  (0 ∉ values)
  /\ (forall v, v ∈ sent <-> v ∈ values /\ v ∉ processed)
  /\ NoDup sent.
Proof.
  intros Hcall values sent.
  assert (Forall (fun v => Deferred.truthy_number v = true) values) as Htruthy.
  { pose proof (truthy_locked_run Deferred.truthy_number periodInMs sched
                  (Batcher.new_batcher (T := Z) (C := C))) as H.
    apply truthy_fire in H; [|by split; constructor].
    destruct H as [_ H]. rewrite Forall_forall in H. by apply H. }
  assert (0 ∉ values) as Hzero.
  { intros H0. rewrite Forall_forall in Htruthy. by specialize (Htruthy 0 H0). }
  destruct (filter_values_acc processed values []) as (H1 & H2 & _).
  fold sent in H1, H2.
  assert (forall v, v ∈ sent <-> v ∈ values /\ v ∉ processed) as Hsent.
  { intros v. rewrite (H1 v). split.
    - intros [?%elem_of_nil|[Hv [->|?]]]; done.
    - intros [? ?]. right. split; [done|by right]. }
  split; [done|]. split; [done|].
  rewrite <- (filter_all (fun v => v <> 0) sent).
  - apply H2. rewrite filter_nil. apply NoDup_nil_2.
  - apply Forall_forall. intros v [Hv _]%Hsent ->. done.
Qed.

Lemma filter_values_sends_each_value_once_witness :
  let sched : list (Z * Batcher.event) :=
    [(0, Batcher.Invoke (Batcher.OpSet (Some 4) (Some 1%nat)));
     (0, Batcher.Invoke (Batcher.OpSet (Some 7) (Some 2%nat)));
     (0, Batcher.Invoke (Batcher.OpSet (Some 0) (Some 3%nat)));
     (0, Batcher.Invoke (Batcher.OpSet (Some 7) (Some 4%nat)));
     (0, Batcher.Invoke (Batcher.OpSet (Some 8) (Some 5%nat)));
     (0, Batcher.Complete); (0, Batcher.Complete); (0, Batcher.Complete);
     (0, Batcher.Complete); (0, Batcher.Complete)] in
  let call := Batcher.Call 307 [7; 7; 8] [2%nat; 3%nat; 4%nat; 5%nat] in
  let sent := Deferred.filter_values [8] [] (Batcher.props call) in
  (0 ∉ Batcher.props call)
  /\ (forall v, v ∈ sent <-> v ∈ Batcher.props call /\ v ∉ [8])
  /\ NoDup sent.
Proof.
  intros sched call.
  apply (filter_values_sends_each_value_once 300 sched [8] call).
  vm_compute. apply elem_of_cons. right. apply elem_of_cons. by left.
Defined.

Section DeferredCacheFacts.
Import JS Lookup Deferred FlatRecords.
#[local] Open Scope list_scope.

Variable string_to_number : string -> option Z.

(** A list is searched only by a pattern whose first segment is [[]]. *)
Lemma recursiveLookup_array_needs_segment (h : heap) lookupMap k c elems ps :
  h !! c = Some (Arr elems ps) ->
  head (segments lookupMap) <> Some "[]" ->
  recursiveLookup string_to_number h lookupMap k (VObject c) = (h, Found 0 VNull).
Proof.
  intros Hc Hhead. unfold recursiveLookup, enough_fuel.
  rewrite Nat.add_comm. cbn [Nat.add Lookup.lookup].
  rewrite bool_decide_eq_false_2 by by intros ?%elem_of_nil.
  unfold deref. rewrite Hc. cbn [default from_option id].
  by rewrite bool_decide_eq_false_2.
Qed.

End DeferredCacheFacts.

(** X12: a request to the deferred resolver is answered from the cache of
    its endpoint exactly when a cached record holds the value.  For a
    value mapper ["[].key"] and a cache of flat records, the request is a
    hit on a copy of the first cached record whose member [key] equals
    the content value, with the text rendered from that copy; otherwise
    the store is left as it was and the value is enqueued, or reported
    as a confirmed miss when it is in [processedValues]. *)
Theorem processDeferredBatched_answers_from_cache
    (string_to_number : string -> option Z)
    (print_opaque : JS.heap -> JS.value -> string)
    (r : Deferred.reading) (contentValue : Z) (s : Deferred.state)
    (es : list JS.value) (ps : list (string * JS.value)) (key : string) :
  Deferred.store s !! Deferred.cache s = Some (JS.Arr es ps) ->
  Lookup.segments (Deferred.mapper_or_empty (Deferred.valueMapper r)) = ["[]"; key] ->
  key <> "[value]" ->
  Forall (FlatRecords.flat_record (Deferred.store s) key) es ->
  Deferred.processDeferredBatched string_to_number print_opaque r contentValue s
  = match List.find (FlatRecords.holds string_to_number (Deferred.store s) key
                       (Lookup.KNum contentValue)) es with
    | Some (JS.VObject a) =>
        let h' := (Deferred.store s
                     ++ [FlatRecords.returned_copy
                           (JS.props_of (JS.deref (Deferred.store s) a))
                           (length (Deferred.store s) + 2);
                         JS.deref (Deferred.store s) a; JS.Arr es []])%list in
        let found := JS.VObject (length (Deferred.store s)) in
        (Deferred.State h' (Deferred.cache s) (Deferred.processedValues s),
         Deferred.Hit
           (TextMapper.processTextMapper print_opaque h' (Deferred.textMapper r) found)
           found)
    | _ =>
        (s, if Deferred.not_found_number (fun v => v =? contentValue)
                 (Deferred.processedValues s)
            then Deferred.Enqueue else Deferred.ConfirmedMiss)
    end.
Proof.
  intros Hc Hsegs Hkey Hflat.
  unfold Deferred.processDeferredBatched, Deferred.lookForValueInCache.
  pose proof (lookup_flat_records string_to_number (Deferred.store s) (Deferred.cache s)
                es ps key (Lookup.KNum contentValue) Hc Hkey Hflat) as Hl.
  assert (3 <= Lookup.enough_fuel (Deferred.store s) ["[]"; key])%nat as Hfuel
    by (unfold Lookup.enough_fuel; simpl; lia).
  unfold Lookup.recursiveLookup. rewrite Hsegs.
  rewrite (lookup_fuel_mono string_to_number 3 _ _ _ _ _ _ _ _ _ Hfuel Hl).
  destruct (List.find _ es) as [[| |b|n|x|a|f]|]; cbn [Lookup.result JS.truthy];
    try (destruct s as [h0 c0 pv]; cbn; by destruct (Deferred.not_found_number _ _)).
  done.
Qed.

Lemma processDeferredBatched_answers_from_cache_witness :
  let r := Deferred.Reading "/items" "ids" (Some "items") (Some "id") (Some "[].id")
             (Some [TextMapper.Cond ["name"] "{0}" "?"]) in
  let s := Deferred.State ExampleData.people 0%nat [] in
  (Deferred.processDeferredBatched Lookup.decimal_to_number JS.print_plain r 8 s).2
  = Deferred.Hit "eight" (JS.VObject 3%nat)
  /\ (Deferred.processDeferredBatched Lookup.decimal_to_number JS.print_plain r 9 s)
     = (s, Deferred.Enqueue).
Proof.
  intros r s.
  assert (Forall (FlatRecords.flat_record (Deferred.store s) "id")
            [JS.VObject 1%nat; JS.VObject 2%nat]) as Hflat.
  { repeat constructor; eexists _, _; (split; [reflexivity|]); split; reflexivity. }
  split.
  - rewrite (processDeferredBatched_answers_from_cache Lookup.decimal_to_number
               JS.print_plain r 8 s [JS.VObject 1%nat; JS.VObject 2%nat] [] "id"
               eq_refl eq_refl ltac:(discriminate) Hflat).
    reflexivity.
  - rewrite (processDeferredBatched_answers_from_cache Lookup.decimal_to_number
               JS.print_plain r 9 s [JS.VObject 1%nat; JS.VObject 2%nat] [] "id"
               eq_refl eq_refl ltac:(discriminate) Hflat).
    reflexivity.
Defined.

(** X13: a list is only searched by a pattern that starts with the
    segment [[]].  With any other value mapper, in particular with none,
    the cache of a batched deferred reading never answers (every request
    is enqueued, or reported as a confirmed miss), and a fetched-list
    definition whose data is a list never resolves. *)
Theorem value_mapper_must_start_with_array_segment
    (string_to_number : string -> option Z)
    (print_opaque : JS.heap -> JS.value -> string)
    (valueMapper : option string) :
  head (Lookup.segments (Deferred.mapper_or_empty valueMapper)) <> Some "[]" ->
  (forall (r : Deferred.reading) contentValue (s : Deferred.state) es ps,
      Deferred.valueMapper r = valueMapper ->
      Deferred.store s !! Deferred.cache s = Some (JS.Arr es ps) ->
      Deferred.processDeferredBatched string_to_number print_opaque r contentValue s
      = (s, if Deferred.not_found_number (fun v => v =? contentValue)
                 (Deferred.processedValues s)
            then Deferred.Enqueue else Deferred.ConfirmedMiss))
  /\ (forall h ct b textMapper c es ps id value,
        h !! c = Some (JS.Arr es ps) ->
        Dispatch.getFetchedListTagInfo string_to_number print_opaque h ct b textMapper
          valueMapper (JS.VObject c) id value
        = (h, None)).
Proof.
  intros Hhead. split.
  - intros r contentValue s es ps Hr Hc.
    unfold Deferred.processDeferredBatched, Deferred.lookForValueInCache.
    rewrite Hr, (recursiveLookup_array_needs_segment string_to_number _ _ _ _ es ps Hc Hhead).
    cbn [Lookup.result JS.truthy]. destruct s as [h0 c0 pv]; cbn.
    by destruct (Deferred.not_found_number _ _).
  - intros h ct b textMapper c es ps id value Hc.
    unfold Dispatch.getFetchedListTagInfo.
    by rewrite (recursiveLookup_array_needs_segment string_to_number _ _ _ _ es ps Hc Hhead).
Qed.

Lemma value_mapper_must_start_with_array_segment_witness :
  Deferred.processDeferredBatched Lookup.decimal_to_number JS.print_plain
    (Deferred.Reading "/items" "ids" None None None None) 8
    (Deferred.State ExampleData.people 0%nat [])
  = (Deferred.State ExampleData.people 0%nat [], Deferred.Enqueue).
Proof.
  exact (proj1 (value_mapper_must_start_with_array_segment Lookup.decimal_to_number
                  JS.print_plain None ltac:(discriminate))
           (Deferred.Reading "/items" "ids" None None None None) 8
           (Deferred.State ExampleData.people 0%nat [])
           [JS.VObject 1%nat; JS.VObject 2%nat] [] eq_refl eq_refl).
Defined.

Section MergeCoverFacts.
Import JS Select Deferred CachePredicates.
#[local] Open Scope list_scope.

Variable loosely_equal : value -> value -> bool.
Variable key : value -> value.

Lemma merge_list_prefix items : forall cache,
  cache `prefix_of` merge_list loosely_equal key cache items.
Proof.
  induction items as [|item items IH]; intros cache; cbn [merge_list]; [done|].
  destruct (not_found_value _ cache); [|apply IH].
  etransitivity; [|apply IH]. by apply prefix_app_r.
Qed.

(** A record of the response is in the cache after the merge, or a
    cached record has its key. *)
Lemma merge_list_covers items : forall cache item,
  item ∈ items ->
  item ∈ merge_list loosely_equal key cache items
  \/ exists ci, ci ∈ merge_list loosely_equal key cache items
                /\ truthy ci = true
                /\ loosely_equal (key item) (key ci) = true.
Proof.
  induction items as [|x items IH]; intros cache item Hin; [by apply elem_of_nil in Hin|].
  cbn [merge_list]. apply elem_of_cons in Hin as [->|Hin]; [|by apply IH].
  destruct (not_found_value _ cache) eqn:E.
  - left. destruct (merge_list_prefix items (cache ++ [x])) as [tl ->].
    rewrite !elem_of_app, list_elem_of_singleton. auto.
  - right. unfold not_found_value in E.
    destruct (List.find _ cache) as [ci|] eqn:Ef; [|done].
    apply find_some in Ef as [Hci Heq]. exists ci.
    split; [|split; [by apply negb_false_iff in E|done]].
    destruct (merge_list_prefix items cache) as [tl ->].
    apply elem_of_app. left. by apply list_elem_of_In.
Qed.

End MergeCoverFacts.



(** ** Text formatters *)

Section TemplateFacts.
Import JS Dispatch Template.
#[local] Open Scope list_scope.

Lemma starts_with_self pat t : starts_with pat (pat ++ t)%string = true.
Proof.
  induction pat as [|c pat IH]; [done|].
  rewrite append_cons. cbn [starts_with]. by rewrite Ascii.eqb_refl, IH.
Qed.

Lemma every_impl (P Q : ascii -> Prop) s :
  (forall c, P c -> Q c) -> every P s -> every Q s.
Proof.
  intros H. induction s as [|c s IH]; [done|]. intros [Hc Hs]. split; auto.
Qed.

Lemma every_app (P : ascii -> Prop) s t : every P s -> every P t -> every P (s ++ t)%string.
Proof.
  intros Hs Ht. induction s as [|c s IH]; [done|].
  destruct Hs as [Hc Hs]. rewrite append_cons. split; auto.
Qed.

(** A replacement without a dollar sign is inserted as it is. *)
Lemma get_substitution_literal matched before after rep :
  literal rep -> get_substitution matched before after rep = rep.
Proof.
  induction rep as [|c rep IH]; [done|]. intros [Hc Hr].
  cbn [get_substitution]. apply Z.eqb_neq in Hc. rewrite Hc. by rewrite IH.
Qed.

Lemma replace_all_skip pat rep u : forall before t,
  replace_all pat rep (String.length u) before (u ++ t)%string
  = replace_all pat rep 0 (before ++ u) t.
Proof.
  induction u as [|c u IH]; intros before t.
  - rewrite append_empty_l, append_empty_r. by destruct t.
  - rewrite append_cons. cbn [String.length replace_all]. rewrite IH.
    by rewrite append_assoc_char.
Qed.

(** An occurrence of the pattern is replaced. *)
Lemma replace_all_token c pat rep before t :
  literal rep ->
  replace_all (String c pat) rep 0 before (String c pat ++ t)%string
  = (rep ++ replace_all (String c pat) rep 0 (before ++ String c pat) t)%string.
Proof.
  intros Hrep. rewrite append_cons. cbn [replace_all].
  rewrite <- append_cons, starts_with_self, get_substitution_literal by done. f_equal.
  cbn [String.length Nat.sub]. rewrite Nat.sub_0_r.
  rewrite replace_all_skip. by rewrite append_assoc_char.
Qed.

(** Text without a bracket is kept, when the pattern starts with one. *)
Lemma replace_all_plain pat rep s : forall before t,
  plain s ->
  replace_all (String "[" pat) rep 0 before (s ++ t)%string
  = (s ++ replace_all (String "[" pat) rep 0 (before ++ s) t)%string.
Proof.
  induction s as [|c s IH]; intros before t Hs.
  - by rewrite append_empty_l, append_empty_r.
  - destruct Hs as [Hc Hs]. rewrite !append_cons. cbn [replace_all starts_with].
    assert (Ascii.eqb "[" c = false) as ->.
    { apply Ascii.eqb_neq. intros <-. by apply Hc. }
    cbn [andb]. rewrite IH by done. by rewrite append_assoc_char.
Qed.

Lemma numeral_pretty_N_go x : forall s,
  every numeral_char s -> every numeral_char (pretty_N_go x s).
Proof.
  induction (N.lt_wf_0 x) as [x _ IH]; intros s Hs.
  assert (x = 0 \/ 0 < x)%N as [->|Hx] by lia.
  - by rewrite pretty_N_go_0.
  - rewrite pretty_N_go_step by done. apply IH; [by apply N.div_lt|].
    split; [|done]. left. unfold pretty_N_char. by repeat case_match.
Qed.

Lemma numeral_pretty (z : Z) : every numeral_char (pretty z).
Proof.
  unfold pretty, pretty_Z. destruct z as [|p|p].
  - split; [by left|done].
  - unfold pretty, pretty_positive, pretty, pretty_N.
    case_decide; [split; [by left|done]|]. by apply numeral_pretty_N_go.
  - split; [right; by left|]. unfold pretty, pretty_positive, pretty, pretty_N.
    case_decide; [split; [by left|done]|]. by apply numeral_pretty_N_go.
Qed.

Lemma numeral_strip_zeros s : every numeral_char s -> every numeral_char (strip_zeros s).
Proof.
  induction s as [|c s IH]; [done|]. intros [Hc Hs]. cbn [strip_zeros].
  destruct (_ && _); [done|]. split; auto.
Qed.

Lemma numeral_zeros n : every numeral_char (zeros n).
Proof. induction n as [|n IH]; [done|]. split; [by left|done]. Qed.

(** A printed number is made of digits, a sign, a point and an exponent
    mark. *)
Lemma numeral_number_to_string z : every numeral_char (number_to_string z).
Proof.
  assert (forall x, every numeral_char (print_magnitude x)) as Hm.
  { intros x. unfold print_magnitude. destruct (x <? 2 ^ 53); [apply numeral_pretty|].
    destruct (shortest 17 1 x) as [s p].
    pose proof (numeral_strip_zeros _ (numeral_pretty s)) as Hd.
    destruct (_ <=? 21)%nat; [by apply every_app, numeral_zeros|].
    destruct (strip_zeros (pretty s)) as [|d rest]; [done|].
    destruct Hd as [Hd Hrest]. split; [done|].
    apply every_app.
    - destruct (String.eqb rest EmptyString); [done|]. split; [|done]. right. right. by left.
    - split; [do 3 right; by left|]. split; [do 4 right; done|]. apply numeral_pretty. }
  unfold number_to_string. destruct (z <? 0); [|apply Hm].
  split; [right; by left|apply Hm].
Qed.

Lemma plain_number_to_string z : plain (number_to_string z).
Proof.
  apply (every_impl numeral_char); [|apply numeral_number_to_string].
  intros c [H|[->|[->|[->| ->]]]]; try done.
  unfold is_digit in H. intros Hc. rewrite Hc in H. done.
Qed.

Lemma literal_number_to_string z : literal (number_to_string z).
Proof.
  apply (every_impl numeral_char); [|apply numeral_number_to_string].
  intros c [H|[->|[->|[->| ->]]]]; try done.
  unfold is_digit in H. intros Hc. rewrite Hc in H. done.
Qed.

(** A placeholder other than the pattern is kept. *)
Lemma replace_all_other pat rep body before rest :
  starts_with (String "[" pat) (String "[" body ++ rest)%string = false ->
  plain body ->
  replace_all (String "[" pat) rep 0 before (String "[" body ++ rest)%string
  = (String "[" body
       ++ replace_all (String "[" pat) rep 0 (before ++ String "[" body) rest)%string.
Proof.
  intros H Hb. rewrite append_cons in H. rewrite !append_cons.
  cbn [replace_all]. rewrite H. rewrite replace_all_plain by done.
  by rewrite append_assoc_char.
Qed.

(** One pass of [replaceAll] over a formatter made of pieces. *)
Lemma replace_all_pieces t rep pieces : forall before,
  t <> Text (source t) ->
  literal rep ->
  Forall plain_text pieces ->
  replace_all (source t) rep 0 before (concat (source <$> pieces))
  = concat (source <$> (replaced t rep <$> pieces)).
Proof.
  intros before Ht Hrep Hp. revert before.
  induction pieces as [|p pieces IH]; intros before; [by destruct t|].
  apply Forall_cons in Hp as [Hp Hps]. specialize (IH Hps).
  cbn [fmap list_fmap concat]. change (list_fmap _ _ ?f ?l) with (f <$> l).
  destruct t as [s| | |]; [done|..]; destruct p as [s| | |].
  all: cbn [replaced source] in *.
  all: first
    [ (* literal text *)
      by rewrite replace_all_plain, IH by done
    | (* the placeholder that is replaced *)
      by rewrite replace_all_token, IH by done
    | (* another placeholder *)
      rewrite replace_all_other;
      [by rewrite IH|rewrite !append_cons; reflexivity|repeat split; done] ].
Qed.

Lemma plain_text_replaced t rep pieces :
  plain rep -> Forall plain_text pieces -> Forall plain_text (replaced t rep <$> pieces).
Proof.
  intros Hr Hp. induction Hp as [|p pieces Hp Hps IH]; [done|].
  cbn [fmap list_fmap]. constructor; [|exact IH].
  by destruct t, p.
Qed.

End TemplateFacts.

(** X15: the text of a fixed or manual result is its formatter with every
    placeholder filled in: [[TagEpc]] by the identifier,
    [[TagContentTypeId]] and [[TagContentValue]] by the numbers as
    [toString] prints them (in decimal, in exponent form from [1e21]),
    and all other text kept.  This holds for a formatter whose other
    text holds no opening bracket and for an identifier that holds
    neither an opening bracket nor a dollar sign, which [replaceAll]
    would expand in a replacement. *)
Theorem text_formatter_fills_placeholders
    (pieces : list Template.piece) (epc : string) (ct : Dispatch.contentType)
    (id value : Z) :
  Template.plain epc ->
  Template.literal epc ->
  Forall Template.plain_text pieces ->
  let formatter := Template.concat (Template.source <$> pieces) in
  let expected := Template.concat (Template.filled epc id value <$> pieces) in
  Dispatch.text (Dispatch.getFixedTagInfo epc ct formatter id value) = expected
  /\ Dispatch.text (Dispatch.getManualTagInfo epc ct formatter id value) = expected.
Proof.
  intros Hepc Hlit Hp formatter expected.
  assert (Dispatch.format_text formatter epc id value = expected) as H.
  { unfold Dispatch.format_text, formatter, expected.
    change "[TagEpc]" with (Template.source Template.TagEpc).
    change "[TagContentTypeId]" with (Template.source Template.TagContentTypeId).
    change "[TagContentValue]" with (Template.source Template.TagContentValue).
    rewrite replace_all_pieces by done.
    rewrite replace_all_pieces
      by (done || apply literal_number_to_string || by apply plain_text_replaced).
    rewrite replace_all_pieces
      by (done || apply literal_number_to_string
          || auto using plain_text_replaced, plain_number_to_string).
    f_equal. clear. induction pieces as [|p pieces IH]; [done|].
    cbn [fmap list_fmap]. f_equal; [by destruct p|exact IH]. }
  by split.
Qed.

Lemma text_formatter_fills_placeholders_witness :
  Dispatch.text
    (Dispatch.getFixedTagInfo "000000020000000f"
       (Dispatch.Fixed (Dispatch.Base 2 "Fixed" "fixed") 0
          "epc=[TagEpc], value=[TagContentValue]")
       "epc=[TagEpc], value=[TagContentValue]" 2 15)
  = "epc=000000020000000f, value=15".
Proof.
  exact (proj1 (text_formatter_fills_placeholders
                  [Template.Text "epc="; Template.TagEpc; Template.Text ", value=";
                   Template.TagContentValue]
                  "000000020000000f"
                  (Dispatch.Fixed (Dispatch.Base 2 "Fixed" "fixed") 0
                     "epc=[TagEpc], value=[TagContentValue]") 2 15
                  ltac:(repeat split; done) ltac:(repeat split; done)
                  ltac:(repeat constructor; done))).
Defined.

(** ** The results of [findTagInfo] *)

Section ResultFacts.
Import JS Dispatch ResultPredicates.
#[local] Open Scope list_scope.

Variable string_to_number : string -> option Z.
Variable print_opaque : heap -> value -> string.

#[local] Abbreviation dispatch :=
  (getTagInfoFromValuesWithoutExtraFetcher string_to_number print_opaque).

Lemma same_module_state_refl g : same_module_state g g.
Proof. by repeat split. Qed.

Lemma same_module_state_trans g1 g2 g3 :
  same_module_state g1 g2 -> same_module_state g2 g3 -> same_module_state g1 g3.
Proof. intros (?&?&?&?) (?&?&?&?). repeat split; congruence. Qed.

(** The dispatch touches the store only, and builds a record that
    agrees with the first definition of the given id. *)
Lemma dispatch_result p id value g g' r :
  dispatch p id value g = (g', r) ->
  same_module_state g g'
  /\ forall i, r = Some i ->
       info_contentTypeId i = id /\ info_contentValue i = value
       /\ from_definitions p i /\ agrees (apiClient p) i.
Proof.
  unfold getTagInfoFromValuesWithoutExtraFetcher, from_definitions, agrees.
  destruct (List.find _ _) as [ct|] eqn:Ef;
    [|intros [= <- <-]; split; [apply same_module_state_refl|done]].
  destruct ct as [b v tf|b tf|b vs|b rd|b tm vm data|id' n d].
  - intros [= <- <-]. split; [apply same_module_state_refl|]. by intros i [= <-].
  - intros [= <- <-]. split; [apply same_module_state_refl|]. by intros i [= <-].
  - intros [= <- <-]. split; [apply same_module_state_refl|].
    unfold getEnumTagInfo. destruct (List.find _ vs) as [ev|] eqn:Ev; [|done].
    by intros i [= <-].
  - intros [= <- <-]. split; [apply same_module_state_refl|]. by intros i [= <-].
  - unfold getFetchedListTagInfo.
    destruct (Lookup.recursiveLookup _ _ _ _ _) as [h' m].
    destruct (truthy _); intros [= <- <-]; (split; [by repeat split|]); [|done].
    by intros i [= <-].
  - intros [= <- <-]. split; [apply same_module_state_refl|done].
Qed.

Lemma getTagInfoFromValues_result p id value g g' r :
  getTagInfoFromValues string_to_number print_opaque p id value g = (g', r) ->
  same_module_state g g'
  /\ forall i, r = Some i ->
       info_contentTypeId (info i) = id /\ info_contentValue (info i) = value
       /\ from_definitions p (info i) /\ agrees (apiClient p) (info i)
       /\ fetchExtraInfo i = apiClient p && extrasLookupBatcher g.
Proof.
  unfold getTagInfoFromValues.
  destruct (dispatch p id value g) as [g1 [r1|]] eqn:E;
    apply dispatch_result in E as [Hs Hr]; intros [= <- <-]; (split; [done|]); [|done].
  intros i [= <-]. destruct (Hr r1 eq_refl) as (?&?&?&?). cbn [info fetchExtraInfo].
  destruct Hs as (-> & _). done.
Qed.

Lemma ensure_extras_batcher_frame p g :
  store (ensure_extras_batcher p g) = store g
  /\ virtualLookupBatcher (ensure_extras_batcher p g) = virtualLookupBatcher g
  /\ extrasProcessedTags (ensure_extras_batcher p g) = extrasProcessedTags g
  /\ virtuallyProcessedTags (ensure_extras_batcher p g) = virtuallyProcessedTags g
  /\ (apiClient p = false -> ensure_extras_batcher p g = g).
Proof.
  unfold ensure_extras_batcher. destruct (apiClient p); cbn [andb]; [|done].
  by destruct (_ && _).
Qed.

Lemma maybeVirtual_result p g g' i :
  maybeVirtual string_to_number print_opaque p g = (g', Info i) ->
  apiClient p = true
  /\ virtuallyProcessedTags g !! tagEpc p
     = Some (VirtualFound (info_contentTypeId (info i)) (info_contentValue (info i)))
  /\ from_definitions p (info i) /\ agrees (apiClient p) (info i).
Proof.
  unfold maybeVirtual. destruct (apiClient p) eqn:Hc; cbn [andb]; [|done].
  destruct (_ && _); [|done]. cbn [virtuallyProcessedTags].
  destruct (virtuallyProcessedTags g !! tagEpc p) as [[id value|]|]; [|done..].
  destruct (getTagInfoFromValues _ _ _ _ _ _) as [g1 [r|]] eqn:E; [|done].
  intros [= <- <-]. apply getTagInfoFromValues_result in E as [_ Hr].
  destruct (Hr r eq_refl) as (-> & -> & ? & ? & _). rewrite Hc in *. done.
Qed.

End ResultFacts.

(** X16: a result record of [findTagInfo] is well formed.  Its definition
    is the first definition of the list that has its content-type id;
    its members are those of the variant of that definition (for an
    enumeration, the first enumerated value equal to the content value
    and its text); its numbers are those decoded from the identifier
    or, with an API client, those of the memo of virtual tags; and the
    identifier can be decoded: an identifier that [getTagNumbers] rejects
    is never resolved, not even through the memo. *)
Theorem findTagInfo_result_is_well_formed
    (string_to_number : string -> option Z)
    (print_opaque : JS.heap -> JS.value -> string)
    (p : Dispatch.findTagProps) (g g' : Dispatch.globals)
    (i : Dispatch.tagInfoWithExtraFetcher) :
  Dispatch.findTagInfo string_to_number print_opaque p g = (g', Dispatch.Info i) ->
  ResultPredicates.from_definitions p (Dispatch.info i)
  /\ ResultPredicates.agrees (Dispatch.apiClient p) (Dispatch.info i)
  /\ ResultPredicates.numbers_of p g (Dispatch.info i)
  /\ is_Some (TagNumbers.getTagNumbers (Dispatch.tagEpc p)).
Proof.
  unfold Dispatch.findTagInfo, ResultPredicates.numbers_of.
  destruct (String.eqb _ _); [done|].
  destruct (TagNumbers.getTagNumbers (Dispatch.tagEpc p)) as [[id value]|]; [|done].
  destruct (ensure_extras_batcher_frame p g) as (_ & _ & _ & Hv & _).
  destruct (List.find _ _) as [ct|] eqn:Ef.
  - destruct (Dispatch.getTagInfoFromValues _ _ _ _ _ _) as [g1 [r|]] eqn:E;
      apply getTagInfoFromValues_result in E as [(_&_&_&Hv1) Hr].
    + intros [= <- <-]. destruct (Hr r eq_refl) as (-> & -> & ? & ? & _).
      repeat split; auto.
    + intros (? & Hm & ? & ?)%maybeVirtual_result. rewrite Hv1, Hv in Hm.
      repeat split; auto.
  - intros (? & Hm & ? & ?)%maybeVirtual_result. rewrite Hv in Hm.
    repeat split; auto.
Qed.

Lemma findTagInfo_result_is_well_formed_witness :
  let p := ExampleData.request "0000000100000002" in
  let i := Dispatch.WithExtra
             (Dispatch.TagInfo "blue" 1 2
                (Dispatch.Enum (Dispatch.Base 1 "Color" "color")
                   [Dispatch.EnumValue "red" 1; Dispatch.EnumValue "blue" 2])
                (Dispatch.IsEnum (Dispatch.EnumValue "blue" 2)))
             false in
  ResultPredicates.from_definitions p (Dispatch.info i)
  /\ ResultPredicates.agrees (Dispatch.apiClient p) (Dispatch.info i)
  /\ ResultPredicates.numbers_of p (Dispatch.Globals [] false false ∅ ∅) (Dispatch.info i)
  /\ is_Some (TagNumbers.getTagNumbers (Dispatch.tagEpc p)).
Proof.
  intros p i.
  exact (findTagInfo_result_is_well_formed Lookup.decimal_to_number JS.print_plain p
           (Dispatch.Globals [] false false ∅ ∅) (Dispatch.Globals [] false false ∅ ∅) i
           eq_refl).
Defined.

(** X17: without an API client [findTagInfo] only reads.  It creates no
    batcher and leaves both memos as they are (only the store can grow,
    by the copies that a lookup makes); it never answers with a
    [maybeVirtual] object, also when the memo of virtual tags knows the
    identifier; and its result records carry neither [fetchExtraInfo]
    nor [fetch]. *)
Theorem findTagInfo_without_client_only_reads
    (string_to_number : string -> option Z)
    (print_opaque : JS.heap -> JS.value -> string)
    (p : Dispatch.findTagProps) (g : Dispatch.globals) :
  Dispatch.apiClient p = false ->
  let r := Dispatch.findTagInfo string_to_number print_opaque p g in
  ResultPredicates.same_module_state g r.1
  /\ match r.2 with
     | Dispatch.MaybeVirtual => False
     | Dispatch.Null => True
     | Dispatch.Info i =>
         Dispatch.fetchExtraInfo i = false
         /\ forall fetch, Dispatch.info_payload (Dispatch.info i) = Dispatch.IsDeferred fetch ->
                          fetch = false
     end.
Proof.
  intros Hc r. subst r. unfold Dispatch.findTagInfo.
  destruct (String.eqb _ _); [split; [apply same_module_state_refl|done]|].
  destruct (ensure_extras_batcher_frame p g) as (_ & _ & _ & _ & ->); [|done].
  assert (forall g0, Dispatch.maybeVirtual string_to_number print_opaque p g0
                     = (g0, Dispatch.Null)) as Hmv.
  { intros g0. unfold Dispatch.maybeVirtual. by rewrite Hc. }
  destruct (TagNumbers.getTagNumbers _) as [[id value]|];
    [|split; [apply same_module_state_refl|done]].
  destruct (List.find _ _) as [ct|] eqn:Ef;
    [|rewrite Hmv; split; [apply same_module_state_refl|done]].
  destruct (Dispatch.getTagInfoFromValues _ _ _ _ _ _) as [g1 [i|]] eqn:E;
    apply getTagInfoFromValues_result in E as [Hs Hr].
  - cbn [fst snd]. split; [done|].
    destruct (Hr i eq_refl) as (_ & _ & _ & Ha & He). rewrite Hc in He, Ha.
    split; [done|]. intros fetch Hp. unfold ResultPredicates.agrees in Ha.
    rewrite Hp in Ha. by destruct (Dispatch.info_contentType (Dispatch.info i)).
  - rewrite Hmv. by split.
Qed.

Lemma findTagInfo_without_client_only_reads_witness :
  let g := Dispatch.Globals [] false false ∅
             {["0000000900000001" := Dispatch.VirtualFound 1 2]} in
  let r := Dispatch.findTagInfo Lookup.decimal_to_number JS.print_plain
             (ExampleData.request "0000000900000001") g in
  ResultPredicates.same_module_state g r.1
  /\ match r.2 with
     | Dispatch.MaybeVirtual => False
     | Dispatch.Null => True
     | Dispatch.Info i =>
         Dispatch.fetchExtraInfo i = false
         /\ forall fetch, Dispatch.info_payload (Dispatch.info i) = Dispatch.IsDeferred fetch ->
                          fetch = false
     end.
Proof.
  intros g.
  exact (findTagInfo_without_client_only_reads Lookup.decimal_to_number JS.print_plain
           (ExampleData.request "0000000900000001") g eq_refl).
Defined.

(** ** The memo maps after a flush *)

Section MemoFacts.
Import JS Dispatch Fetchers.
#[local] Open Scope list_scope.

Lemma foldl_insert_other {K V A} `{Countable K} (f : A -> K) (v : A -> V) (l : list A) :
  forall (m : gmap K V) k,
    k ∉ f <$> l -> foldl (fun m x => <[f x := v x]> m) m l !! k = m !! k.
Proof.
  induction l as [|x l IH]; intros m k Hk; [done|].
  cbn [foldl]. rewrite fmap_cons, not_elem_of_cons in Hk. destruct Hk as [Hne Hk].
  rewrite IH by done. by rewrite lookup_insert_ne.
Qed.

Lemma foldl_insert_some {K V A} `{Countable K} (f : A -> K) (v : A -> V) (l : list A) :
  forall (m : gmap K V) k,
    is_Some (m !! k) -> is_Some (foldl (fun m x => <[f x := v x]> m) m l !! k).
Proof.
  induction l as [|x l IH]; intros m k Hk; [done|].
  cbn [foldl]. apply IH. destruct (decide (f x = k)) as [<-|Hne].
  - rewrite lookup_insert_eq. by eexists.
  - by rewrite lookup_insert_ne.
Qed.

Lemma foldl_insert_elem {K V A} `{Countable K} (f : A -> K) (v : A -> V) (l : list A) :
  forall (m : gmap K V) k,
    k ∈ f <$> l ->
    exists x, x ∈ l /\ f x = k /\ foldl (fun m x => <[f x := v x]> m) m l !! k = Some (v x).
Proof.
  induction l as [|x l IH]; intros m k Hk; [by apply elem_of_nil in Hk|].
  cbn [foldl]. destruct (decide (k ∈ f <$> l)) as [Hin|Hnin].
  - destruct (IH (<[f x := v x]> m) k Hin) as (y & Hy & Hfy & Hl).
    exists y. split; [apply elem_of_cons; by right|done].
  - rewrite fmap_cons, elem_of_cons in Hk. destruct Hk as [->|Hk]; [|done].
    exists x. split; [apply elem_of_cons; by left|]. split; [done|].
    rewrite foldl_insert_other by done. by rewrite lookup_insert_eq.
Qed.

End MemoFacts.

Section ExtrasFacts.
Import JS Dispatch Fetchers.
#[local] Open Scope list_scope.

Lemma filter_epcs_complete memo epcs : forall filtered epc,
  epc ∈ filtered \/ (epc ∈ epcs /\ memo !! epc = None) ->
  epc ∈ filter_epcs memo filtered epcs.
Proof.
  induction epcs as [|e epcs IH]; intros filtered epc; cbn [filter_epcs].
  - intros [?|[?%elem_of_nil _]]; done.
  - intros Hin. destruct (bool_decide (memo !! e = None)) eqn:Em; cbn [andb].
    + unfold not_found_string. destruct (List.find _ filtered) as [x|] eqn:Ef.
      * apply find_some in Ef as [Hx Heq]. apply String.eqb_eq in Heq as <-.
        apply list_elem_of_In in Hx.
        destruct (String.eqb e EmptyString); apply IH;
          destruct Hin as [?|[[->|?]%elem_of_cons ?]]; rewrite ?elem_of_app; auto.
      * apply IH. destruct Hin as [?|[[->|?]%elem_of_cons ?]];
          rewrite ?elem_of_app, ?list_elem_of_singleton; auto.
    + apply bool_decide_eq_false in Em. apply IH.
      destruct Hin as [?|[[->|?]%elem_of_cons ?]]; auto. done.
Qed.

Lemma filter_epcs_sound memo epcs : forall filtered epc,
  epc ∈ filter_epcs memo filtered epcs ->
  epc ∈ filtered \/ (epc ∈ epcs /\ memo !! epc = None).
Proof.
  induction epcs as [|e epcs IH]; intros filtered epc; cbn [filter_epcs]; [by left|].
  destruct (bool_decide (memo !! e = None)) eqn:Em; cbn [andb].
  - apply bool_decide_eq_true in Em.
    destruct (not_found_string _ filtered); intros [Hin|[Hin Hm]]%IH; auto.
    + apply elem_of_app in Hin as [?|Hin]; [by left|].
      apply list_elem_of_singleton in Hin as ->.
      right. split; [apply elem_of_cons; by left|done].
    + right. split; [apply elem_of_cons; by right|done].
    + right. split; [apply elem_of_cons; by right|done].
  - intros [Hin|[Hin Hm]]%IH; [by left|].
    right. split; [apply elem_of_cons; by right|done].
Qed.

Lemma mark_not_found_other te epcs : forall memo k,
  k ∉ epcs -> mark_not_found te epcs memo !! k = memo !! k.
Proof.
  unfold mark_not_found.
  induction epcs as [|e epcs IH]; intros memo k Hk; [done|].
  cbn [foldl]. apply not_elem_of_cons in Hk as [Hne Hk]. rewrite IH by done.
  destruct (truthy _); [done|]. by rewrite lookup_insert_ne.
Qed.

Lemma mark_not_found_some te epcs : forall memo k,
  is_Some (memo !! k) -> is_Some (mark_not_found te epcs memo !! k).
Proof.
  unfold mark_not_found.
  induction epcs as [|e epcs IH]; intros memo k Hk; [done|].
  cbn [foldl]. apply IH. destruct (truthy _); [done|].
  destruct (decide (e = k)) as [->|Hne].
  - rewrite lookup_insert_eq. by eexists.
  - by rewrite lookup_insert_ne.
Qed.

Lemma mark_not_found_marks te epcs : forall memo k,
  k ∈ epcs -> truthy (default VUndefined (assoc k te)) = false ->
  is_Some (mark_not_found te epcs memo !! k).
Proof.
  unfold mark_not_found.
  induction epcs as [|e epcs IH]; intros memo k Hk Ht; [by apply elem_of_nil in Hk|].
  cbn [foldl]. apply elem_of_cons in Hk as [->|Hk]; [|by apply IH].
  rewrite Ht. apply (mark_not_found_some te epcs). rewrite lookup_insert_eq. by eexists.
Qed.

Lemma mark_found_some te memo k :
  is_Some (memo !! k) -> is_Some (mark_found te memo !! k).
Proof. apply (foldl_insert_some fst (fun kv => ExtrasFound kv.2)). Qed.

Lemma mark_found_found te memo k :
  (exists v, memo !! k = Some (ExtrasFound v)) \/ is_Some (assoc k te) ->
  exists v, mark_found te memo !! k = Some (ExtrasFound v).
Proof.
  intros Hk. unfold mark_found. destruct (decide (k ∈ fst <$> te)) as [Hin|Hnin].
  - destruct (foldl_insert_elem fst (fun kv => ExtrasFound kv.2) te memo k Hin)
      as (x & _ & _ & ->). by eexists.
  - rewrite (foldl_insert_other fst (fun kv => ExtrasFound kv.2)) by done.
    destruct Hk as [?|[v Hv]]; [done|]. destruct Hnin.
    apply assoc_elem in Hv. apply list_elem_of_fmap. by exists (k, v).
Qed.

End ExtrasFacts.

(** X18: the memo of extras only gains from a flush.  An identifier that
    has an entry keeps one, and a found entry stays a found entry; when
    the bulk callback of the extras batcher returns normally on a
    non-empty batch, every identifier of the batch has an entry
    afterwards, so that the next [fetchExtraInfo] for one of them is
    answered from the memo without a call of [set]; when the callback
    throws, the memo is as it was. *)
Theorem extras_flush_fills_memo
    (print_opaque : JS.heap -> JS.value -> string)
    (post : string -> string -> list string -> JS.heap -> Fetchers.response)
    (p : Dispatch.findTagProps) (batch : list string)
    (g g' : Dispatch.globals) (error : option Fetchers.thrown) :
  Fetchers.extras_bulk print_opaque post p batch g = (g', error) ->
  (forall epc, is_Some (Dispatch.extrasProcessedTags g !! epc) ->
               is_Some (Dispatch.extrasProcessedTags g' !! epc))
  /\ (forall epc v,
        Dispatch.extrasProcessedTags g !! epc = Some (Dispatch.ExtrasFound v) ->
        exists v', Dispatch.extrasProcessedTags g' !! epc = Some (Dispatch.ExtrasFound v'))
  /\ (error = None -> batch <> [] ->
      forall epc, epc ∈ batch -> is_Some (Dispatch.extrasProcessedTags g' !! epc))
  /\ (is_Some error -> Dispatch.extrasProcessedTags g' = Dispatch.extrasProcessedTags g)
  /\ (error = None -> Dispatch.tagEpc p ∈ batch ->
      forall set, Fetchers.fetchExtraInfo set p g'
                  = (g', Fetchers.Resolved (Fetchers.read_extras p g'))).
Proof.
  intros Hrun.
  assert ((forall epc, is_Some (Dispatch.extrasProcessedTags g !! epc) ->
                       is_Some (Dispatch.extrasProcessedTags g' !! epc))
          /\ (forall epc v,
                Dispatch.extrasProcessedTags g !! epc = Some (Dispatch.ExtrasFound v) ->
                exists v', Dispatch.extrasProcessedTags g' !! epc
                           = Some (Dispatch.ExtrasFound v'))
          /\ (error = None -> batch <> [] ->
              forall epc, epc ∈ batch -> is_Some (Dispatch.extrasProcessedTags g' !! epc))
          /\ (is_Some error ->
              Dispatch.extrasProcessedTags g' = Dispatch.extrasProcessedTags g))
    as (H1 & H2 & H3 & H4).
  { revert Hrun. unfold Fetchers.extras_bulk.
    destruct batch as [|e0 batch0]; [intros [= <- <-]; repeat split; eauto; done|].
    set (batch := e0 :: batch0).
    set (filtered := Fetchers.filter_epcs (Dispatch.extrasProcessedTags g) [] batch).
    destruct (post _ _ _ _) as [h1 data|e];
      [|intros [= <- <-]; repeat split; eauto; done].
    destruct (Select.recursiveSelect h1 _ data) as [| |b|n|s|a|f];
      try (intros [= <- <-]; repeat split; eauto; done).
    destruct (JS.deref h1 a) as [ps|records ps];
      [intros [= <- <-]; repeat split; eauto; done|].
    destruct (Fetchers.collect _ _ _ _ _) as [[h2 te]|];
      [|intros [= <- <-]; repeat split; eauto; done].
    intros [= <- <-]. cbn [Dispatch.extrasProcessedTags Dispatch.with_extras].
    split; [|split; [|split]].
    - intros epc Hs. by apply mark_found_some, mark_not_found_some.
    - intros epc v Hv. apply mark_found_found. left. exists v.
      rewrite mark_not_found_other; [done|].
      intros Hf%filter_epcs_sound.
      destruct Hf as [Hf|[_ Hm]]; [by apply elem_of_nil in Hf|congruence].
    - intros _ _ epc Hin.
      destruct (Dispatch.extrasProcessedTags g !! epc) as [x|] eqn:Em.
      { apply mark_found_some, mark_not_found_some. rewrite Em. by eexists. }
      assert (epc ∈ filtered) as Hf by (apply filter_epcs_complete; auto).
      destruct (JS.assoc epc te) as [v|] eqn:Ea.
      + destruct (mark_found_found te
                    (Fetchers.mark_not_found te filtered (Dispatch.extrasProcessedTags g))
                    epc) as [v' ->]; [right; rewrite Ea; by eexists|by eexists].
      + apply mark_found_some, mark_not_found_marks; [done|]. by rewrite Ea.
    - by intros [? [=]]. }
  repeat (split; [done|]).
  intros He Hin set. unfold Fetchers.fetchExtraInfo.
  destruct (H3 He ltac:(by intros ->; apply elem_of_nil in Hin) _ Hin) as [x ->]. done.
Qed.

Lemma extras_flush_fills_memo_witness :
  let p := Dispatch.Props "0000000100000002" (Some "/extras") (Some "epcs") (Some "epc")
             (Some "rows") None None [] true in
  let g := Dispatch.Globals [] true false ∅ ∅ in
  let post := fun (url key : string) (epcs : list string) (h : JS.heap) =>
    Fetchers.ApiOk
      (h ++ [JS.Obj [("rows", JS.VObject (S (length h)))];
             JS.Arr [JS.VObject (S (S (length h)))] [];
             JS.Obj [("epc", JS.VString "0000000100000002"); ("weight", JS.VNumber 3)]])%list
      (JS.VObject (length h)) in
  let r := Fetchers.extras_bulk JS.print_plain post p
             ["0000000100000002"; "0000000100000003"] g in
  r.2 = None
  /\ is_Some (Dispatch.extrasProcessedTags r.1 !! "0000000100000003").
Proof.
  intros p g post r. split; [reflexivity|].
  destruct (extras_flush_fills_memo JS.print_plain post p
              ["0000000100000002"; "0000000100000003"] g r.1 r.2
              (surjective_pairing r)) as (_ & _ & H & _).
  apply H; [reflexivity|discriminate|].
  apply elem_of_cons. right. apply elem_of_cons. by left.
Defined.

Section VirtualFacts.
Import JS Dispatch Fetchers VirtualLookup.
#[local] Open Scope list_scope.

Lemma filter_new_spec memo epcs : forall filtered x,
  x ∈ filter_new memo filtered epcs
  <-> x ∈ filtered \/ (x ∈ epcs /\ memo !! x = None).
Proof.
  induction epcs as [|e epcs IH]; intros filtered x; cbn [filter_new].
  - split; [by left|]. intros [?|[?%elem_of_nil _]]; done.
  - destruct (bool_decide (e ∉ filtered)) eqn:Ef; cbn [andb];
      [destruct (bool_decide (memo !! e = None)) eqn:Em|].
    + apply bool_decide_eq_true in Em. rewrite IH, elem_of_app, list_elem_of_singleton,
        elem_of_cons.
      split.
      * intros [[?| ->]|[? ?]]; auto.
      * intros [?|[[->|?] ?]]; auto.
    + apply bool_decide_eq_false in Em. rewrite IH, elem_of_cons. split.
      * intros [?|[? ?]]; auto.
      * intros [?|[[->|?] ?]]; auto. done.
    + apply bool_decide_eq_false in Ef. rewrite IH, elem_of_cons. split.
      * intros [?|[? ?]]; auto.
      * intros [?|[[->|?] ?]]; auto. left.
        destruct (decide (e ∈ filtered)); [done|]. by destruct Ef.
Qed.

Lemma elem_of_insert_index x l y : y ∈ insert_index x l <-> y = x \/ y ∈ l.
Proof.
  induction l as [|z l IH]; cbn [insert_index].
  - by rewrite list_elem_of_singleton, elem_of_nil; intuition.
  - destruct (_ <=? _)%N; rewrite !elem_of_cons, ?IH; tauto.
Qed.

(** [Object.keys] lists the keys that were created, in another order. *)
Lemma elem_of_own_keys inserted k : k ∈ own_keys inserted <-> k ∈ inserted.
Proof.
  unfold own_keys. rewrite elem_of_app, list_elem_of_filter, list_elem_of_fmap.
  assert (forall (l : list (N * string)) y, y ∈ foldr insert_index [] l <-> y ∈ l) as Hs.
  { induction l as [|z l IH]; intros y; cbn [foldr]; [done|].
    by rewrite elem_of_insert_index, elem_of_cons, IH. }
  split.
  - intros [((n & k') & -> & Hin)|[_ ?]]; [|done].
    apply Hs, list_elem_of_omap in Hin as (k'' & Hk & Hn).
    destruct (index_key k''); [|done]. by injection Hn as <- <-.
  - intros Hin. destruct (index_key k) as [n|] eqn:E; [left|by right].
    exists (n, k). split; [done|]. apply Hs, list_elem_of_omap.
    exists k. by rewrite E.
Qed.

Lemma mark_found_lookup results memo k :
  VirtualLookup.mark_found results memo !! k
  = match results !! k with
    | Some r => Some (VirtualFound r.1 r.2)
    | None => memo !! k
    end.
Proof.
  unfold VirtualLookup.mark_found.
  destruct (results !! k) as [r|] eqn:E.
  - assert (k ∈ fst <$> map_to_list results) as Hin.
    { apply list_elem_of_fmap. exists (k, r). split; [done|].
      by apply elem_of_map_to_list. }
    destruct (foldl_insert_elem fst (fun kv : string * (Z * Z) => VirtualFound kv.2.1 kv.2.2)
                (map_to_list results) memo k Hin) as ([k' r'] & Hx & Hk & ->).
    cbn in Hk. subst k'. apply elem_of_map_to_list in Hx. rewrite E in Hx.
    by injection Hx as <-.
  - apply (foldl_insert_other fst (fun kv : string * (Z * Z) => VirtualFound kv.2.1 kv.2.2)).
    intros ([k' r'] & Hk & Hx)%list_elem_of_fmap. cbn in Hk. subst k'.
    apply elem_of_map_to_list in Hx. congruence.
Qed.

Lemma mark_not_found_lookup epcs memo k :
  VirtualLookup.mark_not_found epcs memo !! k
  = if decide (k ∈ epcs) then Some VirtualNotFound else memo !! k.
Proof.
  unfold VirtualLookup.mark_not_found. destruct (decide (k ∈ epcs)) as [Hin|Hnin].
  - assert (k ∈ id <$> epcs) as Hin' by by rewrite list_fmap_id.
    destruct (foldl_insert_elem id (fun _ : string => VirtualNotFound) epcs memo k Hin')
      as (x & _ & _ & H). exact H.
  - apply (foldl_insert_other id (fun _ : string => VirtualNotFound)).
    by rewrite list_fmap_id.
Qed.

End VirtualFacts.

(** X19: what a flush of the virtual batcher does to the memo of virtual
    tags.  The remote side is asked for the identifiers of the batch
    that have no entry yet, and not at all when there is none; when the
    call fails the memo is as it was.  When it succeeds, every
    identifier of the response gets a found entry with its pair, every
    identifier of the batch that the response does not hold gets a
    not-found entry, and all other entries are kept.  So an identifier
    of the batch that had a found entry, and for that reason was not
    asked for, is turned into a not-found entry unless the response
    holds it nevertheless. *)
Theorem virtual_flush_rewrites_batch
    (post : string -> string -> list string -> VirtualLookup.response)
    (p : Dispatch.findTagProps) (batch : list string)
    (g g' : Dispatch.globals) (error : option Fetchers.thrown) :
  VirtualLookup.virtual_bulk post p batch g = (g', error) ->
  let memo := Dispatch.virtuallyProcessedTags g in
  let request := VirtualLookup.own_keys (VirtualLookup.filter_new memo [] batch) in
  (forall epc, epc ∈ request <-> epc ∈ batch /\ memo !! epc = None)
  /\ (request = [] \/ is_Some error -> g' = g)
  /\ (forall results,
        request <> [] ->
        post (default EmptyString (Dispatch.virtualEpcsFetchUrl p))
             (default EmptyString (Dispatch.virtualEpcsBodyKey p)) request
        = VirtualLookup.VirtualOk results ->
        error = None
        /\ forall k,
             Dispatch.virtuallyProcessedTags g' !! k
             = match results !! k with
               | Some r => Some (Dispatch.VirtualFound r.1 r.2)
               | None => if decide (k ∈ batch) then Some Dispatch.VirtualNotFound
                         else memo !! k
               end).
Proof.
  intros Hrun. cbv zeta. set (memo := Dispatch.virtuallyProcessedTags g).
  split.
  { intros epc. rewrite elem_of_own_keys, filter_new_spec.
    split; [|by right]. by intros [?%elem_of_nil|?]. }
  revert Hrun. unfold VirtualLookup.virtual_bulk. fold memo.
  destruct batch as [|e0 batch0].
  { intros [= <- <-]. split; [done|]. intros results Hne. by destruct Hne. }
  cbv beta iota. generalize (e0 :: batch0). intros batch.
  destruct (VirtualLookup.filter_new memo [] batch) as [|f0 filtered0] eqn:Ef.
  { intros [= <- <-]. split; [done|]. intros results Hne. by destruct Hne. }
  set (request := VirtualLookup.own_keys (f0 :: filtered0)).
  assert (request <> []) as Hne.
  { intros Hnil. assert (f0 ∈ request) as Hin.
    { apply elem_of_own_keys, elem_of_cons. by left. }
    rewrite Hnil in Hin. by apply elem_of_nil in Hin. }
  destruct (post _ _ request) as [results|e].
  - intros [= <- <-]. split.
    + intros [?|[? [=]]]. done.
    + intros results' _ [= <-]. split; [done|]. intros k.
      cbn [Dispatch.virtuallyProcessedTags VirtualLookup.with_virtual].
      rewrite mark_not_found_lookup, mark_found_lookup.
      destruct (results !! k) as [r|] eqn:Er.
      * rewrite decide_False; [done|].
        intros [Hk _]%list_elem_of_filter. congruence.
      * destruct (decide (k ∈ batch)) as [Hin|Hnin].
        -- rewrite decide_True; [done|]. by apply list_elem_of_filter.
        -- rewrite decide_False; [done|]. by intros [_ ?]%list_elem_of_filter.
  - intros [= <- <-]. split; [done|]. by intros results' _ [=].
Qed.

Lemma virtual_flush_rewrites_batch_witness :
  let p := Dispatch.Props "0000000900000001" None None None None
             (Some "/virtual") (Some "epcs") ExampleData.definitions true in
  let g := Dispatch.Globals [] false true ∅
             {["0000000900000001" := Dispatch.VirtualFound 1 2]} in
  let post := fun (url key : string) (epcs : list string) =>
    VirtualLookup.VirtualOk {["0000000900000002" := (1, 1)]} in
  let r := VirtualLookup.virtual_bulk post p ["0000000900000001"; "0000000900000002"] g in
  r.2 = None
  /\ Dispatch.virtuallyProcessedTags r.1 !! "0000000900000001" = Some Dispatch.VirtualNotFound
  /\ Dispatch.virtuallyProcessedTags r.1 !! "0000000900000002"
     = Some (Dispatch.VirtualFound 1 1).
Proof.
  intros p g post r.
  destruct (virtual_flush_rewrites_batch post p ["0000000900000001"; "0000000900000002"]
              g r.1 r.2 (surjective_pairing r)) as (_ & _ & H).
  destruct (H {["0000000900000002" := (1, 1)]}) as [He Hk].
  - vm_compute. discriminate.
  - reflexivity.
  - split; [exact He|]. split; rewrite Hk; reflexivity.
Defined.

(** X20: with the bulk callback of the virtual batcher, [fetch] settles
    after one call of [set].  When the memo has no entry for the
    identifier and the flush that takes it succeeds, the promise
    resolves to the record of the pair that the response holds for the
    identifier, or to [null] when the response does not hold it; when
    the remote call fails it is rejected with the error.  No retry is
    made. *)
Theorem fetch_settles_after_one_flush
    (string_to_number : string -> option Z)
    (print_opaque : JS.heap -> JS.value -> string)
    (post : string -> string -> list string -> VirtualLookup.response)
    (p : Dispatch.findTagProps) (batch : list string) (attemptCount : Z)
    (g : Dispatch.globals) :
  attemptCount < Fetchers.ceiling ->
  Dispatch.virtuallyProcessedTags g !! Dispatch.tagEpc p = None ->
  Dispatch.tagEpc p ∈ batch ->
  let set := fun (_ : nat) g0 => VirtualLookup.virtual_flush post p batch g0 in
  let memo := Dispatch.virtuallyProcessedTags g in
  let request := VirtualLookup.own_keys (VirtualLookup.filter_new memo [] batch) in
  match post (default EmptyString (Dispatch.virtualEpcsFetchUrl p))
             (default EmptyString (Dispatch.virtualEpcsBodyKey p)) request with
  | VirtualLookup.VirtualFail e =>
      Fetchers.truthy_thrown e = true ->
      Fetchers.fetch string_to_number print_opaque set p attemptCount g
      = Some (g, Fetchers.Rejected e, 1%nat)
  | VirtualLookup.VirtualOk results =>
      let g1 :=
        VirtualLookup.with_virtual
          (VirtualLookup.mark_not_found (filter (fun epc => results !! epc = None) batch)
             (VirtualLookup.mark_found results memo)) g in
      Fetchers.fetch string_to_number print_opaque set p attemptCount g
      = match results !! Dispatch.tagEpc p with
        | Some r =>
            let '(g2, i) :=
              Dispatch.getTagInfoFromValues string_to_number print_opaque p r.1 r.2 g1 in
            Some (g2, Fetchers.Resolved i, 1%nat)
        | None => Some (g1, Fetchers.Resolved None, 1%nat)
        end
  end.
Proof.
  intros Ha Hmemo Hin set memo request.
  assert (Fetchers.fetch string_to_number print_opaque set p attemptCount g
          = match VirtualLookup.virtual_bulk post p batch g with
            | (g', Some e) =>
                if Fetchers.truthy_thrown e then Some (g', Fetchers.Rejected e, 1%nat)
                else match Fetchers.answer_from_memo string_to_number print_opaque p g' with
                     | Some r => Some (r, 1%nat)
                     | None => Fetchers.fetch_from string_to_number print_opaque
                                 (Z.to_nat (Fetchers.ceiling - attemptCount)) set p
                                 (attemptCount + 1) g' 1
                     end
            | (g', None) =>
                match Fetchers.answer_from_memo string_to_number print_opaque p g' with
                | Some r => Some (r, 1%nat)
                | None => Fetchers.fetch_from string_to_number print_opaque
                            (Z.to_nat (Fetchers.ceiling - attemptCount)) set p
                            (attemptCount + 1) g' 1
                end
            end) as ->.
  { unfold Fetchers.fetch. cbn [Fetchers.fetch_from].
    replace (Fetchers.ceiling <=? attemptCount) with false
      by (symmetry; apply Z.leb_gt; lia).
    rewrite answer_from_memo_none by done.
    unfold set, VirtualLookup.virtual_flush.
    by destruct (VirtualLookup.virtual_bulk post p batch g) as [g' [e|]]. }
  subst request. unfold VirtualLookup.virtual_bulk. fold memo.
  assert (Dispatch.tagEpc p ∈ VirtualLookup.filter_new memo [] batch) as Hf
    by (apply filter_new_spec; auto).
  destruct batch as [|e0 batch0]; [by apply elem_of_nil in Hin|].
  cbv beta iota. revert Hin Hf. generalize (e0 :: batch0). intros batch Hin Hf.
  destruct (VirtualLookup.filter_new memo [] batch) as [|f0 filtered0] eqn:Ef;
    [by apply elem_of_nil in Hf|].
  destruct (post _ _ _) as [results|e].
  - cbv zeta. unfold Fetchers.answer_from_memo.
    cbn [Dispatch.virtuallyProcessedTags VirtualLookup.with_virtual].
    rewrite mark_not_found_lookup, mark_found_lookup.
    destruct (results !! Dispatch.tagEpc p) as [r|] eqn:Er.
    + rewrite decide_False by (intros [Hk _]%list_elem_of_filter; congruence).
      by destruct (Dispatch.getTagInfoFromValues _ _ _ _ _ _).
    + rewrite decide_True by by apply list_elem_of_filter.
      done.
  - by intros ->.
Qed.

Lemma fetch_settles_after_one_flush_witness :
  let p := Dispatch.Props "0000000900000001" None None None None
             (Some "/virtual") (Some "epcs") ExampleData.definitions true in
  let g := Dispatch.Globals [] false true ∅ ∅ in
  let post := fun (url key : string) (epcs : list string) =>
    VirtualLookup.VirtualOk {["0000000900000001" := (1, 2)]} in
  exists g',
    Fetchers.fetch Lookup.decimal_to_number JS.print_plain
      (fun _ g0 => VirtualLookup.virtual_flush post p ["0000000900000001"] g0) p 0 g
    = Some (g',
            Fetchers.Resolved
              (Some (Dispatch.WithExtra
                       (Dispatch.TagInfo "blue" 1 2
                          (Dispatch.Enum (Dispatch.Base 1 "Color" "color")
                             [Dispatch.EnumValue "red" 1; Dispatch.EnumValue "blue" 2])
                          (Dispatch.IsEnum (Dispatch.EnumValue "blue" 2)))
                       false)),
            1%nat).
Proof.
  intros p g post. eexists.
  pose proof (fetch_settles_after_one_flush Lookup.decimal_to_number JS.print_plain post p
                ["0000000900000001"] 0 g ltac:(unfold Fetchers.ceiling; lia) eq_refl
                ltac:(apply elem_of_cons; by left)) as H.
  cbv zeta in H. cbn [post] in H. rewrite H. reflexivity.
Defined.

(** ** Resetting the caches *)

Section CacheResetFacts.
Import JS Lookup Deferred.
#[local] Open Scope list_scope.

Variable string_to_number : string -> option Z.

(** Nothing is found in an empty list. *)
Lemma recursiveLookup_empty_list (h : heap) lookupMap k c ps :
  h !! c = Some (Arr [] ps) ->
  recursiveLookup string_to_number h lookupMap k (VObject c) = (h, Found 0 VNull).
Proof.
  intros Hc. unfold recursiveLookup, enough_fuel.
  rewrite Nat.add_comm. cbn [Nat.add Lookup.lookup].
  rewrite bool_decide_eq_false_2 by by intros ?%elem_of_nil.
  unfold deref. rewrite Hc. cbn [default from_option id first_match].
  by destruct (negb _).
Qed.

End CacheResetFacts.

(** X21: after [clearAllCache] nothing is answered from a cache.  Both
    memos are empty, so [fetchExtraInfo] and the virtual path ask the
    batchers again, and every endpoint of the deferred resolver has an
    empty cache and no processed value, as a new endpoint has: whatever
    the reading and the value, the request is enqueued.  The batchers
    themselves are kept. *)
Theorem clearAllCache_forgets_every_answer
    (string_to_number : string -> option Z)
    (print_opaque : JS.heap -> JS.value -> string)
    (g : Dispatch.globals) (entries : list Deferred.state) :
  let m := Caches.clearAllCache (g, entries) in
  Dispatch.extrasProcessedTags m.1 = ∅
  /\ Dispatch.virtuallyProcessedTags m.1 = ∅
  /\ Dispatch.extrasLookupBatcher m.1 = Dispatch.extrasLookupBatcher g
  /\ Dispatch.virtualLookupBatcher m.1 = Dispatch.virtualLookupBatcher g
  /\ length m.2 = length entries
  /\ (forall s r contentValue,
        s ∈ m.2 ->
        Deferred.processDeferredBatched string_to_number print_opaque r contentValue s
        = (s, Deferred.Enqueue))
  /\ (forall h r contentValue,
        Deferred.processDeferredBatched string_to_number print_opaque r contentValue
          (Deferred.new_entry h)
        = (Deferred.new_entry h, Deferred.Enqueue)).
Proof.
  intros m. repeat (split; [done|]).
  split; [apply length_fmap|].
  assert (forall h r contentValue,
            Deferred.processDeferredBatched string_to_number print_opaque r contentValue
              (Deferred.State (h ++ [JS.Arr [] []]) (length h) [])
            = (Deferred.State (h ++ [JS.Arr [] []]) (length h) [], Deferred.Enqueue)) as H.
  { intros h r contentValue.
    unfold Deferred.processDeferredBatched, Deferred.lookForValueInCache.
    cbn [Deferred.store Deferred.cache Deferred.processedValues].
    rewrite (recursiveLookup_empty_list string_to_number _ _ _ _ []); [done|].
    by rewrite lookup_app_r, Nat.sub_diag by lia. }
  split.
  - intros s r contentValue (s0 & -> & _)%list_elem_of_fmap. apply H.
  - intros h r contentValue. apply H.
Qed.

(** ** Deep copies *)

Section DeepCloneFacts.
Import JS DeepClone ClonePredicates CloneInvariant.
#[local] Open Scope list_scope.
#[local] Open Scope nat_scope.

Lemma image_mono seen seen' v v' : seen ⊆ seen' -> image seen v v' -> image seen' v v'.
Proof.
  intros Hsub. destruct v; simpl; try done.
  intros (c & Hc & ->). exists c. split; [|done]. by eapply lookup_weaken.
Qed.

Lemma members_copied_mono seen seen' ps ps' :
  seen ⊆ seen' -> members_copied seen ps ps' -> members_copied seen' ps ps'.
Proof.
  intros Hsub H k. specialize (H k).
  destruct (assoc k ps), (assoc k ps'); try done. by eapply image_mono.
Qed.

Lemma copy_under_mono seen seen' o o' :
  seen ⊆ seen' -> copy_under seen o o' -> copy_under seen' o o'.
Proof.
  intros Hsub. destruct o as [ps|es ps], o' as [ps'|es' ps']; simpl; try done.
  - by apply members_copied_mono.
  - intros [He Hp]. split; [|by eapply members_copied_mono].
    eapply Forall2_impl; [exact He|]. intros. by eapply image_mono.
Qed.

Lemma members_done_mono seen seen' ps done ps' :
  seen ⊆ seen' -> members_done seen ps done ps' -> members_done seen' ps done ps'.
Proof.
  intros Hsub H k. destruct (H k) as [H1 H2]. split; [|done].
  intros Hk. destruct (H1 Hk) as (x' & ? & ?). exists x'. split; [done|].
  by eapply image_mono.
Qed.

Lemma unseen_insert h0 seen a c :
  a < length h0 -> seen !! a = None ->
  unseen h0 (<[a := c]> seen) < unseen h0 seen.
Proof.
  intros Ha Hn. unfold unseen.
  apply (length_filter_strict _ _ _ a).
  - intros x Hx. destruct (decide (a = x)) as [->|Hne]; [by rewrite lookup_insert_eq in Hx|].
    by rewrite lookup_insert_ne in Hx.
  - apply elem_of_seq. lia.
  - done.
  - by rewrite lookup_insert_eq.
Qed.

Lemma unseen_mono h0 seen seen' : seen ⊆ seen' -> unseen h0 seen' <= unseen h0 seen.
Proof.
  intros Hsub. unfold unseen. apply length_filter_mono.
  intros x Hx. destruct (seen !! x) as [c|] eqn:E; [|done].
  by rewrite (lookup_weaken _ _ _ _ E Hsub) in Hx.
Qed.

Lemma get_member (h : heap) a o k :
  h !! a = Some o -> member_key o k ->
  get h (VObject a) k = Ok (default VUndefined (assoc k (props_of o))).
Proof.
  intros Ha Hk. unfold get, deref. rewrite Ha. cbn [default from_option id].
  destruct o as [ps|es ps]; [done|]. destruct Hk as [-> Hl].
  apply String.eqb_neq in Hl. by rewrite Hl.
Qed.

Lemma member_value_ok (h0 : heap) a o k :
  Graph.closed h0 -> h0 !! a = Some o ->
  value_ok h0 (default VUndefined (assoc k (props_of o))).
Proof.
  intros Hcl Ha. destruct (assoc k (props_of o)) as [v|] eqn:E; [|done].
  destruct v as [| |b|n|s|r|f]; try done. cbn.
  apply (Hcl a r). exists o. split; [done|]. apply assoc_elem in E.
  assert (r ∈ omap (fun p : string * value => Graph.ref_of p.2) (props_of o)) as Hr.
  { apply list_elem_of_omap. by exists (k, VObject r). }
  destruct o as [ps|es ps]; cbn in *; [done|]. apply elem_of_app. by right.
Qed.

Lemma item_value_ok (h0 : heap) a es ps item :
  Graph.closed h0 -> h0 !! a = Some (Arr es ps) -> item ∈ es -> value_ok h0 item.
Proof.
  intros Hcl Ha Hin. destruct item as [| |b|n|s|r|f]; try done. cbn.
  apply (Hcl a r). exists (Arr es ps). split; [done|]. cbn.
  apply elem_of_app. left. apply list_elem_of_omap. by exists (VObject r).
Qed.

Lemma loop_inv_keeps h0 h seen0 hc sc :
  keeps h0 h -> loop_inv h0 h seen0 hc sc -> keeps h0 hc.
Proof.
  intros [Hlen Hk] (Hf & Hl & _). split; [lia|].
  intros a Ha. rewrite Hf by lia. by apply Hk.
Qed.

(** A recursive call followed by an assignment to the clone that is
    being filled keeps the state of the loop. *)
Lemma loop_inv_step h0 h seen0 hc sc h1 s1 (f : obj -> obj) :
  loop_inv h0 h seen0 hc sc -> grows h0 hc sc h1 s1 ->
  loop_inv h0 h seen0 (alter f (length h) h1) s1
  /\ alter f (length h) h1 !! length h = f <$> hc !! length h.
Proof.
  intros (Hf & Hl & Hsub & Hok & Hnew) (Gf & Gl & Gsub & Gok & Gnew).
  assert (forall x, x <> length h -> alter f (length h) h1 !! x = h1 !! x) as Hne.
  { intros x Hx. by rewrite list_lookup_alter_ne. }
  split.
  - split; [|split; [|split; [|split]]].
    + intros x Hx. rewrite Hne by lia. rewrite Gf by lia. by apply Hf.
    + rewrite length_alter. lia.
    + by etransitivity.
    + destruct Gok as [G1 G2]. split; [|done].
      intros a c Hac. rewrite length_alter. by apply G1.
    + intros a c Hac Hn0.
      assert (length h < c /\ complete h0 h1 s1 a c) as [Hc (o & o' & Ho & Ho' & Hcp)].
      { destruct (sc !! a) as [c'|] eqn:Esc.
        - pose proof (lookup_weaken _ _ _ _ Esc Gsub) as Hac'.
          rewrite Hac in Hac'. injection Hac' as ->.
          destruct (Hnew a c' Esc Hn0) as (Hc & o & o' & Ho & Ho' & Hcp).
          split; [done|]. exists o, o'. split; [done|]. split.
          + rewrite Gf; [done|]. destruct Hok as [H1 _]. destruct (H1 a c' Esc). lia.
          + by eapply copy_under_mono.
        - destruct (Gnew a c Hac Esc) as [Hc Hcomp]. split; [lia|done]. }
      split; [done|]. exists o, o'. split; [done|]. split; [|done].
      rewrite Hne by lia. done.
  - rewrite list_lookup_alter_eq. by rewrite Gf by lia.
Qed.

Lemma with_props_id o : with_props o (props_of o) = o.
Proof. by destruct o. Qed.

Lemma with_props_set_prop k v o ps : with_props (set_prop k v o) ps = with_props o ps.
Proof. by destruct o. Qed.

Lemma props_of_set_prop k v o : props_of (set_prop k v o) = assoc_set k v (props_of o).
Proof. by destruct o. Qed.

Lemma props_of_with_props o ps : props_of (with_props o ps) = ps.
Proof. by destruct o. Qed.

Section Loops.
Variable h0 : heap.
Hypothesis Hplain : plain_store h0.
Variable rec : heap -> gmap nat nat -> value -> option (result (heap * gmap nat nat * value)).
Variable bound : nat.
Hypothesis Hrec : call_ok h0 rec bound.
Variables (h : heap) (seen0 : gmap nat nat).
Hypothesis Hkeeps : keeps h0 h.
Hypothesis Hbound : unseen h0 seen0 <= bound.

(** One recursive call from inside a loop. *)
Lemma loop_call hc sc v (f : value -> obj -> obj) :
  loop_inv h0 h seen0 hc sc -> value_ok h0 v ->
  exists h1 s1 v1,
    rec hc sc v = Some (Ok (h1, s1, v1))
    /\ image s1 v v1 /\ sc ⊆ s1
    /\ loop_inv h0 h seen0 (alter (f v1) (length h) h1) s1
    /\ alter (f v1) (length h) h1 !! length h = f v1 <$> hc !! length h.
Proof.
  intros Hinv Hv.
  destruct (Hrec hc sc v) as (h1 & s1 & v1 & Hcall & Hg & Hi).
  - by eapply loop_inv_keeps.
  - by destruct Hinv as (_ & _ & _ & ? & _).
  - done.
  - destruct Hinv as (_ & _ & Hsub & _). pose proof (unseen_mono h0 _ _ Hsub). lia.
  - exists h1, s1, v1. split; [done|]. split; [done|].
    split; [by destruct Hg as (_ & _ & ? & _)|].
    by apply (loop_inv_step h0 h seen0 hc sc).
Qed.

Lemma clone_items_ok items : forall done_es hc sc esc,
  loop_inv h0 h seen0 hc sc ->
  hc !! length h = Some (Arr esc []) ->
  Forall (value_ok h0) items ->
  Forall2 (image sc) done_es esc ->
  exists hf sf esf,
    clone_items rec (length h) items hc sc = Some (Ok (hf, sf))
    /\ loop_inv h0 h seen0 hf sf /\ sc ⊆ sf
    /\ hf !! length h = Some (Arr esf [])
    /\ Forall2 (image sf) (done_es ++ items) esf.
Proof.
  induction items as [|item items IH]; intros done_es hc sc esc Hinv Hc Hitems Hdone.
  - exists hc, sc, esc. rewrite app_nil_r.
    split; [done|]. split; [done|]. split; [reflexivity|]. by split.
  - apply Forall_cons in Hitems as [Hitem Hitems]. cbn [clone_items].
    destruct (loop_call hc sc item
                (fun v o => match o with
                            | Arr es ps => Arr (es ++ [v]) ps
                            | Obj ps => Obj ps
                            end) Hinv Hitem)
      as (h1 & s1 & v1 & -> & Hi & Hsub & Hinv1 & Hc1).
    rewrite Hc in Hc1. cbn in Hc1.
    destruct (IH (done_es ++ [item]) _ s1 (esc ++ [v1]) Hinv1 Hc1 Hitems)
      as (hf & sf & esf & Hrun & Hinvf & Hsubf & Hcf & Hall).
    { apply Forall2_app; [|by constructor].
      eapply Forall2_impl; [exact Hdone|]. intros. by eapply image_mono. }
    exists hf, sf, esf. unfold Deferred.push. rewrite Hrun.
    split; [done|]. split; [done|]. split; [by etransitivity|]. split; [done|].
    by rewrite <- app_assoc in Hall.
Qed.

Lemma clone_members_ok guarded a o keys : forall done hc sc oc,
  h0 !! a = Some o ->
  loop_inv h0 h seen0 hc sc ->
  hc !! length h = Some oc ->
  members_done sc (props_of o) done (props_of oc) ->
  Forall (member_key o) keys ->
  exists hf sf psf,
    clone_members rec guarded a (length h) keys hc sc = Some (Ok (hf, sf))
    /\ loop_inv h0 h seen0 hf sf /\ sc ⊆ sf
    /\ hf !! length h = Some (with_props oc psf)
    /\ members_done sf (props_of o) (rev keys ++ done) psf.
Proof.
  induction keys as [|k keys IH]; intros done hc sc oc Ha Hinv Hc Hdone Hkeys.
  - exists hc, sc, (props_of oc). rewrite with_props_id.
    split; [done|]. split; [done|]. split; [reflexivity|]. by split.
  - apply Forall_cons in Hkeys as [Hk Hkeys]. cbn [clone_members].
    pose proof (lookup_lt_Some _ _ _ Ha) as Hlt.
    assert (hc !! a = Some o) as Hca.
    { destruct (loop_inv_keeps h0 h seen0 hc sc Hkeeps Hinv) as [_ Hk']. by rewrite Hk'. }
    assert ((if guarded then has_own_property hc a else Ok true) = Ok true) as ->.
    { destruct guarded; [|done]. unfold has_own_property, deref. rewrite Hca.
      cbn [default from_option id]. destruct Hplain as [_ Hp].
      by destruct (Hp a o Ha) as [-> _]. }
    rewrite (get_member hc a o k Hca Hk).
    destruct (loop_call hc sc (default VUndefined (assoc k (props_of o)))
                (fun v => set_prop k v) Hinv)
      as (h1 & s1 & v1 & -> & Hi & Hsub & Hinv1 & Hc1).
    { destruct Hplain as [Hcl _]. by eapply member_value_ok. }
    rewrite Hc in Hc1. cbn in Hc1.
    destruct (IH (k :: done) _ s1 (set_prop k v1 oc) Ha Hinv1 Hc1)
      as (hf & sf & psf & Hrun & Hinvf & Hsubf & Hcf & Hall); [|done|].
    { rewrite props_of_set_prop. intros k'. destruct (decide (k' = k)) as [->|Hne].
      - split; [|by intros []; apply elem_of_cons; left].
        intros _. exists v1. by rewrite assoc_set_eq.
      - rewrite assoc_set_ne by done.
        destruct (members_done_mono _ _ _ _ _ Hsub Hdone k') as [H1 H2].
        split.
        + intros [?|?]%elem_of_cons; [done|]. by apply H1.
        + intros Hn. apply H2. intros ?. apply Hn. apply elem_of_cons. by right. }
    exists hf, sf, psf. rewrite Hrun. split; [done|]. split; [done|].
    split; [by etransitivity|]. split; [by rewrite with_props_set_prop in Hcf|].
    cbn [rev]. by rewrite <- app_assoc.
Qed.

End Loops.

Lemma assoc_none_keys k (ps : list (string * value)) :
  assoc k ps = None <-> k ∉ fst <$> ps.
Proof.
  induction ps as [|[k' v] ps IH]; cbn [assoc fmap list_fmap].
  - split; [intros _; apply not_elem_of_nil|done].
  - cbn [fst]. rewrite not_elem_of_cons.
    destruct (String.eqb k k') eqn:E.
    + apply String.eqb_eq in E. split; [done|]. by intros [? _].
    + apply String.eqb_neq in E. rewrite IH. tauto.
Qed.

(** The members are all copied once the loop has gone through the keys. *)
Lemma members_done_all seen ps keys ps' :
  (forall k, k ∈ keys <-> k ∈ fst <$> ps) ->
  members_done seen ps keys ps' -> members_copied seen ps ps'.
Proof.
  intros Hkeys Hdone k. destruct (Hdone k) as [H1 H2].
  destruct (assoc k ps) as [x|] eqn:E.
  - assert (k ∈ keys) as Hk.
    { apply Hkeys. apply assoc_elem in E. apply list_elem_of_fmap. by exists (k, x). }
    destruct (H1 Hk) as (x' & -> & Hi). done.
  - apply assoc_none_keys in E. rewrite H2; [done|]. intros Hk. by apply E, Hkeys.
Qed.

Lemma member_keys_spec o k : k ∈ member_keys o <-> k ∈ fst <$> props_of o.
Proof. apply elem_of_own_keys. Qed.

(** The state in which the loops start, right after [seen.set(obj, clone)]. *)
Lemma loop_inv_start h0 h seen a o :
  keeps h0 h -> seen_ok h0 h seen -> a < length h0 -> seen !! a = None ->
  loop_inv h0 h (<[a := length h]> seen) (h ++ [o]) (<[a := length h]> seen).
Proof.
  intros [Hlen Hk] [Hr Hinj] Ha Hn. split; [|split; [|split; [|split]]].
  - intros x Hx. by rewrite lookup_app_l.
  - rewrite length_app. cbn. lia.
  - done.
  - split.
    + intros a' c'. rewrite length_app. cbn [length].
      destruct (decide (a' = a)) as [->|Hne].
      * rewrite lookup_insert_eq. intros [= <-]. lia.
      * rewrite lookup_insert_ne by done. intros H'. destruct (Hr _ _ H'). lia.
    + intros a1 a2 c'.
      destruct (decide (a1 = a)) as [->|Hne1]; destruct (decide (a2 = a)) as [->|Hne2];
        rewrite ?lookup_insert_eq, ?lookup_insert_ne by done; try done.
      * intros [= <-] H'. destruct (Hr _ _ H'). lia.
      * intros H' [= <-]. destruct (Hr _ _ H'). lia.
      * apply Hinj.
  - intros a' c' H1 H2. by rewrite H1 in H2.
Qed.

(** What the loops leave is what the call leaves. *)
Lemma loop_inv_grows h0 h seen a o o' hf sf :
  seen !! a = None -> h0 !! a = Some o -> hf !! length h = Some o' ->
  copy_under sf o o' ->
  loop_inv h0 h (<[a := length h]> seen) hf sf ->
  grows h0 h seen hf sf /\ image sf (VObject a) (VObject (length h)).
Proof.
  intros Hn Ha Hc Hcopy (Hf & Hl & Hsub & Hok & Hnew).
  assert (sf !! a = Some (length h)) as Hsa.
  { eapply lookup_weaken; [|exact Hsub]. by rewrite lookup_insert_eq. }
  split; [|by exists (length h)].
  split; [done|]. split; [lia|]. split.
  { etransitivity; [|exact Hsub]. by apply insert_subseteq. }
  split; [done|].
  intros a' c' H1 H2. destruct (decide (a' = a)) as [->|Hne].
  - rewrite Hsa in H1. injection H1 as <-. split; [lia|]. by exists o, o'.
  - destruct (Hnew a' c' H1) as [? ?]; [by rewrite lookup_insert_ne|]. split; [lia|done].
Qed.

(** [deepClone] returns on every value of a store of decoded records,
    given one unit of fuel per object that has no clone yet. *)
Lemma deepClone_ok h0 :
  plain_store h0 -> forall fuel, call_ok h0 (deepClone (S fuel)) fuel.
Proof.
  intros Hplain fuel. induction fuel as [|fuel IH].
  - intros h seen v Hkeeps Hok Hv Hb. cbn [deepClone].
    destruct v as [| |b|n|s|a|f];
      try (eexists _, _, _; split; [done|]; split; [|done];
           split; [done|]; split; [lia|]; split; [done|]; split; [done|];
           intros a' c' H1 H2; by rewrite H1 in H2).
    destruct (seen !! a) as [c|] eqn:E.
    + eexists _, _, _. split; [done|]. split; [|by exists c].
      split; [done|]. split; [lia|]. split; [done|]. split; [done|].
      intros a' c' H1 H2. by rewrite H1 in H2.
    + pose proof (unseen_insert h0 seen a 0 Hv E). lia.
  - intros h seen v Hkeeps Hok Hv Hb.
    remember (S fuel) as fuel' eqn:Hfuel. cbn [deepClone].
    destruct v as [| |b|n|s|a|f];
      try (eexists _, _, _; split; [done|]; split; [|done];
           split; [done|]; split; [lia|]; split; [done|]; split; [done|];
           intros a' c' H1 H2; by rewrite H1 in H2).
    destruct (seen !! a) as [c|] eqn:E.
    { eexists _, _, _. split; [done|]. split; [|by exists c].
      split; [done|]. split; [lia|]. split; [done|]. split; [done|].
      intros a' c' H1 H2. by rewrite H1 in H2. }
    cbn in Hv. destruct (lookup_lt_is_Some_2 h0 a Hv) as [o Ha].
    assert (h !! a = Some o) as Hha by (destruct Hkeeps as [_ Hk]; by rewrite Hk).
    assert (deref h a = o) as Hd by (unfold deref; by rewrite Hha).
    rewrite Hd.
    assert (unseen h0 (<[a := length h]> seen) <= fuel) as Hb'.
    { pose proof (unseen_insert h0 seen a (length h) Hv E). lia. }
    destruct o as [ps|es ps].
    + pose proof (loop_inv_start h0 h seen a (Obj []) Hkeeps Hok Hv E) as Hstart.
      destruct (clone_members_ok h0 Hplain (deepClone fuel') fuel IH h
                  (<[a := length h]> seen) Hkeeps Hb' true a (Obj ps)
                  (member_keys (Obj ps)) [] _ _ (Obj []) Ha Hstart)
        as (hf & sf & psf & -> & Hinv & Hsub & Hc & Hdone).
      { rewrite lookup_app_r by lia. by rewrite Nat.sub_diag. }
      { intros k. split; [by intros ?%elem_of_nil|done]. }
      { by apply Forall_forall. }
      eexists _, _, _. split; [done|].
      apply (loop_inv_grows h0 h seen a (Obj ps) (Obj psf) hf sf E Ha Hc); [|done].
      cbn. apply (members_done_all sf ps (rev (member_keys (Obj ps)) ++ [])); [|done].
      intros k. rewrite app_nil_r, list_elem_of_In, <- in_rev, <- list_elem_of_In.
        apply member_keys_spec.
    + pose proof (loop_inv_start h0 h seen a (Arr [] []) Hkeeps Hok Hv E) as Hstart.
      destruct (clone_items_ok h0 (deepClone fuel') fuel IH h
                  (<[a := length h]> seen) Hkeeps Hb' es [] _ _ [] Hstart)
        as (h1 & s1 & esf & -> & Hinv1 & Hsub1 & Hc1 & Hall).
      { rewrite lookup_app_r by lia. by rewrite Nat.sub_diag. }
      { apply Forall_forall. intros item Hin. destruct Hplain as [Hcl _].
        by eapply item_value_ok. }
      { constructor. }
      destruct (clone_members_ok h0 Hplain (deepClone fuel') fuel IH h
                  (<[a := length h]> seen) Hkeeps Hb' false a (Arr es ps)
                  (member_keys (Arr es ps)) [] h1 s1 (Arr esf []) Ha Hinv1 Hc1)
        as (hf & sf & psf & -> & Hinv & Hsub & Hc & Hdone).
      { intros k. split; [by intros ?%elem_of_nil|done]. }
      { apply Forall_forall. intros k Hk%member_keys_spec.
        destruct Hplain as [_ Hp]. destruct (Hp a _ Ha) as [_ Hm]. by apply Hm. }
      eexists _, _, _. split; [done|].
      apply (loop_inv_grows h0 h seen a (Arr es ps) (Arr esf psf) hf sf E Ha Hc); [|done].
      split.
      * eapply Forall2_impl; [exact Hall|]. intros. by eapply image_mono.
      * apply (members_done_all sf ps (rev (member_keys (Arr es ps)) ++ [])); [|done].
        intros k. rewrite app_nil_r, list_elem_of_In, <- in_rev, <- list_elem_of_In.
        apply member_keys_spec.
Qed.

Lemma plain_storeb_plain (h : heap) : plain_storeb h = true -> plain_store h.
Proof.
  unfold plain_storeb. intros [Hc Hp]%andb_true_iff. split; [by apply closedb_closed|].
  intros a o Ho. rewrite forallb_forall in Hp.
  apply list_elem_of_lookup_2, list_elem_of_In in Ho. specialize (Hp o Ho).
  unfold plain_objectb in Hp. apply andb_true_iff in Hp as [H1 H2].
  apply bool_decide_eq_true_1 in H1. split; [done|].
  destruct o as [ps|es ps]; [done|]. intros k Hk%list_elem_of_In.
  rewrite forallb_forall in H2. specialize (H2 k Hk).
  apply andb_true_iff in H2 as [H2 H3]. apply bool_decide_eq_true_1 in H2.
  split; [done|]. apply negb_true_iff in H3. by apply String.eqb_neq.
Qed.

Lemma unseen_empty (h0 : heap) : unseen h0 ∅ <= length h0.
Proof.
  unfold unseen. etransitivity; [apply length_filter|]. by rewrite length_seq.
Qed.

End DeepCloneFacts.


